(** * Tank Battle Arena: a model of [server.js] and its specification

    The simulation core of the game server is embedded here as Rocq
    functions: the [Player] and [Bullet] classes, the registries
    [players], [bullets] and [lastRepairTime], and [gameLoop].

    Conventions of the embedding.
    - Coordinates, velocities and angles are JavaScript numbers used as
      reals; they are modelled in [R], with [Math.cos], [Math.sin],
      [Math.sqrt], [Math.max], [Math.min] as their real counterparts and
      [Math.atan2] defined below from [atan].  Rounding, [NaN] and the
      infinities are outside the model.
    - Hit points, scores and millisecond timestamps only ever hold
      integers; they are modelled in [Z].
    - [Date.now()] and [Math.random()] are inputs: every function takes
      the values it reads as arguments ([now], [r1], [r2]).
    - A [Player] object lives in the registry [players]; a method that
      only touches [this] is a function on the object, a method that
      also reaches into a registry ([takeDamage], [repair]) is a
      function on the registry too.  [players] is a list because
      [Object.values] and [for .. in] walk it in insertion order and
      [gameLoop] indexes it.
    - Socket emissions are output that the server never reads back; of
      these only the [state] broadcast is kept, as the value [gameLoop]
      returns. *)

From Stdlib Require Import Reals Lra Lia ZArith.
From stdpp Require Import base decidable list strings gmap.

Set Default Proof Using "Type".

#[global] Instance Rlt_decision : RelDecision Rlt := Rlt_dec.
#[global] Instance Rle_decision : RelDecision Rle := Rle_dec.
#[global] Instance Rgt_decision : RelDecision Rgt := Rgt_dec.
#[global] Instance Rge_decision : RelDecision Rge := Rge_dec.
#[global] Instance Req_decision : EqDecision R := Req_dec_T.

(** ** Game constants *)

Module GAME_CONFIG.
Definition ARENA_WIDTH : R := 1200.
Definition ARENA_HEIGHT : R := 700.
Definition TANK_WIDTH : R := 30.
Definition TANK_HEIGHT : R := 20.
Definition TANK_RADIUS : R := 15.
Definition BULLET_RADIUS : R := 10.
Definition BULLET_SPEED : R := 35.
Definition BULLET_DAMAGE : Z := 25.
Definition MAX_HEALTH : Z := 100.
Definition TANK_SPEED : R := 30.
Definition TANK_BOOST_MULTIPLIER : R := 1.8.
Definition FRICTION : R := 0.92.
Definition ROTATION_SPEED : R := 0.1.
Definition RESPAWN_TIME : Z := 3000.
Definition BULLET_LIFETIME : Z := 2000.
Definition REPAIR_AMOUNT : Z := 10.
Definition REPAIR_COOLDOWN : Z := 5000.
End GAME_CONFIG.

(** ** The part of [Math] the server uses *)

Module Math.
Definition PI : R := Rtrigo1.PI.
Definition cos : R -> R := Rtrigo_def.cos.
Definition sin : R -> R := Rtrigo_def.sin.
Definition sqrt : R -> R := R_sqrt.sqrt.
Definition max : R -> R -> R := Rmax.
Definition min : R -> R -> R := Rmin.

(** [Math.atan2(y, x)]: the angle of the point [(x, y)], in
    [(-PI, PI]], and [0] at the origin. *)
Definition atan2 (y x : R) : R :=
  if decide (0 < x)%R then atan (y / x)
  else if decide (x < 0)%R then
    (if decide (0 <= y)%R then atan (y / x) + PI else atan (y / x) - PI)%R
  else if decide (0 < y)%R then (PI / 2)%R
  else if decide (y < 0)%R then (- PI / 2)%R
  else 0%R.
End Math.

(** ** Values a client may send in the [boost] field of a move *)

Inductive JsVal : Type :=
  | JUndefined
  | JBool (b : bool)
  | JNum (r : R).

(** JavaScript truthiness. *)
Definition truthy (v : JsVal) : bool :=
  match v with
  | JUndefined => false
  | JBool b => b
  | JNum r => if decide (r = 0%R) then false else true
  end.

(** [v || 1] used as a factor of a product: a truthy [v] is converted
    to a number ([true] to [1]), a falsy one gives the [1]. *)
Definition or_1 (v : JsVal) : R :=
  if truthy v then
    match v with
    | JNum r => r
    | JBool _ => 1%R
    | JUndefined => 1%R
    end
  else 1%R.

Record Input : Type := mkInput {
  dx : R;
  dy : R;
  boost : JsVal
}.

(** ** Class [Bullet] *)

Module Bullet.
Import GAME_CONFIG.

Record t : Type := mk {
  x : R;
  y : R;
  vx : R;
  vy : R;
  owner : string;
  createdAt : Z;
  angle : R
}.

(** [new Bullet(data)]: the fields of [data], then [createdAt]
    overwritten with the clock. *)
Definition new (data : t) (now : Z) : t :=
  {| x := x data; y := y data; vx := vx data; vy := vy data;
     owner := owner data; createdAt := now; angle := angle data |}.

(** [update(deltaTime)]; [now] is the value of [Date.now()].  The
    result is the moved bullet and the returned flag ([false]: to be
    removed). *)
Definition update (deltaTime : R) (now : Z) (this : t) : t * bool :=
  let x1 := (x this + vx this * deltaTime)%R in
  let y1 := (y this + vy this * deltaTime)%R in
  let this1 :=
    {| x := x1; y := y1; vx := vx this; vy := vy this;
       owner := owner this; createdAt := createdAt this;
       angle := angle this |} in
  if bool_decide (x1 < -50)%R || bool_decide (x1 > ARENA_WIDTH + 50)%R ||
     bool_decide (y1 < -50)%R || bool_decide (y1 > ARENA_HEIGHT + 50)%R ||
     bool_decide (now - createdAt this > BULLET_LIFETIME)%Z
  then (this1, false)
  else (this1, true).

Record json : Type := mkJson {
  j_x : R;
  j_y : R;
  j_vx : R;
  j_vy : R;
  j_angle : R;
  j_owner : string
}.

Definition toJSON (this : t) : json :=
  {| j_x := x this; j_y := y this; j_vx := vx this; j_vy := vy this;
     j_angle := Math.atan2 (vy this) (vx this); j_owner := owner this |}.
End Bullet.

(** ** Class [Player] *)

Module Player.
Import GAME_CONFIG.

Record t : Type := mk {
  id : string;
  x : R;
  y : R;
  vx : R;
  vy : R;
  angle : R;
  targetAngle : R;
  hp : Z;
  score : Z;
  name : string;
  isAlive : bool;
  respawnTime : Z;
  lastShot : Z;
  shootCooldown : Z
}.

(** [new Player(id, x, y)] *)
Definition new (id0 : string) (x0 y0 : R) : t :=
  {| id := id0; x := x0; y := y0; vx := 0; vy := 0;
     angle := 0; targetAngle := 0;
     hp := MAX_HEALTH; score := 0;
     name := String.append "Player_" (String.substring 0 4 id0);
     isAlive := true; respawnTime := 0; lastShot := 0;
     shootCooldown := 300 |}.

(** [respawn()]; [r1] and [r2] are the two values of
    [Math.random()]. *)
Definition respawn (r1 r2 : R) (this : t) : t :=
  {| id := id this;
     x := (r1 * (ARENA_WIDTH - 200) + 100)%R;
     y := (r2 * (ARENA_HEIGHT - 200) + 100)%R;
     vx := 0; vy := 0; angle := 0; targetAngle := 0;
     hp := MAX_HEALTH; score := score this; name := name this;
     isAlive := true; respawnTime := respawnTime this;
     lastShot := lastShot this; shootCooldown := shootCooldown this |}.

(** The two loops of the rotation smoothing,
    [while (angleDiff > Math.PI) angleDiff -= 2 * Math.PI] and
    [while (angleDiff < -Math.PI) angleDiff += 2 * Math.PI],
    unrolled [fuel] times. *)
Fixpoint while_above_PI (fuel : nat) (angleDiff : R) : R :=
  match fuel with
  | O => angleDiff
  | S fuel' =>
      if decide (angleDiff > Math.PI)%R
      then while_above_PI fuel' (angleDiff - 2 * Math.PI)%R
      else angleDiff
  end.

Fixpoint while_below_minus_PI (fuel : nat) (angleDiff : R) : R :=
  match fuel with
  | O => angleDiff
  | S fuel' =>
      if decide (angleDiff < - Math.PI)%R
      then while_below_minus_PI fuel' (angleDiff + 2 * Math.PI)%R
      else angleDiff
  end.

(** A number of rounds after which either loop has stopped (see
    [while_above_PI_exits] and [while_below_minus_PI_exits]). *)
Definition turns (angleDiff : R) : nat :=
  Z.to_nat (up (Rabs angleDiff / (2 * Math.PI))).

Definition shortestDiff (angleDiff : R) : R :=
  let d1 := while_above_PI (turns angleDiff) angleDiff in
  while_below_minus_PI (turns d1) d1.

(** [update(deltaTime)]; [now] is [Date.now()], read only when the
    tank is dead, [r1] and [r2] are handed to [respawn]. *)
Definition update (deltaTime : R) (now : Z) (r1 r2 : R) (this : t) : t :=
  if negb (isAlive this) then
    if bool_decide (now > respawnTime this)%Z
    then respawn r1 r2 this
    else this
  else
    let vx1 := (vx this * FRICTION)%R in
    let vy1 := (vy this * FRICTION)%R in
    let x1 := (x this + vx1 * deltaTime)%R in
    let y1 := (y this + vy1 * deltaTime)%R in
    let angleDiff := shortestDiff (targetAngle this - angle this)%R in
    let angle1 := (angle this + angleDiff * 0.2)%R in
    let x2 := Math.max TANK_RADIUS
                (Math.min (ARENA_WIDTH - TANK_RADIUS) x1) in
    let y2 := Math.max TANK_RADIUS
                (Math.min (ARENA_HEIGHT - TANK_RADIUS) y1) in
    {| id := id this; x := x2; y := y2; vx := vx1; vy := vy1;
       angle := angle1; targetAngle := targetAngle this;
       hp := hp this; score := score this; name := name this;
       isAlive := isAlive this; respawnTime := respawnTime this;
       lastShot := lastShot this; shootCooldown := shootCooldown this |}.

(** [applyInput(input)] for an [input] that is an object;
    [applyInput_payload] below has the call with no payload. *)
Definition applyInput (input : Input) (this : t) : t :=
  if negb (isAlive this) then this
  else
    let speed := (TANK_SPEED * or_1 (boost input))%R in
    if decide (dx input <> 0%R \/ dy input <> 0%R) then
      let vx1 := (dx input * speed)%R in
      let vy1 := (dy input * speed)%R in
      {| id := id this; x := x this; y := y this; vx := vx1; vy := vy1;
         angle := angle this; targetAngle := Math.atan2 vy1 vx1;
         hp := hp this; score := score this; name := name this;
         isAlive := isAlive this; respawnTime := respawnTime this;
         lastShot := lastShot this;
         shootCooldown := shootCooldown this |}
    else this.

(** [shoot()]; [now] and [now2] are the two readings of
    [Date.now()].  The result is the returned bullet data ([None]
    for [null]) and the tank afterwards. *)
Definition shoot (now now2 : Z) (this : t) : option Bullet.t * t :=
  if negb (isAlive this) then (None, this)
  else if bool_decide (now - lastShot this < shootCooldown this)%Z
  then (None, this)
  else
    let this1 :=
      {| id := id this; x := x this; y := y this;
         vx := vx this; vy := vy this;
         angle := angle this; targetAngle := targetAngle this;
         hp := hp this; score := score this; name := name this;
         isAlive := isAlive this; respawnTime := respawnTime this;
         lastShot := now; shootCooldown := shootCooldown this |} in
    let cannonLength := 25%R in
    let bulletX := (x this + Math.cos (angle this) * cannonLength)%R in
    let bulletY := (y this + Math.sin (angle this) * cannonLength)%R in
    (Some {| Bullet.x := bulletX; Bullet.y := bulletY;
             Bullet.vx := (Math.cos (angle this) * BULLET_SPEED)%R;
             Bullet.vy := (Math.sin (angle this) * BULLET_SPEED)%R;
             Bullet.owner := id this; Bullet.createdAt := now2;
             Bullet.angle := angle this |},
     this1).

(** [die()]; [now] is [Date.now()]. *)
Definition die (now : Z) (this : t) : t :=
  {| id := id this; x := x this; y := y this; vx := 0; vy := 0;
     angle := angle this; targetAngle := targetAngle this;
     hp := 0; score := score this; name := name this;
     isAlive := false; respawnTime := (now + RESPAWN_TIME)%Z;
     lastShot := lastShot this; shootCooldown := shootCooldown this |}.

Definition set_hp (h : Z) (this : t) : t :=
  {| id := id this; x := x this; y := y this;
     vx := vx this; vy := vy this;
     angle := angle this; targetAngle := targetAngle this;
     hp := h; score := score this; name := name this;
     isAlive := isAlive this; respawnTime := respawnTime this;
     lastShot := lastShot this; shootCooldown := shootCooldown this |}.

Definition add_score (n : Z) (this : t) : t :=
  {| id := id this; x := x this; y := y this;
     vx := vx this; vy := vy this;
     angle := angle this; targetAngle := targetAngle this;
     hp := hp this; score := (score this + n)%Z; name := name this;
     isAlive := isAlive this; respawnTime := respawnTime this;
     lastShot := lastShot this; shootCooldown := shootCooldown this |}.

(** [players[key]]: the position in the registry of the player
    stored under [key]. *)
Definition lookup_id (key : string) (players : list t) : option nat :=
  fst <$> list_find (fun q => id q = key) players.

(** [if (players[attackerId]) players[attackerId].score += 100] *)
Definition credit_kill (attackerId : string) (players : list t) : list t :=
  match lookup_id attackerId players with
  | Some a => alter (add_score 100) a players
  | None => players
  end.

(** [takeDamage(damage, attackerId)] called on the object at
    position [this] of the registry [players]; [now] is the
    [Date.now()] that [die] reads.  The result is the returned flag
    and the registry afterwards. *)
Definition takeDamage (damage : Z) (attackerId : string) (now : Z)
    (this : nat) (players : list t) : bool * list t :=
  match players !! this with
  | None => (false, players)
  | Some p =>
      if negb (isAlive p) then (false, players)
      else
        let p1 := set_hp (hp p - damage)%Z p in
        if bool_decide (hp p1 <= 0)%Z then
          (true, credit_kill attackerId (<[this := die now p1]> players))
        else (false, <[this := p1]> players)
  end.

(** [repair()] with the registry [lastRepairTime]; [now] is
    [Date.now()].  A missing entry and an entry [0] are both falsy. *)
Definition repair (now : Z) (this : t) (lastRepairTime : gmap string Z)
    : bool * t * gmap string Z :=
  if negb (isAlive this) then (false, this, lastRepairTime)
  else
    let recent :=
      match lastRepairTime !! id this with
      | Some last =>
          negb (bool_decide (last = 0%Z)) &&
          bool_decide (now - last < REPAIR_COOLDOWN)%Z
      | None => false
      end in
    if recent then (false, this, lastRepairTime)
    else
      (true,
       set_hp (Z.min MAX_HEALTH (hp this + REPAIR_AMOUNT)) this,
       <[id this := now]> lastRepairTime).

Record json : Type := mkJson {
  j_id : string;
  j_x : R;
  j_y : R;
  j_angle : R;
  j_hp : Z;
  j_score : Z;
  j_name : string;
  j_isAlive : bool;
  j_vx : R;
  j_vy : R
}.

Definition toJSON (this : t) : json :=
  {| j_id := id this; j_x := x this; j_y := y this;
     j_angle := angle this; j_hp := hp this; j_score := score this;
     j_name := name this; j_isAlive := isAlive this;
     j_vx := vx this; j_vy := vy this |}.
End Player.

(** ** The registries and the game loop *)

Record World : Type := mkWorld {
  players : list Player.t;
  bullets : list Bullet.t;
  lastRepairTime : gmap string Z;
  lastUpdate : Z
}.

Definition set_players (ps : list Player.t) (w : World) : World :=
  {| players := ps; bullets := bullets w;
     lastRepairTime := lastRepairTime w; lastUpdate := lastUpdate w |}.

(** What one run of [gameLoop] reads from the clock and from
    [Math.random]: [now] at its start, [updateNow k] and
    [updateRandom k] in [update] of the [k]-th player, [bulletNow i] in
    [update] of the [i]-th bullet, [dieNow i] in [die] when the [i]-th
    bullet kills, [timestamp] for the broadcast and [nowTime] for the
    final sweep. *)
Record Readings : Type := mkReadings {
  now : Z;
  updateNow : nat -> Z;
  updateRandom : nat -> R * R;
  bulletNow : nat -> Z;
  dieNow : nat -> Z;
  timestamp : Z;
  nowTime : Z
}.

(** The payload of the [state] broadcast. *)
Record State : Type := mkState {
  s_players : list (string * Player.json);
  s_bullets : list Bullet.json;
  s_timestamp : Z
}.

Section GameLoop.
Import GAME_CONFIG.

(** The test of the bullet loop: [player] is alive, is not the owner,
    and is closer than the two radii. *)
Definition hits (bullet : Bullet.t) (player : Player.t) : Prop :=
  Player.isAlive player = true /\
  Player.id player <> Bullet.owner bullet /\
  let dx := (Bullet.x bullet - Player.x player)%R in
  let dy := (Bullet.y bullet - Player.y player)%R in
  let distance := Math.sqrt (dx * dx + dy * dy) in
  (distance < TANK_RADIUS + BULLET_RADIUS)%R.

#[global] Instance hits_dec bullet player : Decision (hits bullet player).
Proof. unfold hits. apply _. Defined.

(** The bullet loop, [for (let i = bullets.length - 1; i >= 0; i--)].
    It runs from the last bullet to the first and only ever removes
    the bullet it is at, so the bullets after the head of [bs] are
    done, in their order, before the head; [i] is the index of the
    head.  The inner [for .. in] stops at the first player hit. *)
Fixpoint bulletLoop (deltaTime : R) (rd : Readings) (i : nat)
    (bs : list Bullet.t) (ps : list Player.t)
    : list Bullet.t * list Player.t :=
  match bs with
  | [] => ([], ps)
  | bullet :: rest =>
      let '(rest1, ps1) := bulletLoop deltaTime rd (S i) rest ps in
      let '(bullet1, keep) := Bullet.update deltaTime (bulletNow rd i) bullet in
      if negb keep then (rest1, ps1)
      else
        match list_find (hits bullet1) ps1 with
        | Some (k, _) =>
            let '(_, ps2) :=
              Player.takeDamage BULLET_DAMAGE (Bullet.owner bullet1)
                (dieNow rd i) k ps1 in
            (rest1, ps2)
        | None => (bullet1 :: rest1, ps1)
        end
  end.

(** The body of the tank-to-tank test for [p1 = playerArray[i]] and
    [p2 = playerArray[j]]: the two tanks afterwards. *)
Definition collidePair (p1 p2 : Player.t) : Player.t * Player.t :=
  if Player.isAlive p1 && Player.isAlive p2 then
    let dx := (Player.x p1 - Player.x p2)%R in
    let dy := (Player.y p1 - Player.y p2)%R in
    let distance := Math.sqrt (dx * dx + dy * dy) in
    let minDistance := (TANK_RADIUS * 2)%R in
    if decide (distance < minDistance)%R then
      let angle := Math.atan2 dy dx in
      let targetX := (Player.x p1 + Math.cos angle * minDistance)%R in
      let targetY := (Player.y p1 + Math.sin angle * minDistance)%R in
      let ax := ((targetX - Player.x p2) * 0.1)%R in
      let ay := ((targetY - Player.y p2) * 0.1)%R in
      let overlap := ((minDistance - distance) / 2)%R in
      ({| Player.id := Player.id p1;
          Player.x := (Player.x p1 + Math.cos angle * overlap)%R;
          Player.y := (Player.y p1 + Math.sin angle * overlap)%R;
          Player.vx := (Player.vx p1 - ax)%R;
          Player.vy := (Player.vy p1 - ay)%R;
          Player.angle := Player.angle p1;
          Player.targetAngle := Player.targetAngle p1;
          Player.hp := Player.hp p1; Player.score := Player.score p1;
          Player.name := Player.name p1;
          Player.isAlive := Player.isAlive p1;
          Player.respawnTime := Player.respawnTime p1;
          Player.lastShot := Player.lastShot p1;
          Player.shootCooldown := Player.shootCooldown p1 |},
       {| Player.id := Player.id p2;
          Player.x := (Player.x p2 - Math.cos angle * overlap)%R;
          Player.y := (Player.y p2 - Math.sin angle * overlap)%R;
          Player.vx := (Player.vx p2 + ax)%R;
          Player.vy := (Player.vy p2 + ay)%R;
          Player.angle := Player.angle p2;
          Player.targetAngle := Player.targetAngle p2;
          Player.hp := Player.hp p2; Player.score := Player.score p2;
          Player.name := Player.name p2;
          Player.isAlive := Player.isAlive p2;
          Player.respawnTime := Player.respawnTime p2;
          Player.lastShot := Player.lastShot p2;
          Player.shootCooldown := Player.shootCooldown p2 |})
    else (p1, p2)
  else (p1, p2).

(** One round of the inner loop, on the array. *)
Definition collide (i j : nat) (playerArray : list Player.t)
    : list Player.t :=
  match playerArray !! i, playerArray !! j with
  | Some p1, Some p2 =>
      let '(p1', p2') := collidePair p1 p2 in
      <[j := p2']> (<[i := p1']> playerArray)
  | _, _ => playerArray
  end.

(** [for (i = 0; i < n; i++) for (j = i + 1; j < n; j++) ..] *)
Definition tankCollisions (playerArray : list Player.t) : list Player.t :=
  let n := length playerArray in
  fold_left
    (fun arr i =>
       fold_left (fun arr' j => collide i j arr')
         (seq (i + 1) (n - (i + 1))) arr)
    (seq 0 n) playerArray.

(** The last loop of [gameLoop]: bullets older than the lifetime are
    spliced out. *)
Definition sweep (nowTime0 : Z) (bs : list Bullet.t) : list Bullet.t :=
  filter (fun b => ~ (nowTime0 - Bullet.createdAt b > BULLET_LIFETIME)%Z) bs.

(** [gameLoop()]: the broadcast [state] and the world it leaves. *)
Definition gameLoop (rd : Readings) (w : World) : State * World :=
  let deltaTime := (IZR (now rd - lastUpdate w) / 1000)%R in
  let ps1 :=
    imap (fun k player =>
            Player.update deltaTime (updateNow rd k)
              (updateRandom rd k).1 (updateRandom rd k).2 player)
      (players w) in
  let '(bs2, ps2) := bulletLoop deltaTime rd 0 (bullets w) ps1 in
  let ps3 := tankCollisions ps2 in
  let state :=
    {| s_players := map (fun p => (Player.id p, Player.toJSON p)) ps3;
       s_bullets := map Bullet.toJSON bs2;
       s_timestamp := timestamp rd |} in
  (state,
   {| players := ps3; bullets := sweep (nowTime rd) bs2;
      lastRepairTime := lastRepairTime w; lastUpdate := now rd |}).
End GameLoop.

(** ** Method calls on the objects of the registry

    [this] is the position of the receiver in [players]; a call on a
    position that holds no object does nothing. *)

Inductive Call : Type :=
  | CallUpdate (this : nat) (deltaTime : R) (now0 : Z) (r1 r2 : R)
  | CallApplyInput (this : nat) (input : Input)
  | CallShoot (this : nat) (now0 now2 : Z)
  | CallTakeDamage (this : nat) (damage : Z) (attackerId : string) (now0 : Z)
  | CallRespawn (this : nat) (r1 r2 : R)
  | CallRepair (this : nat) (now0 : Z).

Definition call (c : Call) (w : World) : World :=
  match c with
  | CallUpdate this deltaTime now0 r1 r2 =>
      set_players (alter (Player.update deltaTime now0 r1 r2) this (players w)) w
  | CallApplyInput this input =>
      set_players (alter (Player.applyInput input) this (players w)) w
  | CallShoot this now0 now2 =>
      set_players (alter (fun p => (Player.shoot now0 now2 p).2) this (players w)) w
  | CallTakeDamage this damage attackerId now0 =>
      set_players (Player.takeDamage damage attackerId now0 this (players w)).2 w
  | CallRespawn this r1 r2 =>
      set_players (alter (Player.respawn r1 r2) this (players w)) w
  | CallRepair this now0 =>
      match players w !! this with
      | Some p =>
          let '(_, p1, lrt) := Player.repair now0 p (lastRepairTime w) in
          {| players := <[this := p1]> (players w); bullets := bullets w;
             lastRepairTime := lrt; lastUpdate := lastUpdate w |}
      | None => w
      end
  end.

(** ** Runs of the server

    A run is a list of steps: method calls on the objects of the
    registry and runs of [gameLoop]. *)

Import GAME_CONFIG.

Inductive Step : Type :=
  | StepCall (c : Call)
  | StepGameLoop (rd : Readings).

Definition step (s : Step) (w : World) : World :=
  match s with
  | StepCall c => call c w
  | StepGameLoop rd => (gameLoop rd w).2
  end.

Definition run (ss : list Step) (w : World) : World :=
  fold_left (fun w' s => step s w') ss w.

(** Every clock reading of the run of [gameLoop] is [t]. *)
Definition steady (t : Z) : Readings :=
  {| now := t; updateNow := fun _ => t;
     updateRandom := fun _ => (0.5%R, 0.5%R);
     bulletNow := fun _ => t; dieNow := fun _ => t;
     timestamp := t; nowTime := t |}.

(** ** The words of the specification *)

(** The health invariant of a tank. *)
Definition tank_ok (p : Player.t) : Prop :=
  (0 <= Player.hp p <= MAX_HEALTH)%Z /\
  (Player.hp p = 0%Z <-> Player.isAlive p = false).

(** The step is not a [takeDamage] with a negative amount. *)
Definition damage_nonneg (s : Step) : Prop :=
  match s with
  | StepCall (CallTakeDamage _ damage _ _) => (0 <= damage)%Z
  | _ => True
  end.

(** [q] is [p0] but for kills credited to it. *)
Definition frozen (p0 q : Player.t) : Prop :=
  exists n : Z, q = Player.add_score n p0.

(** The registry holds [p0], but for kills credited to it, at
    [this]. *)
Definition kept (p0 : Player.t) (this : nat) (ps : list Player.t) : Prop :=
  exists q, ps !! this = Some q /\ frozen p0 q.

(** Steps that do not end the death of the tank at [this] before
    [rt]: its [update] reads a clock that is not past [rt], and nobody
    calls its [respawn] directly (the server only does so from
    [update]). *)
Definition quiet (this : nat) (rt : Z) (s : Step) : Prop :=
  match s with
  | StepCall (CallUpdate i _ now0 _ _) => i = this -> (now0 <= rt)%Z
  | StepCall (CallRespawn i _ _) => i <> this
  | StepGameLoop rd => (updateNow rd this <= rt)%Z
  | _ => True
  end.

(** The bullet is more than 50 outside the arena on some side. *)
Definition out_of_bounds (b : Bullet.t) : Prop :=
  (Bullet.x b < -50)%R \/ (Bullet.x b > ARENA_WIDTH + 50)%R \/
  (Bullet.y b < -50)%R \/ (Bullet.y b > ARENA_HEIGHT + 50)%R.

(** The tank is inside the arena by its radius. *)
Definition in_arena (p : Player.t) : Prop :=
  (TANK_RADIUS <= Player.x p <= ARENA_WIDTH - TANK_RADIUS)%R /\
  (TANK_RADIUS <= Player.y p <= ARENA_HEIGHT - TANK_RADIUS)%R.

(** An alive tank inside the arena that neither moves nor turns. *)
Definition resting (p : Player.t) : Prop :=
  Player.isAlive p = true /\
  Player.vx p = 0%R /\ Player.vy p = 0%R /\
  Player.targetAngle p = Player.angle p /\
  in_arena p.

(** The centre distance the tank-to-tank test computes. *)
Definition centre_distance (p1 p2 : Player.t) : R :=
  Math.sqrt ((Player.x p1 - Player.x p2) * (Player.x p1 - Player.x p2) +
             (Player.y p1 - Player.y p2) * (Player.y p1 - Player.y p2))%R.

(** Both tanks are alive and closer than two radii. *)
Definition overlapping (p1 p2 : Player.t) : Prop :=
  Player.isAlive p1 = true /\ Player.isAlive p2 = true /\
  (centre_distance p1 p2 < 2 * TANK_RADIUS)%R.

(** The pairs [(i, j)] in the order of the two nested loops of the
    tank-to-tank test. *)
Definition pairs (n : nat) : list (nat * nat) :=
  seq 0 n ≫= fun i => (fun j => (i, j)) <$> seq (i + 1) (n - (i + 1)).

(** The tank-to-tank test run over a given list of pairs. *)
Definition collideAll (order : list (nat * nat)) (playerArray : list Player.t)
    : list Player.t :=
  fold_left (fun arr ij => collide ij.1 ij.2 arr) order playerArray.

(** ** The socket handlers

    [io.on("connection", ..)] and the handlers it installs for one
    socket, as functions of the socket's id, the message and the
    world.  What they emit is left out. *)

(** [players[player.id] = player]: a key that is present keeps its
    place, a new one goes last. *)
Definition set_player (player : Player.t) (ps : list Player.t) : list Player.t :=
  match Player.lookup_id (Player.id player) ps with
  | Some i => <[i := player]> ps
  | None => ps ++ [player]
  end.

(** [delete players[key]] *)
Definition delete_player (key : string) (ps : list Player.t) : list Player.t :=
  match Player.lookup_id key ps with
  | Some i => delete i ps
  | None => ps
  end.

(** The body of the connection callback up to the [init] message;
    [r1] and [r2] are the two values of [Math.random()]. *)
Definition on_connection (socketId : string) (r1 r2 : R) (w : World) : World :=
  let spawnX := (r1 * (ARENA_WIDTH - 200) + 100)%R in
  let spawnY := (r2 * (ARENA_HEIGHT - 200) + 100)%R in
  set_players (set_player (Player.new socketId spawnX spawnY) (players w)) w.

(** [socket.on("move", ..)] for a payload that is an object;
    [on_move_payload] below has the message with no payload. *)
Definition on_move (socketId : string) (data : Input) (w : World) : World :=
  match list_find (fun q => Player.id q = socketId) (players w) with
  | Some (i, player) =>
      set_players (<[i := Player.applyInput data player]> (players w)) w
  | None => w
  end.

(** [socket.on("shoot", ..)]; [now0] and [now2] are read by [shoot],
    [now3] by the constructor of [Bullet]. *)
Definition on_shoot (socketId : string) (now0 now2 now3 : Z) (w : World)
    : World :=
  match list_find (fun q => Player.id q = socketId) (players w) with
  | Some (i, player) =>
      match Player.shoot now0 now2 player with
      | (Some bulletData, player1) =>
          {| players := <[i := player1]> (players w);
             bullets := bullets w ++ [Bullet.new bulletData now3];
             lastRepairTime := lastRepairTime w;
             lastUpdate := lastUpdate w |}
      | (None, player1) => set_players (<[i := player1]> (players w)) w
      end
  | None => w
  end.

(** [socket.on("repair", ..)] *)
Definition on_repair (socketId : string) (now0 : Z) (w : World) : World :=
  match list_find (fun q => Player.id q = socketId) (players w) with
  | Some (i, player) =>
      let '(_, player1, lrt) := Player.repair now0 player (lastRepairTime w) in
      {| players := <[i := player1]> (players w); bullets := bullets w;
         lastRepairTime := lrt; lastUpdate := lastUpdate w |}
  | None => w
  end.

(** [socket.on("disconnect", ..)] *)
Definition on_disconnect (socketId : string) (w : World) : World :=
  {| players := delete_player socketId (players w); bullets := bullets w;
     lastRepairTime := delete socketId (lastRepairTime w);
     lastUpdate := lastUpdate w |}.

(** What happens to the server: a message on a socket, or the timer
    of [setInterval] running [gameLoop]. *)
Inductive Message : Type :=
  | MsgConnection (socketId : string) (r1 r2 : R)
  | MsgMove (socketId : string) (data : Input)
  | MsgShoot (socketId : string) (now0 now2 now3 : Z)
  | MsgRepair (socketId : string) (now0 : Z)
  | MsgDisconnect (socketId : string)
  | MsgTimer (rd : Readings).

Definition handle (m : Message) (w : World) : World :=
  match m with
  | MsgConnection socketId r1 r2 => on_connection socketId r1 r2 w
  | MsgMove socketId data => on_move socketId data w
  | MsgShoot socketId now0 now2 now3 => on_shoot socketId now0 now2 now3 w
  | MsgRepair socketId now0 => on_repair socketId now0 w
  | MsgDisconnect socketId => on_disconnect socketId w
  | MsgTimer rd => (gameLoop rd w).2
  end.

Definition serve (ms : list Message) (w : World) : World :=
  fold_left (fun w' m => handle m w') ms w.

(** The world when the module has loaded: [players = {}],
    [bullets = []], [lastRepairTime = {}], [lastUpdate = Date.now()]. *)
Definition start (now0 : Z) : World :=
  {| players := []; bullets := []; lastRepairTime := ∅; lastUpdate := now0 |}.

(** A world the server can be in. *)
Definition reachable (w : World) : Prop :=
  exists (now0 : Z) (ms : list Message), w = serve ms (start now0).

(** The keys of the registry [players], in its order. *)
Definition ids (ps : list Player.t) : list string := Player.id <$> ps.

(** The random values are ones [Math.random()] can return. *)
Definition unit_range (r : R) : Prop := (0 <= r < 1)%R.

(** The speed of a bullet. *)
Definition bullet_speed (b : Bullet.t) : R :=
  Math.sqrt (Bullet.vx b * Bullet.vx b + Bullet.vy b * Bullet.vy b)%R.

(** ** A move with no payload

    The payload of a [move] is whatever the client sent: the handler
    hands it to [applyInput] unchecked.  Of the expressions in the
    methods of [Player] only a property read can throw, and only when
    what is read from is [undefined] or [null]; [this], [GAME_CONFIG],
    [players] and [lastRepairTime] are always objects, so the one
    value that can be either is [input].  A payload here is nothing
    ([undefined]), [null], or an object with numbers under [dx] and
    [dy]; other payloads give [NaN] velocities and are outside these
    numbers. *)

Inductive JsError : Type :=
  | TypeError.

Inductive Outcome (A : Type) : Type :=
  | Returns (a : A)
  | Throws (e : JsError).

Arguments Returns {A} a.
Arguments Throws {A} e.

Inductive Payload : Type :=
  | PUndefined
  | PNull
  | PObject (input : Input).

(** [applyInput(input)] on such a payload: a dead tank returns before
    it reads [input]; an alive one reads [input.boost] first. *)
Definition applyInput_payload (data : Payload) (this : Player.t)
    : Outcome Player.t :=
  if negb (Player.isAlive this) then Returns this
  else
    match data with
    | PObject input => Returns (Player.applyInput input this)
    | PUndefined | PNull => Throws TypeError
    end.

(** [socket.on("move", ..)] on such a payload; the handler catches
    nothing. *)
Definition on_move_payload (socketId : string) (data : Payload) (w : World)
    : Outcome World :=
  match list_find (fun q => Player.id q = socketId) (players w) with
  | Some (i, player) =>
      match applyInput_payload data player with
      | Returns player1 =>
          Returns (set_players (<[i := player1]> (players w)) w)
      | Throws e => Throws e
      end
  | None => Returns w
  end.

(** ** The words of the further properties *)

(** One tank before and after a run of [gameLoop]: who it is stays,
    its score does not go down. *)
Definition evolves (p q : Player.t) : Prop :=
  Player.id q = Player.id p /\ Player.name q = Player.name p /\
  Player.shootCooldown q = Player.shootCooldown p /\
  Player.lastShot q = Player.lastShot p /\
  (Player.score p <= Player.score q)%Z.

(** What holds of the registries in every world the server reaches:
    no two tanks share an id, and a recorded repair time belongs to a
    tank that is there. *)
Definition registry_ok (w : World) : Prop :=
  NoDup (ids (players w)) /\
  forall key : string,
    is_Some (lastRepairTime w !! key) -> key ∈ ids (players w).

(** What holds of every tank the server makes. *)
Definition tank_made (p : Player.t) : Prop :=
  tank_ok p /\ Player.shootCooldown p = 300%Z /\
  Player.name p = String.append "Player_" (String.substring 0 4 (Player.id p)).

(** One tank before and after a bullet has been handled: it is the
    same tank at the same place, and it has not come back to life. *)
Definition fades (p q : Player.t) : Prop :=
  Player.id q = Player.id p /\ Player.x q = Player.x p /\
  Player.y q = Player.y p /\
  (Player.isAlive q = true -> Player.isAlive p = true).

(** The hit points of all tanks together. *)
Definition total_hp (ps : list Player.t) : Z :=
  foldr (fun p acc => (Player.hp p + acc)%Z) 0%Z ps.


(** [update] called once for each frame time of [deltaTimes], in
    order, on a tank. *)
Definition updates (deltaTimes : list R) (now : Z) (r1 r2 : R)
    (p : Player.t) : Player.t :=
  fold_left (fun q deltaTime => Player.update deltaTime now r1 r2 q)
    deltaTimes p.

(** How far the heading is from the target, the shorter way round. *)
Definition heading_error (p : Player.t) : R :=
  Player.shortestDiff (Player.targetAngle p - Player.angle p).

(** The velocity of a bullet is [BULLET_SPEED] along its [angle]. *)
Definition bullet_aimed (b : Bullet.t) : Prop :=
  Bullet.vx b = (Math.cos (Bullet.angle b) * BULLET_SPEED)%R /\
  Bullet.vy b = (Math.sin (Bullet.angle b) * BULLET_SPEED)%R.

(** The socket a client message comes from; [None] for what no
    client sends on a socket it holds. *)
Definition sender (m : Message) : option string :=
  match m with
  | MsgMove socketId _ => Some socketId
  | MsgShoot socketId _ _ _ => Some socketId
  | MsgRepair socketId _ => Some socketId
  | _ => None
  end.

(** * Properties *)

(** ** Facts about [Math] *)

Lemma atan2_scale (y0 x0 s : R) :
  (0 < s)%R -> Math.atan2 (y0 * s) (x0 * s) = Math.atan2 y0 x0.
Proof.
  intros Hs. unfold Math.atan2.
  assert (Hdiv : x0 <> 0%R -> (y0 * s / (x0 * s) = y0 / x0)%R)
    by (intros Hx; field; split; lra).
  repeat (destruct (decide _)); try rewrite Hdiv by lra; try reflexivity;
    exfalso; nra.
Qed.

(** ** [applyInput] *)

Lemma or_1_JNum (m : R) : m <> 0%R -> or_1 (JNum m) = m.
Proof.
  intros Hm. unfold or_1, truthy.
  destruct (decide (m = 0%R)); [contradiction | reflexivity].
Qed.

Lemma applyInput_dead (input : Input) (this : Player.t) :
  Player.isAlive this = false -> Player.applyInput input this = this.
Proof. intros H. unfold Player.applyInput. rewrite H. reflexivity. Qed.

Lemma applyInput_zero (input : Input) (this : Player.t) :
  dx input = 0%R -> dy input = 0%R -> Player.applyInput input this = this.
Proof.
  intros Hx Hy. unfold Player.applyInput.
  destruct (negb (Player.isAlive this)); [reflexivity|].
  destruct (decide _) as [[H|H]|_]; [contradiction.. | reflexivity].
Qed.

Lemma applyInput_moving (input : Input) (this : Player.t) :
  Player.isAlive this = true ->
  (dx input <> 0%R \/ dy input <> 0%R) ->
  let speed := (TANK_SPEED * or_1 (boost input))%R in
  Player.applyInput input this =
  {| Player.id := Player.id this;
     Player.x := Player.x this; Player.y := Player.y this;
     Player.vx := (dx input * speed)%R; Player.vy := (dy input * speed)%R;
     Player.angle := Player.angle this;
     Player.targetAngle := Math.atan2 (dy input * speed) (dx input * speed);
     Player.hp := Player.hp this; Player.score := Player.score this;
     Player.name := Player.name this; Player.isAlive := Player.isAlive this;
     Player.respawnTime := Player.respawnTime this;
     Player.lastShot := Player.lastShot this;
     Player.shootCooldown := Player.shootCooldown this |}.
Proof.
  intros Ha Hd. unfold Player.applyInput. rewrite Ha. simpl.
  destruct (decide _) as [_|Hn]; [reflexivity | contradiction].
Qed.

(** C1, as the code has it.  For an alive tank and a move whose
    direction [(dx, dy)] is not zero, [applyInput] sets the velocity to
    the direction times [TANK_SPEED] times [m], where [m] is the value
    of the move's [boost] field when that is truthy (a number is the
    factor itself, [true] counts as [1]) and [1] otherwise; the target
    heading becomes the angle of the new velocity, which is the angle of
    the direction when [m] is positive.  Sending
    [TANK_BOOST_MULTIPLIER] as [boost] gives the boosted speed.  A dead
    tank ignores the move, and a zero direction changes nothing. *)
Theorem applyInput_spec (input : Input) (this : Player.t) :
  (Player.isAlive this = true ->
   (dx input <> 0%R \/ dy input <> 0%R) ->
   let m := or_1 (boost input) in
   let this' := Player.applyInput input this in
   Player.vx this' = (dx input * (TANK_SPEED * m))%R /\
   Player.vy this' = (dy input * (TANK_SPEED * m))%R /\
   Player.targetAngle this' = Math.atan2 (Player.vy this') (Player.vx this') /\
   ((0 < m)%R -> Player.targetAngle this' = Math.atan2 (dy input) (dx input)) /\
   (boost input = JNum TANK_BOOST_MULTIPLIER -> m = TANK_BOOST_MULTIPLIER) /\
   (truthy (boost input) = false -> m = 1%R) /\
   (boost input = JBool true -> m = 1%R) /\
   Player.x this' = Player.x this /\ Player.y this' = Player.y this /\
   Player.angle this' = Player.angle this /\
   Player.hp this' = Player.hp this /\
   Player.isAlive this' = true) /\
  (Player.isAlive this = false -> Player.applyInput input this = this) /\
  (dx input = 0%R -> dy input = 0%R -> Player.applyInput input this = this).
Proof.
  split; [|split].
  - intros Ha Hd m this'. subst this'.
    rewrite (applyInput_moving input this Ha Hd). simpl. fold m.
    repeat split; try reflexivity; try assumption.
    + intros Hm. apply atan2_scale.
      apply Rmult_lt_0_compat; [unfold TANK_SPEED; lra | exact Hm].
    + intros Hb. subst m. rewrite Hb. apply or_1_JNum.
      unfold TANK_BOOST_MULTIPLIER. lra.
    + intros Hf. subst m. unfold or_1. rewrite Hf. reflexivity.
    + intros Hb. subst m. rewrite Hb. reflexivity.
  - apply applyInput_dead.
  - apply applyInput_zero.
Qed.

(** The boosted move of a fresh tank: [boost] carries the multiplier. *)
Lemma applyInput_spec_witness :
  let this := Player.new "tank" 100 100 in
  let input := {| dx := 1; dy := 0; boost := JNum TANK_BOOST_MULTIPLIER |} in
  Player.vx (Player.applyInput input this) = (1 * (TANK_SPEED * TANK_BOOST_MULTIPLIER))%R.
Proof.
  intros this input.
  destruct (applyInput_spec input this) as [Hmove _].
  assert (Ha : Player.isAlive this = true) by reflexivity.
  assert (Hd : dx input <> 0%R \/ dy input <> 0%R) by (left; simpl; lra).
  destruct (Hmove Ha Hd) as (Hvx & _ & _ & _ & Hm & _).
  rewrite Hvx, (Hm eq_refl). reflexivity.
Defined.

(** C1 as the specification words it fails: with the boost flag set,
    [boost: true], an alive tank moving along [(1, 0)] gets the
    velocity [30], not [30 * 1.8]. *)
Lemma applyInput_boost_flag_counterexample :
  let this := Player.new "tank" 100 100 in
  let input := {| dx := 1; dy := 0; boost := JBool true |} in
  Player.isAlive this = true /\
  (dx input <> 0%R \/ dy input <> 0%R) /\
  Player.vx (Player.applyInput input this) = 30%R /\
  Player.vx (Player.applyInput input this)
    <> (dx input * TANK_SPEED * TANK_BOOST_MULTIPLIER)%R.
Proof.
  intros this input.
  assert (Ha : Player.isAlive this = true) by reflexivity.
  assert (Hd : dx input <> 0%R \/ dy input <> 0%R) by (left; simpl; lra).
  rewrite (applyInput_moving input this Ha Hd). simpl.
  change (or_1 (JBool true)) with 1%R.
  unfold TANK_SPEED, TANK_BOOST_MULTIPLIER.
  repeat split; try assumption; lra.
Qed.

(** ** [shoot] *)

Lemma shoot_dead (now0 now2 : Z) (this : Player.t) :
  Player.isAlive this = false -> Player.shoot now0 now2 this = (None, this).
Proof. intros H. unfold Player.shoot. rewrite H. reflexivity. Qed.

Lemma shoot_cooling (now0 now2 : Z) (this : Player.t) :
  (now0 - Player.lastShot this < Player.shootCooldown this)%Z ->
  Player.shoot now0 now2 this = (None, this).
Proof.
  intros H. unfold Player.shoot.
  destruct (negb (Player.isAlive this)); [reflexivity|].
  rewrite bool_decide_eq_true_2 by exact H. reflexivity.
Qed.

Lemma shoot_ready (now0 now2 : Z) (this : Player.t) :
  Player.isAlive this = true ->
  (Player.shootCooldown this <= now0 - Player.lastShot this)%Z ->
  exists data this1,
    Player.shoot now0 now2 this = (Some data, this1) /\
    Player.lastShot this1 = now0 /\
    Player.shootCooldown this1 = Player.shootCooldown this /\
    Player.isAlive this1 = true /\
    Bullet.owner data = Player.id this /\
    Bullet.x data = (Player.x this + Math.cos (Player.angle this) * 25)%R /\
    Bullet.y data = (Player.y this + Math.sin (Player.angle this) * 25)%R /\
    Bullet.vx data = (Math.cos (Player.angle this) * BULLET_SPEED)%R /\
    Bullet.vy data = (Math.sin (Player.angle this) * BULLET_SPEED)%R.
Proof.
  intros Ha Hc. unfold Player.shoot. rewrite Ha. simpl.
  rewrite bool_decide_eq_false_2 by lia.
  eexists _, _. split; [reflexivity|]. simpl. repeat split.
Qed.

(** C6, as the code has it.  An alive tank whose cooldown has run out
    ([shootCooldown <= t1 - lastShot]) fires at [t1] and gets a
    projectile; a second call at [t2] gets none when [t2 - t1] is
    below [shootCooldown] and gets one when [t2 - t1] is above it.  A
    dead tank never gets one.  [shootCooldown] is 300 for every tank
    the constructor makes. *)
Theorem shoot_cooldown_enforced (this : Player.t) (t1 t1' t2 t2' : Z) :
  Player.isAlive this = true ->
  (Player.shootCooldown this <= t1 - Player.lastShot this)%Z ->
  is_Some (Player.shoot t1 t1' this).1 /\
  ((t2 - t1 < Player.shootCooldown this)%Z ->
   (Player.shoot t2 t2' (Player.shoot t1 t1' this).2).1 = None) /\
  ((t2 - t1 > Player.shootCooldown this)%Z ->
   is_Some (Player.shoot t2 t2' (Player.shoot t1 t1' this).2).1) /\
  (forall (dead : Player.t) (t t' : Z),
     Player.isAlive dead = false -> (Player.shoot t t' dead).1 = None) /\
  (forall (id0 : string) (x0 y0 : R),
     Player.shootCooldown (Player.new id0 x0 y0) = 300%Z).
Proof.
  intros Ha Hc.
  destruct (shoot_ready t1 t1' this Ha Hc)
    as (data & this1 & Hs & Hl & Hcd & Ha1 & _).
  rewrite Hs. simpl. repeat split.
  - eauto.
  - intros Hlt. rewrite shoot_cooling; [reflexivity|]. rewrite Hl, Hcd. exact Hlt.
  - intros Hgt.
    destruct (shoot_ready t2 t2' this1 Ha1) as (data2 & this2 & Hs2 & _).
    { rewrite Hl, Hcd. lia. }
    rewrite Hs2. simpl. eauto.
  - intros dead t t' Hd. rewrite shoot_dead by exact Hd. reflexivity.
Qed.

(** A fresh tank fires at 1000 ms and again 100 ms later. *)
Lemma shoot_cooldown_enforced_witness :
  is_Some (Player.shoot 1000 1000 (Player.new "tank" 100 100)).1 /\
  (Player.shoot 1100 1100
     (Player.shoot 1000 1000 (Player.new "tank" 100 100)).2).1 = None.
Proof.
  assert (Ha : Player.isAlive (Player.new "tank" 100 100) = true)
    by reflexivity.
  assert (Hc : (Player.shootCooldown (Player.new "tank" 100 100)
                <= 1000 - Player.lastShot (Player.new "tank" 100 100))%Z)
    by (simpl; lia).
  destruct (shoot_cooldown_enforced (Player.new "tank" 100 100)
              1000 1000 1100 1100 Ha Hc) as (H1 & H2 & _).
  split; [exact H1|]. apply H2. simpl. lia.
Defined.

(** C6 as the specification words it, for every alive tank, fails on a
    tank that is still cooling down at the first call: a tank that
    fired at 1000 ms is alive; of its calls at 1250 ms and 1350 ms,
    100 ms apart, the first gets no projectile and the second gets
    one.  Of its calls at 1100 ms and 1500 ms, more than the cooldown
    apart, the first gets none. *)
Lemma shoot_cooldown_counterexample :
  let this := (Player.shoot 1000 1000 (Player.new "tank" 100 100)).2 in
  Player.isAlive this = true /\
  (1350 - 1250 < Player.shootCooldown this)%Z /\
  (Player.shoot 1250 1250 this).1 = None /\
  is_Some (Player.shoot 1350 1350 (Player.shoot 1250 1250 this).2).1 /\
  (1500 - 1100 > Player.shootCooldown this)%Z /\
  (Player.shoot 1100 1100 this).1 = None.
Proof.
  intros this. split; [reflexivity|]. split; [simpl; lia|].
  split; [reflexivity|]. split; [|split; [simpl; lia | reflexivity]].
  simpl. eexists. reflexivity.
Qed.

(** ** [takeDamage] *)

Lemma takeDamage_dead (damage : Z) (attackerId : string) (now0 : Z)
    (this : nat) (ps : list Player.t) (p : Player.t) :
  ps !! this = Some p -> Player.isAlive p = false ->
  Player.takeDamage damage attackerId now0 this ps = (false, ps).
Proof. intros Hp Hd. unfold Player.takeDamage. rewrite Hp, Hd. reflexivity. Qed.

Lemma takeDamage_survive (damage : Z) (attackerId : string) (now0 : Z)
    (this : nat) (ps : list Player.t) (p : Player.t) :
  ps !! this = Some p -> Player.isAlive p = true ->
  (Player.hp p > damage)%Z ->
  Player.takeDamage damage attackerId now0 this ps
  = (false, <[this := Player.set_hp (Player.hp p - damage) p]> ps).
Proof.
  intros Hp Ha Hh. unfold Player.takeDamage. rewrite Hp, Ha. simpl.
  rewrite bool_decide_eq_false_2 by lia. reflexivity.
Qed.

Lemma takeDamage_kill (damage : Z) (attackerId : string) (now0 : Z)
    (this : nat) (ps : list Player.t) (p : Player.t) :
  ps !! this = Some p -> Player.isAlive p = true ->
  (Player.hp p <= damage)%Z ->
  Player.takeDamage damage attackerId now0 this ps
  = (true,
     Player.credit_kill attackerId
       (<[this := Player.die now0 (Player.set_hp (Player.hp p - damage) p)]> ps)).
Proof.
  intros Hp Ha Hh. unfold Player.takeDamage. rewrite Hp, Ha. simpl.
  rewrite bool_decide_eq_true_2 by lia. reflexivity.
Qed.

(** C10.  When an alive tank takes less damage than it has hit points,
    [takeDamage] returns [false] and the registry afterwards differs
    from the one before only in that tank's [hp], which is lower by
    exactly [damage]: its other fields, every other tank, and so every
    score, are as before. *)
Theorem takeDamage_frame (damage : Z) (attackerId : string) (now0 : Z)
    (this : nat) (ps : list Player.t) (p : Player.t) :
  ps !! this = Some p -> Player.isAlive p = true ->
  (Player.hp p > damage)%Z ->
  exists p',
    Player.takeDamage damage attackerId now0 this ps
      = (false, <[this := p']> ps) /\
    (<[this := p']> ps) !! this = Some p' /\
    (forall k, k <> this -> (<[this := p']> ps) !! k = ps !! k) /\
    Player.hp p' = (Player.hp p - damage)%Z /\
    Player.id p' = Player.id p /\
    Player.x p' = Player.x p /\ Player.y p' = Player.y p /\
    Player.vx p' = Player.vx p /\ Player.vy p' = Player.vy p /\
    Player.angle p' = Player.angle p /\
    Player.targetAngle p' = Player.targetAngle p /\
    Player.score p' = Player.score p /\
    Player.name p' = Player.name p /\
    Player.isAlive p' = Player.isAlive p /\
    Player.respawnTime p' = Player.respawnTime p /\
    Player.lastShot p' = Player.lastShot p /\
    Player.shootCooldown p' = Player.shootCooldown p.
Proof.
  intros Hp Ha Hh. exists (Player.set_hp (Player.hp p - damage) p).
  split; [apply (takeDamage_survive _ _ _ _ _ _ Hp Ha Hh)|].
  split; [apply list_lookup_insert_eq; eapply lookup_lt_Some; exact Hp|].
  split; [intros k Hk; apply list_lookup_insert_ne; congruence|].
  simpl. repeat split.
Qed.

(** A fresh tank hit by one bullet. *)
Lemma takeDamage_frame_witness :
  exists p',
    Player.takeDamage BULLET_DAMAGE "foe" 5000 0
      [Player.new "tank" 100 100; Player.new "foe" 300 300]
    = (false, <[0%nat := p']> [Player.new "tank" 100 100; Player.new "foe" 300 300]) /\
    Player.hp p' = 75%Z /\ Player.score p' = 0%Z.
Proof.
  destruct (takeDamage_frame BULLET_DAMAGE "foe" 5000 0
              [Player.new "tank" 100 100; Player.new "foe" 300 300]
              (Player.new "tank" 100 100))
    as (p' & H1 & _ & _ & H2 & H3);
    [reflexivity | reflexivity | simpl; unfold MAX_HEALTH, BULLET_DAMAGE; lia |].
  exists p'. split; [exact H1|]. split; [exact H2|].
  destruct H3 as (_ & _ & _ & _ & _ & _ & _ & Hs & _). exact Hs.
Defined.

(** ** [repair] *)

Lemma repair_dead (now0 : Z) (this : Player.t) (lrt : gmap string Z) :
  Player.isAlive this = false ->
  Player.repair now0 this lrt = (false, this, lrt).
Proof. intros H. unfold Player.repair. rewrite H. reflexivity. Qed.

Lemma repair_cooling (now0 last : Z) (this : Player.t) (lrt : gmap string Z) :
  lrt !! Player.id this = Some last -> last <> 0%Z ->
  (now0 - last < REPAIR_COOLDOWN)%Z ->
  Player.repair now0 this lrt = (false, this, lrt).
Proof.
  intros Hl Hz Hc. unfold Player.repair.
  destruct (negb (Player.isAlive this)); [reflexivity|].
  rewrite Hl. rewrite bool_decide_eq_false_2 by exact Hz.
  rewrite bool_decide_eq_true_2 by exact Hc. reflexivity.
Qed.

Lemma repair_granted (now0 : Z) (this : Player.t) (lrt : gmap string Z) :
  Player.isAlive this = true ->
  (forall last, lrt !! Player.id this = Some last ->
     last = 0%Z \/ (REPAIR_COOLDOWN <= now0 - last)%Z) ->
  Player.repair now0 this lrt
  = (true,
     Player.set_hp (Z.min MAX_HEALTH (Player.hp this + REPAIR_AMOUNT)) this,
     <[Player.id this := now0]> lrt).
Proof.
  intros Ha Hl. unfold Player.repair. rewrite Ha. simpl.
  destruct (lrt !! Player.id this) as [last|] eqn:E; [|reflexivity].
  destruct (Hl last eq_refl) as [H0|Hc].
  - rewrite bool_decide_eq_true_2 by exact H0. reflexivity.
  - rewrite (bool_decide_eq_false_2 (now0 - last < _)%Z) by lia.
    rewrite andb_false_r. reflexivity.
Qed.




(** ** The health invariant *)

Lemma tank_ok_new (id0 : string) (x0 y0 : R) : tank_ok (Player.new id0 x0 y0).
Proof. unfold tank_ok, MAX_HEALTH. simpl. unfold MAX_HEALTH. split; [lia|]. split; discriminate. Qed.

Lemma tank_ok_respawn (r1 r2 : R) (p : Player.t) : tank_ok (Player.respawn r1 r2 p).
Proof. unfold tank_ok. simpl. unfold MAX_HEALTH. split; [lia|]. split; discriminate. Qed.

Lemma tank_ok_die (now0 : Z) (p : Player.t) : tank_ok (Player.die now0 p).
Proof. unfold tank_ok. simpl. unfold MAX_HEALTH. split; [lia|]. split; reflexivity. Qed.

Lemma tank_ok_update (deltaTime : R) (now0 : Z) (r1 r2 : R) (p : Player.t) :
  tank_ok p -> tank_ok (Player.update deltaTime now0 r1 r2 p).
Proof.
  intros H. unfold Player.update.
  destruct (negb (Player.isAlive p)).
  - destruct (bool_decide _); [apply tank_ok_respawn | exact H].
  - exact H.
Qed.

Lemma tank_ok_applyInput (input : Input) (p : Player.t) :
  tank_ok p -> tank_ok (Player.applyInput input p).
Proof.
  intros H. unfold Player.applyInput.
  destruct (negb (Player.isAlive p)); [exact H|].
  destruct (decide _); exact H.
Qed.

Lemma tank_ok_shoot (now0 now2 : Z) (p : Player.t) :
  tank_ok p -> tank_ok (Player.shoot now0 now2 p).2.
Proof.
  intros H. unfold Player.shoot.
  destruct (negb (Player.isAlive p)); [exact H|].
  destruct (bool_decide _); exact H.
Qed.

Lemma tank_ok_repair (now0 : Z) (p : Player.t) (lrt : gmap string Z) :
  tank_ok p -> tank_ok (Player.repair now0 p lrt).1.2.
Proof.
  intros H. unfold Player.repair.
  destruct (Player.isAlive p) eqn:Ha; simpl; [|exact H].
  match goal with |- context [if ?b then _ else _] => destruct b end;
    simpl; [exact H|].
  destruct H as [Hr Hi]. unfold tank_ok. simpl. rewrite Ha.
  unfold MAX_HEALTH, REPAIR_AMOUNT in *.
  assert (Player.hp p <> 0%Z) by (intros E; apply Hi in E; congruence).
  split; [lia|]. split; [lia | discriminate].
Qed.

Lemma Forall_credit_kill (attackerId : string) (ps : list Player.t) :
  Forall tank_ok ps -> Forall tank_ok (Player.credit_kill attackerId ps).
Proof.
  intros H. unfold Player.credit_kill.
  destruct (Player.lookup_id attackerId ps); [|exact H].
  apply Forall_alter; [exact H|]. intros p _ Hp. exact Hp.
Qed.

Lemma Forall_takeDamage (damage : Z) (attackerId : string) (now0 : Z)
    (this : nat) (ps : list Player.t) :
  (0 <= damage)%Z -> Forall tank_ok ps ->
  Forall tank_ok (Player.takeDamage damage attackerId now0 this ps).2.
Proof.
  intros Hd H. unfold Player.takeDamage.
  destruct (ps !! this) as [p|] eqn:Hp; [|exact H].
  destruct (Player.isAlive p) eqn:Ha; simpl; [|exact H].
  pose proof (Forall_lookup_1 _ _ _ _ H Hp) as [Hr Hi].
  destruct (bool_decide _) eqn:Hb; simpl.
  - apply Forall_credit_kill, Forall_insert; [exact H | apply tank_ok_die].
  - apply bool_decide_eq_false_1 in Hb. simpl in Hb.
    apply Forall_insert; [exact H|].
    unfold tank_ok. simpl. rewrite Ha.
    split; [lia|]. split; [lia | discriminate].
Qed.

Lemma fold_left_preserves {A B : Type} (P : A -> Prop) (f : A -> B -> A)
    (l : list B) (a : A) :
  P a -> (forall a' b, P a' -> P (f a' b)) -> P (fold_left f l a).
Proof.
  intros Ha Hf. revert a Ha.
  induction l as [|b l IH]; intros a Ha; simpl; [exact Ha|].
  apply IH, Hf, Ha.
Qed.

Lemma collidePair_status (p1 p2 : Player.t) :
  Player.hp (collidePair p1 p2).1 = Player.hp p1 /\
  Player.isAlive (collidePair p1 p2).1 = Player.isAlive p1 /\
  Player.hp (collidePair p1 p2).2 = Player.hp p2 /\
  Player.isAlive (collidePair p1 p2).2 = Player.isAlive p2.
Proof.
  unfold collidePair.
  destruct (Player.isAlive p1 && Player.isAlive p2); [|repeat split].
  destruct (decide _); repeat split.
Qed.

Lemma collidePair_dead (p1 p2 : Player.t) :
  Player.isAlive p1 = false \/ Player.isAlive p2 = false ->
  collidePair p1 p2 = (p1, p2).
Proof.
  intros [H|H]; unfold collidePair; rewrite H;
    [|rewrite andb_false_r]; reflexivity.
Qed.

Lemma Forall_collide (i j : nat) (ps : list Player.t) :
  Forall tank_ok ps -> Forall tank_ok (collide i j ps).
Proof.
  intros H. unfold collide.
  destruct (ps !! i) as [p1|] eqn:H1; [|exact H].
  destruct (ps !! j) as [p2|] eqn:H2; [|exact H].
  pose proof (collidePair_status p1 p2) as (Hh1 & Ha1 & Hh2 & Ha2).
  destruct (collidePair p1 p2) as [q1 q2]. simpl in *.
  pose proof (Forall_lookup_1 _ _ _ _ H H1) as Hp1.
  pose proof (Forall_lookup_1 _ _ _ _ H H2) as Hp2.
  repeat apply Forall_insert; [exact H | |];
    unfold tank_ok in *; congruence.
Qed.

Lemma Forall_tankCollisions (ps : list Player.t) :
  Forall tank_ok ps -> Forall tank_ok (tankCollisions ps).
Proof.
  intros H. unfold tankCollisions.
  apply fold_left_preserves; [exact H|]. intros arr i Harr.
  apply fold_left_preserves; [exact Harr|]. intros arr' j Harr'.
  apply Forall_collide, Harr'.
Qed.

Lemma Forall_bulletLoop (deltaTime : R) (rd : Readings) (bs : list Bullet.t) :
  forall (i : nat) (ps : list Player.t),
    Forall tank_ok ps -> Forall tank_ok (bulletLoop deltaTime rd i bs ps).2.
Proof.
  induction bs as [|bullet rest IH]; intros i ps H; simpl; [exact H|].
  specialize (IH (S i) ps H).
  destruct (bulletLoop deltaTime rd (S i) rest ps) as [rest1 ps1].
  destruct (Bullet.update deltaTime (bulletNow rd i) bullet) as [bullet1 keep].
  simpl in IH. destruct keep; simpl; [|exact IH].
  destruct (list_find (hits bullet1) ps1) as [[k q]|]; [|exact IH].
  pose proof (Forall_takeDamage BULLET_DAMAGE (Bullet.owner bullet1)
                (dieNow rd i) k ps1) as Ht.
  destruct (Player.takeDamage _ _ _ k ps1) as [died ps2]. simpl in *.
  apply Ht; [unfold BULLET_DAMAGE; lia | exact IH].
Qed.

Lemma Forall_gameLoop (rd : Readings) (w : World) :
  Forall tank_ok (players w) -> Forall tank_ok (players (gameLoop rd w).2).
Proof.
  intros H. unfold gameLoop.
  set (deltaTime := (IZR (now rd - lastUpdate w) / 1000)%R).
  set (ps1 := imap _ (players w)).
  assert (H1 : Forall tank_ok ps1).
  { apply Forall_lookup_2. intros k q Hq. subst ps1.
    rewrite list_lookup_imap in Hq.
    destruct (players w !! k) as [p|] eqn:Hp; [|discriminate].
    simpl in Hq. injection Hq as <-.
    apply tank_ok_update, (Forall_lookup_1 _ _ _ _ H Hp). }
  pose proof (Forall_bulletLoop deltaTime rd (bullets w) 0 ps1 H1) as H2.
  destruct (bulletLoop deltaTime rd 0 (bullets w) ps1) as [bs2 ps2].
  simpl in *. apply Forall_tankCollisions, H2.
Qed.

Lemma Forall_call (c : Call) (w : World) :
  damage_nonneg (StepCall c) ->
  Forall tank_ok (players w) -> Forall tank_ok (players (call c w)).
Proof.
  intros Hd H. destruct c; simpl in *.
  - apply Forall_alter; [exact H|]. intros p _. apply tank_ok_update.
  - apply Forall_alter; [exact H|]. intros p _. apply tank_ok_applyInput.
  - apply Forall_alter; [exact H|]. intros p _. apply tank_ok_shoot.
  - apply Forall_takeDamage; assumption.
  - apply Forall_alter; [exact H|]. intros p _ _. apply tank_ok_respawn.
  - destruct (players w !! this) as [p|] eqn:Hp; [|exact H].
    pose proof (tank_ok_repair now0 p (lastRepairTime w)
                  (Forall_lookup_1 _ _ _ _ H Hp)) as Hr.
    destruct (Player.repair now0 p (lastRepairTime w)) as [[ok p1] lrt].
    simpl in *. apply Forall_insert; assumption.
Qed.

Lemma Forall_run (ss : list Step) (w : World) :
  Forall damage_nonneg ss ->
  Forall tank_ok (players w) ->
  Forall tank_ok (players (run ss w)).
Proof.
  revert w. induction ss as [|s ss IH]; intros w Hd H; [exact H|].
  apply Forall_cons in Hd as [Hs Hd]. simpl. apply IH; [exact Hd|].
  destruct s as [c|rd]; simpl.
  - apply Forall_call; assumption.
  - apply Forall_gameLoop, H.
Qed.

(** ** Death and respawn *)

Lemma add_score_0 (p : Player.t) : Player.add_score 0 p = p.
Proof. destruct p. unfold Player.add_score. simpl. f_equal. lia. Qed.

Lemma add_score_add_score (n m : Z) (p : Player.t) :
  Player.add_score n (Player.add_score m p) = Player.add_score (m + n) p.
Proof. destruct p. unfold Player.add_score. simpl. f_equal. lia. Qed.

Lemma frozen_refl (p : Player.t) : frozen p p.
Proof. exists 0%Z. symmetry. apply add_score_0. Qed.

Lemma frozen_add_score (n : Z) (p0 q : Player.t) :
  frozen p0 q -> frozen p0 (Player.add_score n q).
Proof. intros [m ->]. exists (m + n)%Z. apply add_score_add_score. Qed.

Lemma frozen_dead (p0 q : Player.t) :
  frozen p0 q ->
  Player.isAlive q = Player.isAlive p0 /\ Player.hp q = Player.hp p0 /\
  Player.respawnTime q = Player.respawnTime p0.
Proof. intros [n ->]. repeat split. Qed.

Lemma lookup_credit_kill (attackerId : string) (ps : list Player.t) (i : nat) :
  exists n : Z,
    Player.credit_kill attackerId ps !! i = Player.add_score n <$> ps !! i.
Proof.
  unfold Player.credit_kill.
  destruct (Player.lookup_id attackerId ps) as [a|].
  - destruct (decide (a = i)) as [->|Hne].
    + exists 100%Z. apply list_lookup_alter_eq.
    + exists 0%Z. rewrite list_lookup_alter_ne by exact Hne.
      destruct (ps !! i); simpl; [rewrite add_score_0|]; reflexivity.
  - exists 0%Z. destruct (ps !! i); simpl; [rewrite add_score_0|]; reflexivity.
Qed.

Lemma kept_credit_kill (p0 : Player.t) (this : nat) (attackerId : string)
    (ps : list Player.t) :
  kept p0 this ps -> kept p0 this (Player.credit_kill attackerId ps).
Proof.
  intros (q & Hq & Hf).
  destruct (lookup_credit_kill attackerId ps this) as [n Hn].
  rewrite Hq in Hn. exists (Player.add_score n q).
  split; [exact Hn | apply frozen_add_score, Hf].
Qed.

Lemma kept_insert_ne (p0 : Player.t) (this k : nat) (p : Player.t)
    (ps : list Player.t) :
  k <> this -> kept p0 this ps -> kept p0 this (<[k := p]> ps).
Proof.
  intros Hne (q & Hq & Hf). exists q.
  split; [rewrite list_lookup_insert_ne by exact Hne; exact Hq | exact Hf].
Qed.

Lemma kept_takeDamage (p0 : Player.t) (this : nat) (damage : Z)
    (attackerId : string) (now0 : Z) (k : nat) (ps : list Player.t) :
  Player.isAlive p0 = false -> kept p0 this ps ->
  kept p0 this (Player.takeDamage damage attackerId now0 k ps).2.
Proof.
  intros Hd Hk. unfold Player.takeDamage.
  destruct (ps !! k) as [p|] eqn:Hp; [|exact Hk].
  destruct (Player.isAlive p) eqn:Ha; simpl; [|exact Hk].
  assert (Hne : k <> this).
  { intros ->. destruct Hk as (q & Hq & Hf).
    apply frozen_dead in Hf as (Hf & _). congruence. }
  destruct (bool_decide _); simpl.
  - apply kept_credit_kill, kept_insert_ne; assumption.
  - apply kept_insert_ne; assumption.
Qed.

Lemma kept_collide (p0 : Player.t) (this i j : nat) (ps : list Player.t) :
  Player.isAlive p0 = false -> kept p0 this ps -> kept p0 this (collide i j ps).
Proof.
  intros Hd Hk. unfold collide.
  destruct (ps !! i) as [p1|] eqn:H1; [|exact Hk].
  destruct (ps !! j) as [p2|] eqn:H2; [|exact Hk].
  destruct Hk as (q & Hq & Hf).
  pose proof (frozen_dead _ _ Hf) as (Hqa & _). rewrite Hd in Hqa.
  exists q. split; [|exact Hf].
  destruct (decide (i = this)) as [->|Hi], (decide (j = this)) as [->|Hj].
  - assert (p1 = q) as -> by congruence. assert (p2 = q) as -> by congruence.
    rewrite collidePair_dead by (left; exact Hqa).
    rewrite !(list_insert_id ps this q Hq). exact Hq.
  - assert (p1 = q) as -> by congruence.
    rewrite collidePair_dead by (left; exact Hqa).
    rewrite list_lookup_insert_ne by exact Hj.
    rewrite (list_insert_id ps this q Hq). exact Hq.
  - assert (p2 = q) as -> by congruence.
    rewrite collidePair_dead by (right; exact Hqa).
    rewrite (list_insert_id ps i p1 H1).
    rewrite (list_insert_id ps this q Hq). exact Hq.
  - destruct (collidePair p1 p2) as [q1 q2].
    rewrite !list_lookup_insert_ne by assumption. exact Hq.
Qed.

Lemma kept_tankCollisions (p0 : Player.t) (this : nat) (ps : list Player.t) :
  Player.isAlive p0 = false ->
  kept p0 this ps -> kept p0 this (tankCollisions ps).
Proof.
  intros Hd Hk. unfold tankCollisions.
  apply fold_left_preserves; [exact Hk|]. intros arr i Harr.
  apply fold_left_preserves; [exact Harr|]. intros arr' j Harr'.
  apply kept_collide; assumption.
Qed.

Lemma kept_bulletLoop (p0 : Player.t) (this : nat) (deltaTime : R)
    (rd : Readings) (bs : list Bullet.t) :
  Player.isAlive p0 = false ->
  forall (i : nat) (ps : list Player.t),
    kept p0 this ps -> kept p0 this (bulletLoop deltaTime rd i bs ps).2.
Proof.
  intros Hd.
  induction bs as [|bullet rest IH]; intros i ps H; simpl; [exact H|].
  specialize (IH (S i) ps H).
  destruct (bulletLoop deltaTime rd (S i) rest ps) as [rest1 ps1].
  destruct (Bullet.update deltaTime (bulletNow rd i) bullet) as [bullet1 keep].
  simpl in IH. destruct keep; simpl; [|exact IH].
  destruct (list_find (hits bullet1) ps1) as [[k q]|]; [|exact IH].
  pose proof (kept_takeDamage p0 this BULLET_DAMAGE (Bullet.owner bullet1)
                (dieNow rd i) k ps1 Hd IH) as Ht.
  destruct (Player.takeDamage _ _ _ k ps1) as [died ps2]. exact Ht.
Qed.

Lemma update_dead_early (deltaTime : R) (now0 : Z) (r1 r2 : R) (q : Player.t) :
  Player.isAlive q = false -> (now0 <= Player.respawnTime q)%Z ->
  Player.update deltaTime now0 r1 r2 q = q.
Proof.
  intros Ha Hn. unfold Player.update. rewrite Ha. simpl.
  rewrite bool_decide_eq_false_2 by lia. reflexivity.
Qed.

Lemma update_dead_late (deltaTime : R) (now0 : Z) (r1 r2 : R) (q : Player.t) :
  Player.isAlive q = false -> (now0 > Player.respawnTime q)%Z ->
  Player.update deltaTime now0 r1 r2 q = Player.respawn r1 r2 q.
Proof.
  intros Ha Hn. unfold Player.update. rewrite Ha. simpl.
  rewrite bool_decide_eq_true_2 by lia. reflexivity.
Qed.

Lemma kept_alter_ne (p0 : Player.t) (this k : nat) (f : Player.t -> Player.t)
    (ps : list Player.t) :
  k <> this -> kept p0 this ps -> kept p0 this (alter f k ps).
Proof.
  intros Hne (q & Hq & Hf). exists q.
  split; [rewrite list_lookup_alter_ne by exact Hne; exact Hq | exact Hf].
Qed.

Lemma kept_alter_id (p0 : Player.t) (this k : nat) (f : Player.t -> Player.t)
    (ps : list Player.t) :
  (forall q, frozen p0 q -> f q = q) ->
  kept p0 this ps -> kept p0 this (alter f k ps).
Proof.
  intros Hid Hk. destruct (decide (k = this)) as [->|Hne].
  - destruct Hk as (q & Hq & Hf). exists q. split; [|exact Hf].
    rewrite list_lookup_alter_eq, Hq. simpl. f_equal. apply Hid, Hf.
  - apply kept_alter_ne; assumption.
Qed.

Lemma kept_gameLoop (p0 : Player.t) (this : nat) (rd : Readings) (w : World) :
  Player.isAlive p0 = false ->
  (updateNow rd this <= Player.respawnTime p0)%Z ->
  kept p0 this (players w) -> kept p0 this (players (gameLoop rd w).2).
Proof.
  intros Hd Hn Hk. unfold gameLoop.
  set (deltaTime := (IZR (now rd - lastUpdate w) / 1000)%R).
  set (ps1 := imap _ (players w)).
  assert (H1 : kept p0 this ps1).
  { destruct Hk as (q & Hq & Hf). exists q. split; [|exact Hf].
    subst ps1. rewrite list_lookup_imap, Hq. simpl. f_equal.
    pose proof (frozen_dead _ _ Hf) as (Ha & _ & Hr).
    apply update_dead_early; [congruence | lia]. }
  pose proof (kept_bulletLoop p0 this deltaTime rd (bullets w) Hd 0 ps1 H1) as H2.
  destruct (bulletLoop deltaTime rd 0 (bullets w) ps1) as [bs2 ps2].
  simpl in *. apply kept_tankCollisions; assumption.
Qed.

Lemma kept_call (p0 : Player.t) (this : nat) (c : Call) (w : World) :
  Player.isAlive p0 = false ->
  quiet this (Player.respawnTime p0) (StepCall c) ->
  kept p0 this (players w) -> kept p0 this (players (call c w)).
Proof.
  intros Hd Hq Hk. destruct c as [k dt n r1 r2|k inp|k n n2|k d a n|k r1 r2|k n];
    simpl in *.
  - destruct (decide (k = this)) as [->|Hne]; [|apply kept_alter_ne; assumption].
    apply kept_alter_id; [|exact Hk]. intros q Hf.
    pose proof (frozen_dead _ _ Hf) as (Ha & _ & Hr).
    apply update_dead_early; [congruence|]. specialize (Hq eq_refl). lia.
  - apply kept_alter_id; [|exact Hk]. intros q Hf.
    apply applyInput_dead. apply frozen_dead in Hf as (Ha & _). congruence.
  - apply kept_alter_id; [|exact Hk]. intros q Hf.
    rewrite shoot_dead; [reflexivity|].
    apply frozen_dead in Hf as (Ha & _). congruence.
  - apply kept_takeDamage; assumption.
  - apply kept_alter_ne; assumption.
  - destruct (players w !! k) as [p|] eqn:Hp; [|exact Hk].
    destruct (decide (k = this)) as [->|Hne].
    + destruct Hk as (q & Hq' & Hf). simpl in *.
      assert (p = q) as -> by congruence.
      rewrite repair_dead
        by (apply frozen_dead in Hf as (Ha & _); congruence).
      simpl. exists q. split; [|exact Hf].
      apply list_lookup_insert_eq. eapply lookup_lt_Some, Hp.
    + destruct (Player.repair n p (lastRepairTime w)) as [[ok p1] lrt].
      simpl. apply kept_insert_ne; assumption.
Qed.

Lemma kept_run (p0 : Player.t) (this : nat) (ss : list Step) :
  Player.isAlive p0 = false ->
  Forall (quiet this (Player.respawnTime p0)) ss ->
  forall w, kept p0 this (players w) -> kept p0 this (players (run ss w)).
Proof.
  intros Hd. induction ss as [|s ss IH]; intros Hq w Hk; [exact Hk|].
  apply Forall_cons in Hq as [Hs Hq]. simpl. apply IH; [exact Hq|].
  destruct s as [c|rd]; simpl.
  - apply kept_call; assumption.
  - apply kept_gameLoop; assumption.
Qed.

Lemma takeDamage_true (damage : Z) (attackerId : string) (now0 : Z)
    (this : nat) (ps ps' : list Player.t) :
  Player.takeDamage damage attackerId now0 this ps = (true, ps') ->
  exists p,
    ps !! this = Some p /\ Player.isAlive p = true /\
    (Player.hp p <= damage)%Z /\
    ps' = Player.credit_kill attackerId
            (<[this := Player.die now0 (Player.set_hp (Player.hp p - damage) p)]> ps).
Proof.
  unfold Player.takeDamage.
  destruct (ps !! this) as [p|] eqn:Hp; [|discriminate].
  destruct (Player.isAlive p) eqn:Ha; simpl; [|discriminate].
  destruct (bool_decide _) eqn:Hb; [|discriminate].
  intros [= <-]. apply bool_decide_eq_true_1 in Hb. simpl in Hb.
  exists p. split; [reflexivity|]. split; [exact Ha|].
  split; [lia | reflexivity].
Qed.

(** C9.  When [takeDamage] kills the tank at [this] and [die] reads
    the clock as [t], the tank is dead with [hp = 0], its velocity is
    zero and its respawn is due at [t + RESPAWN_TIME].  Through any
    later method calls on any tank and runs of [gameLoop] in which its
    [update] reads a clock not past that time, it is still dead, with
    the same respawn time.  The first [update] that reads a later clock
    makes it alive with [hp = MAX_HEALTH], zero velocity and both
    headings [0]. *)
Theorem respawn_round_trip (damage : Z) (attackerId : string) (t : Z)
    (this : nat) (w : World) (ps' : list Player.t) (ss : list Step) :
  Player.takeDamage damage attackerId t this (players w) = (true, ps') ->
  Forall (quiet this (t + RESPAWN_TIME)) ss ->
  exists p q,
    ps' !! this = Some p /\
    Player.isAlive p = false /\ Player.hp p = 0%Z /\
    Player.vx p = 0%R /\ Player.vy p = 0%R /\
    Player.respawnTime p = (t + RESPAWN_TIME)%Z /\
    players (run ss (set_players ps' w)) !! this = Some q /\
    Player.isAlive q = false /\ Player.hp q = 0%Z /\
    Player.respawnTime q = (t + RESPAWN_TIME)%Z /\
    (forall (deltaTime : R) (now0 : Z) (r1 r2 : R),
       (now0 <= t + RESPAWN_TIME)%Z ->
       Player.update deltaTime now0 r1 r2 q = q) /\
    (forall (deltaTime : R) (now0 : Z) (r1 r2 : R),
       (now0 > t + RESPAWN_TIME)%Z ->
       let q' := Player.update deltaTime now0 r1 r2 q in
       Player.isAlive q' = true /\ Player.hp q' = MAX_HEALTH /\
       Player.vx q' = 0%R /\ Player.vy q' = 0%R /\
       Player.angle q' = 0%R /\ Player.targetAngle q' = 0%R).
Proof.
  intros Ht Hq.
  apply takeDamage_true in Ht as (p & Hp & Ha & Hh & ->).
  set (p0 := Player.die t (Player.set_hp (Player.hp p - damage) p)).
  assert (Hd : Player.isAlive p0 = false) by reflexivity.
  assert (Hk : kept p0 this
                 (Player.credit_kill attackerId (<[this := p0]> (players w)))).
  { apply kept_credit_kill. exists p0. split; [|apply frozen_refl].
    apply list_lookup_insert_eq. eapply lookup_lt_Some, Hp. }
  destruct Hk as (p1 & Hp1 & Hf1).
  destruct (kept_run p0 this ss Hd Hq
              (set_players (Player.credit_kill attackerId
                              (<[this := p0]> (players w))) w))
    as (q & Hq1 & Hfq).
  { exists p1. split; assumption. }
  destruct Hf1 as [n1 ->]. destruct Hfq as [n ->].
  eexists _, _. split; [exact Hp1|]. do 5 (split; [reflexivity|]).
  split; [exact Hq1|]. do 3 (split; [reflexivity|]). split.
  - intros deltaTime now0 r1 r2 Hn.
    apply update_dead_early; [reflexivity | simpl; lia].
  - intros deltaTime now0 r1 r2 Hn.
    rewrite update_dead_late; [|reflexivity | simpl; lia].
    simpl. repeat split.
Qed.

(** A fresh tank killed at 5000 ms: still dead after an [update] at
    6000 ms, alive again at the [update] of 8001 ms. *)
Lemma respawn_round_trip_witness :
  let w := {| players := [Player.new "tank" 100 100];
              bullets := []; lastRepairTime := ∅; lastUpdate := 0 |} in
  let p := Player.die 5000 (Player.set_hp 0 (Player.new "tank" 100 100)) in
  exists q,
    players (run [StepCall (CallUpdate 0 0.01 6000 0.5 0.5)]
               (set_players [p] w)) !! 0%nat = Some q /\
    Player.isAlive q = false /\
    Player.isAlive (Player.update 0.01 8001 0.5 0.5 q) = true.
Proof.
  intros w p.
  destruct (respawn_round_trip 100 "foe" 5000 0 w [p]
              [StepCall (CallUpdate 0 0.01 6000 0.5 0.5)])
    as (p1 & q & _ & _ & _ & _ & _ & _ & Hq & Ha & _ & _ & _ & Hlate).
  - reflexivity.
  - apply List.Forall_cons; [|apply List.Forall_nil].
    simpl. unfold RESPAWN_TIME. lia.
  - exists q. split; [exact Hq|]. split; [exact Ha|].
    apply (Hlate 0.01%R 8001%Z 0.5%R 0.5%R). unfold RESPAWN_TIME. lia.
Defined.

(** ** Bullets *)

Lemma Bullet_update_moves (deltaTime : R) (now0 : Z) (b : Bullet.t) :
  (Bullet.update deltaTime now0 b).1
  = {| Bullet.x := (Bullet.x b + Bullet.vx b * deltaTime)%R;
       Bullet.y := (Bullet.y b + Bullet.vy b * deltaTime)%R;
       Bullet.vx := Bullet.vx b; Bullet.vy := Bullet.vy b;
       Bullet.owner := Bullet.owner b; Bullet.createdAt := Bullet.createdAt b;
       Bullet.angle := Bullet.angle b |}.
Proof.
  unfold Bullet.update.
  match goal with |- context [if ?c then _ else _] => destruct c end;
    reflexivity.
Qed.

Lemma Bullet_update_expired (deltaTime : R) (now0 : Z) (b : Bullet.t) :
  (Bullet.update deltaTime now0 b).2 = false <->
  out_of_bounds (Bullet.update deltaTime now0 b).1 \/
  (now0 - Bullet.createdAt b > BULLET_LIFETIME)%Z.
Proof.
  rewrite Bullet_update_moves. unfold Bullet.update, out_of_bounds. simpl.
  match goal with |- context [if ?c then _ else _] => destruct c eqn:Hc end;
    simpl.
  - rewrite !orb_true_iff, !bool_decide_eq_true in Hc. tauto.
  - rewrite !orb_false_iff, !bool_decide_eq_false in Hc.
    split; [discriminate | tauto].
Qed.

Lemma bulletLoop_survivors (deltaTime : R) (rd : Readings) (bs : list Bullet.t) :
  forall (i : nat) (ps : list Player.t) (b' : Bullet.t),
    b' ∈ (bulletLoop deltaTime rd i bs ps).1 ->
    exists (k : nat) (b : Bullet.t),
      bs !! k = Some b /\
      Bullet.update deltaTime (bulletNow rd (i + k)) b = (b', true).
Proof.
  induction bs as [|bullet rest IH]; intros i ps b' Hin; simpl in Hin.
  - apply elem_of_nil in Hin. contradiction.
  - specialize (IH (S i) ps b').
    destruct (bulletLoop deltaTime rd (S i) rest ps) as [rest1 ps1].
    assert (Hrest : b' ∈ rest1 ->
              exists k b, (bullet :: rest) !! k = Some b /\
                Bullet.update deltaTime (bulletNow rd (i + k)) b = (b', true)).
    { intros H. destruct (IH H) as (k & b & Hk & Hu).
      exists (S k), b. split; [exact Hk|].
      replace (i + S k)%nat with (S i + k)%nat by lia. exact Hu. }
    destruct (Bullet.update deltaTime (bulletNow rd i) bullet)
      as [bullet1 keep] eqn:Hu.
    destruct keep; simpl in Hin; [|auto].
    destruct (list_find (hits bullet1) ps1) as [[k q]|].
    + destruct (Player.takeDamage _ _ _ k ps1) as [died ps2]. auto.
    + apply elem_of_cons in Hin as [->|Hin]; [|auto].
      exists 0%nat, bullet. split; [reflexivity|].
      replace (i + 0)%nat with i by lia. exact Hu.
Qed.

(** C8, as the code has it.  [update] of a bullet adds velocity times
    [deltaTime] to the position and changes nothing else, and it
    returns [false] exactly when the new position is more than 50
    outside the arena on some side or the bullet is older than
    [BULLET_LIFETIME] on the clock it reads.  So every bullet in a
    [state] broadcast is one that the same run of [gameLoop] moved and
    found no older than the lifetime on the clock its [update] read,
    and every bullet left in the world by a run of [gameLoop] is no
    older than the lifetime on the clock of the final sweep: a bullet
    created at [t0] is not in the world a run leaves once the clock
    of its sweep is past [t0 + BULLET_LIFETIME]. *)
Theorem bullet_expiry :
  (forall (deltaTime : R) (now0 : Z) (b : Bullet.t),
     let b' := (Bullet.update deltaTime now0 b).1 in
     Bullet.x b' = (Bullet.x b + Bullet.vx b * deltaTime)%R /\
     Bullet.y b' = (Bullet.y b + Bullet.vy b * deltaTime)%R /\
     Bullet.vx b' = Bullet.vx b /\ Bullet.vy b' = Bullet.vy b /\
     Bullet.owner b' = Bullet.owner b /\
     Bullet.createdAt b' = Bullet.createdAt b /\
     ((Bullet.update deltaTime now0 b).2 = false <->
      out_of_bounds b' \/ (now0 - Bullet.createdAt b > BULLET_LIFETIME)%Z)) /\
  (forall (rd : Readings) (w : World),
     exists bs2 : list Bullet.t,
       s_bullets (gameLoop rd w).1 = map Bullet.toJSON bs2 /\
       bullets (gameLoop rd w).2 = sweep (nowTime rd) bs2 /\
       forall b', b' ∈ bs2 ->
         exists (i : nat) (b : Bullet.t),
           bullets w !! i = Some b /\
           Bullet.createdAt b' = Bullet.createdAt b /\
           ~ out_of_bounds b' /\
           (bulletNow rd i - Bullet.createdAt b <= BULLET_LIFETIME)%Z) /\
  (forall (rd : Readings) (w : World) (b' : Bullet.t),
     b' ∈ bullets (gameLoop rd w).2 ->
     (nowTime rd - Bullet.createdAt b' <= BULLET_LIFETIME)%Z /\
     exists (i : nat) (b : Bullet.t),
       bullets w !! i = Some b /\ Bullet.createdAt b' = Bullet.createdAt b) /\
  (forall (rd : Readings) (w : World) (t0 : Z) (b' : Bullet.t),
     (t0 + BULLET_LIFETIME < nowTime rd)%Z ->
     Bullet.createdAt b' = t0 ->
     b' ∉ bullets (gameLoop rd w).2).
Proof.
  assert (Hsnap : forall (rd : Readings) (w : World),
     exists bs2 : list Bullet.t,
       s_bullets (gameLoop rd w).1 = map Bullet.toJSON bs2 /\
       bullets (gameLoop rd w).2 = sweep (nowTime rd) bs2 /\
       forall b', b' ∈ bs2 ->
         exists (i : nat) (b : Bullet.t),
           bullets w !! i = Some b /\
           Bullet.createdAt b' = Bullet.createdAt b /\
           ~ out_of_bounds b' /\
           (bulletNow rd i - Bullet.createdAt b <= BULLET_LIFETIME)%Z).
  { intros rd w. unfold gameLoop.
    set (deltaTime := (IZR (now rd - lastUpdate w) / 1000)%R).
    set (ps1 := imap _ (players w)).
    pose proof (bulletLoop_survivors deltaTime rd (bullets w) 0 ps1) as Hs.
    destruct (bulletLoop deltaTime rd 0 (bullets w) ps1) as [bs2 ps2].
    exists bs2. split; [reflexivity|]. split; [reflexivity|].
    intros b' Hin. destruct (Hs b' Hin) as (k & b & Hk & Hu).
    exists k, b. split; [exact Hk|].
    pose proof (Bullet_update_moves deltaTime (bulletNow rd (0 + k)) b) as Hm.
    pose proof (Bullet_update_expired deltaTime (bulletNow rd (0 + k)) b) as He.
    rewrite Hu in Hm, He. simpl in Hm, He.
    split; [rewrite Hm; reflexivity|].
    assert (Hno : ~ (out_of_bounds b' \/
                     (bulletNow rd (0 + k) - Bullet.createdAt b > BULLET_LIFETIME)%Z))
      by (intros H; apply He in H; discriminate).
    simpl in Hno. split; [tauto | lia]. }
  assert (Hleft : forall (rd : Readings) (w : World) (b' : Bullet.t),
     b' ∈ bullets (gameLoop rd w).2 ->
     (nowTime rd - Bullet.createdAt b' <= BULLET_LIFETIME)%Z /\
     exists (i : nat) (b : Bullet.t),
       bullets w !! i = Some b /\ Bullet.createdAt b' = Bullet.createdAt b).
  { intros rd w b' Hin.
    destruct (Hsnap rd w) as (bs2 & _ & Hb & Hfrom).
    rewrite Hb in Hin. unfold sweep in Hin.
    apply list_elem_of_filter in Hin as [Hage Hin]. split; [lia|].
    destruct (Hfrom b' Hin) as (i & b & Hi & Hc & _). eauto. }
  split; [|split; [exact Hsnap | split; [exact Hleft|]]].
  - intros deltaTime now0 b b'. subst b'.
    pose proof (Bullet_update_expired deltaTime now0 b) as He.
    rewrite Bullet_update_moves in *. simpl. repeat split; apply He.
  - intros rd w t0 b' Hlate Hc Hin.
    destruct (Hleft rd w b' Hin) as [Hage _]. lia.
Qed.

(** A bullet made at 1000 ms is gone after the run of 3001 ms. *)
Lemma bullet_expiry_witness :
  let b := {| Bullet.x := 100; Bullet.y := 100; Bullet.vx := 35; Bullet.vy := 0;
              Bullet.owner := "tank"; Bullet.createdAt := 1000;
              Bullet.angle := 0 |} in
  let w := {| players := []; bullets := [b]; lastRepairTime := ∅;
              lastUpdate := 2990 |} in
  let rd := {| now := 3001; updateNow := fun _ => 3001%Z;
               updateRandom := fun _ => (0.5%R, 0.5%R);
               bulletNow := fun _ => 3001%Z; dieNow := fun _ => 3001%Z;
               timestamp := 3001; nowTime := 3001 |} in
  bullets (gameLoop rd w).2 = [].
Proof.
  intros b w rd.
  destruct bullet_expiry as (_ & _ & Hleft & Hgone).
  destruct (bullets (gameLoop rd w).2) as [|b' rest] eqn:Hbs; [reflexivity|].
  exfalso.
  assert (Hin : b' ∈ bullets (gameLoop rd w).2)
    by (rewrite Hbs; apply list_elem_of_here).
  destruct (Hleft rd w b' Hin) as (_ & i & b0 & Hi & Hc).
  apply (Hgone rd w 1000%Z b'); [| |exact Hin].
  - simpl. unfold BULLET_LIFETIME. lia.
  - rewrite Hc. destruct i as [|i]; simpl in Hi; [|discriminate].
    injection Hi as <-. reflexivity.
Defined.


(** ** The rotation loops stop *)

Lemma PI_pos : (0 < Math.PI)%R.
Proof. apply PI_RGT_0. Qed.

Lemma turns_enough (d : R) : (Rabs d < 2 * Math.PI * INR (Player.turns d))%R.
Proof.
  unfold Player.turns. pose proof PI_pos as Hpi.
  set (r := (Rabs d / (2 * Math.PI))%R).
  destruct (archimed r) as [Hup _].
  assert (Hr : (0 <= r)%R).
  { unfold r. apply Rmult_le_pos; [apply Rabs_pos|].
    left. apply Rinv_0_lt_compat. lra. }
  assert (Hz : (0 <= up r)%Z).
  { apply le_IZR. simpl. lra. }
  rewrite INR_IZR_INZ, Z2Nat.id by exact Hz.
  assert (Hd : Rabs d = (2 * Math.PI * r)%R) by (unfold r; field; lra).
  rewrite Hd. apply Rmult_lt_compat_l; lra.
Qed.

Lemma while_above_PI_le (n : nat) :
  forall d : R, (d <= Math.PI + 2 * Math.PI * INR n)%R ->
    (Player.while_above_PI n d <= Math.PI)%R.
Proof.
  induction n as [|n IH]; intros d Hd.
  - simpl in *. lra.
  - rewrite S_INR in Hd. simpl. destruct (decide (d > Math.PI)%R) as [Hg|Hg].
    + apply IH. lra.
    + lra.
Qed.

Lemma while_below_minus_PI_ge (n : nat) :
  forall d : R, (- Math.PI - 2 * Math.PI * INR n <= d)%R ->
    (- Math.PI <= Player.while_below_minus_PI n d)%R.
Proof.
  induction n as [|n IH]; intros d Hd.
  - simpl in *. lra.
  - rewrite S_INR in Hd. simpl. destruct (decide (d < - Math.PI)%R) as [Hg|Hg].
    + apply IH. lra.
    + lra.
Qed.

(** With [turns] rounds the first loop has left its condition. *)
Lemma while_above_PI_exits (d : R) :
  ~ (Player.while_above_PI (Player.turns d) d > Math.PI)%R.
Proof.
  pose proof (turns_enough d) as Ht. pose proof (Rle_abs d) as Ha.
  pose proof PI_pos.
  pose proof (while_above_PI_le (Player.turns d) d). lra.
Qed.

(** And so has the second. *)
Lemma while_below_minus_PI_exits (d : R) :
  ~ (Player.while_below_minus_PI (Player.turns d) d < - Math.PI)%R.
Proof.
  pose proof (turns_enough d) as Ht. pose proof (Rle_abs (- d)) as Ha.
  rewrite Rabs_Ropp in Ha. pose proof PI_pos.
  pose proof (while_below_minus_PI_ge (Player.turns d) d). lra.
Qed.

(** Once a loop has left its condition, more rounds change nothing:
    the unrolled loops are the loops. *)
Lemma while_above_PI_more (n : nat) :
  forall (m : nat) (d : R),
    ~ (Player.while_above_PI n d > Math.PI)%R -> n <= m ->
    Player.while_above_PI m d = Player.while_above_PI n d.
Proof.
  induction n as [|n IH]; intros m d Hx Hm.
  - simpl in *. destruct m as [|m]; [reflexivity|]. simpl.
    destruct (decide (d > Math.PI)%R); [contradiction | reflexivity].
  - destruct m as [|m]; [lia|]. simpl in *.
    destruct (decide (d > Math.PI)%R); [|reflexivity].
    apply IH; [exact Hx | lia].
Qed.

Lemma while_below_minus_PI_more (n : nat) :
  forall (m : nat) (d : R),
    ~ (Player.while_below_minus_PI n d < - Math.PI)%R -> n <= m ->
    Player.while_below_minus_PI m d = Player.while_below_minus_PI n d.
Proof.
  induction n as [|n IH]; intros m d Hx Hm.
  - simpl in *. destruct m as [|m]; [reflexivity|]. simpl.
    destruct (decide (d < - Math.PI)%R); [contradiction | reflexivity].
  - destruct m as [|m]; [lia|]. simpl in *.
    destruct (decide (d < - Math.PI)%R); [|reflexivity].
    apply IH; [exact Hx | lia].
Qed.

Lemma shortestDiff_small (d : R) :
  (- Math.PI <= d <= Math.PI)%R -> Player.shortestDiff d = d.
Proof.
  intros Hd. unfold Player.shortestDiff.
  assert (H1 : forall n, Player.while_above_PI n d = d).
  { intros [|n]; simpl; [reflexivity|].
    destruct (decide (d > Math.PI)%R); [lra | reflexivity]. }
  rewrite !H1.
  destruct (Player.turns d) as [|n]; simpl; [reflexivity|].
  destruct (decide (d < - Math.PI)%R); [lra | reflexivity].
Qed.

Lemma while_below_minus_PI_le (n : nat) :
  forall d : R, (d <= Math.PI)%R ->
    (Player.while_below_minus_PI n d <= Math.PI)%R.
Proof.
  pose proof PI_pos as Hpi.
  induction n as [|n IH]; intros d Hd; simpl; [exact Hd|].
  destruct (decide (d < - Math.PI)%R) as [Hl|Hl]; [apply IH; lra | exact Hd].
Qed.

(** The difference [update] turns by lies within half a turn. *)
Lemma shortestDiff_range (d : R) :
  (- Math.PI <= Player.shortestDiff d <= Math.PI)%R.
Proof.
  unfold Player.shortestDiff.
  pose proof (while_above_PI_exits d) as H1.
  pose proof (while_below_minus_PI_exits
                (Player.while_above_PI (Player.turns d) d)) as H2.
  pose proof (while_below_minus_PI_le
                (Player.turns (Player.while_above_PI (Player.turns d) d))
                (Player.while_above_PI (Player.turns d) d)) as H3.
  lra.
Qed.

(** ** [update] keeps an alive tank inside the arena *)

Lemma clamp_bounds (lo hi v : R) :
  (lo <= hi)%R -> (lo <= Math.max lo (Math.min hi v) <= hi)%R.
Proof.
  intros H. unfold Math.max, Math.min. split.
  - apply Rmax_l.
  - apply Rmax_lub; [exact H | apply Rmin_l].
Qed.

Lemma clamp_inside (lo hi v : R) :
  (lo <= v <= hi)%R -> Math.max lo (Math.min hi v) = v.
Proof.
  intros H. unfold Math.max, Math.min.
  rewrite Rmin_right by lra. rewrite Rmax_right by lra. reflexivity.
Qed.

Lemma update_alive_in_arena (deltaTime : R) (now0 : Z) (r1 r2 : R)
    (p : Player.t) :
  Player.isAlive p = true ->
  in_arena (Player.update deltaTime now0 r1 r2 p).
Proof.
  intros Ha. unfold Player.update, in_arena. rewrite Ha. simpl.
  split; apply clamp_bounds;
    unfold TANK_RADIUS, ARENA_WIDTH, ARENA_HEIGHT; lra.
Qed.

Lemma respawn_in_arena (r1 r2 : R) (p : Player.t) :
  (0 <= r1 < 1)%R -> (0 <= r2 < 1)%R ->
  in_arena (Player.respawn r1 r2 p).
Proof.
  intros H1 H2. unfold in_arena. simpl.
  unfold TANK_RADIUS, ARENA_WIDTH, ARENA_HEIGHT. split; nra.
Qed.

(** A tank at rest inside the arena is left as it is by [update]. *)
Lemma update_at_rest (deltaTime : R) (now0 : Z) (r1 r2 : R) (p : Player.t) :
  Player.isAlive p = true ->
  Player.vx p = 0%R -> Player.vy p = 0%R ->
  Player.targetAngle p = Player.angle p ->
  in_arena p ->
  Player.update deltaTime now0 r1 r2 p = p.
Proof.
  intros Ha Hvx Hvy Hang [Hx Hy]. unfold Player.update. rewrite Ha. simpl.
  pose proof PI_pos.
  rewrite Hvx, Hvy, Hang.
  replace (Player.angle p - Player.angle p)%R with 0%R by lra.
  rewrite shortestDiff_small by lra.
  replace (Player.x p + 0 * FRICTION * deltaTime)%R with (Player.x p) by lra.
  replace (Player.y p + 0 * FRICTION * deltaTime)%R with (Player.y p) by lra.
  rewrite !clamp_inside by assumption.
  replace (0 * FRICTION)%R with 0%R by lra.
  replace (Player.angle p + 0 * 0.2)%R with (Player.angle p) by lra.
  destruct p; simpl in *; subst; reflexivity.
Qed.

(** ** The direction of [Math.atan2] *)

Section Trig.
Local Open Scope R_scope.

Lemma hyp_pos (y0 x0 : R) :
  x0 <> 0 -> 0 < sqrt (1 + (y0 / x0)²).
Proof.
  intros Hx. apply sqrt_lt_R0. pose proof (Rle_0_sqr (y0 / x0)). lra.
Qed.

Lemma sqrt_hyp (y0 x0 : R) :
  x0 <> 0 ->
  sqrt (x0 * x0 + y0 * y0) = Rabs x0 * sqrt (1 + (y0 / x0)²).
Proof.
  intros Hx.
  replace (x0 * x0 + y0 * y0) with (x0² * (1 + (y0 / x0)²))
    by (unfold Rsqr; field; exact Hx).
  rewrite sqrt_mult_alt by apply Rle_0_sqr.
  rewrite sqrt_Rsqr_abs. reflexivity.
Qed.

Lemma atan2_cos_sin (y0 x0 : R) :
  (x0 <> 0 \/ y0 <> 0) ->
  Math.cos (Math.atan2 y0 x0) = x0 / Math.sqrt (x0 * x0 + y0 * y0) /\
  Math.sin (Math.atan2 y0 x0) = y0 / Math.sqrt (x0 * x0 + y0 * y0).
Proof.
  intros Hne. unfold Math.cos, Math.sin, Math.sqrt, Math.atan2, Math.PI.
  destruct (decide (0 < x0)) as [Hp|Hp].
  - rewrite sqrt_hyp, cos_atan, sin_atan by lra.
    pose proof (hyp_pos y0 x0 ltac:(lra)) as Hs.
    rewrite Rabs_right by lra. split; field; lra.
  - destruct (decide (x0 < 0)) as [Hn|Hn].
    + pose proof (hyp_pos y0 x0 ltac:(lra)) as Hs.
      rewrite sqrt_hyp by lra. rewrite Rabs_left by lra.
      destruct (decide (0 <= y0)).
      * rewrite neg_cos, neg_sin, cos_atan, sin_atan. split; field; lra.
      * unfold Rminus. rewrite cos_plus, sin_plus, cos_neg, sin_neg.
        rewrite cos_PI, sin_PI, cos_atan, sin_atan. split; field; lra.
    + assert (x0 = 0) as -> by lra.
      replace (0 * 0 + y0 * y0) with (y0 * y0) by ring.
      destruct (decide (0 < y0)).
      * rewrite cos_PI2, sin_PI2, sqrt_square by lra. split; field; lra.
      * destruct (decide (y0 < 0)); [|lra].
        replace (y0 * y0) with ((- y0) * (- y0)) by ring.
        rewrite sqrt_square by lra.
        replace (- PI / 2) with (- (PI / 2)) by lra.
        rewrite cos_neg, sin_neg, cos_PI2, sin_PI2. split; field; lra.
Qed.

End Trig.

(** ** Tank against tank *)

Section Collision.
Local Open Scope R_scope.

Lemma collidePair_apart (p1 p2 : Player.t) :
  ~ overlapping p1 p2 -> collidePair p1 p2 = (p1, p2).
Proof.
  intros Hno. unfold collidePair.
  destruct (Player.isAlive p1) eqn:H1, (Player.isAlive p2) eqn:H2;
    simpl; try reflexivity.
  destruct (decide _) as [Hd|Hd]; [|reflexivity].
  exfalso. apply Hno. unfold overlapping, centre_distance.
  repeat split; try assumption. lra.
Qed.

(** What the body does to an overlapping pair, with the angle kept as
    the code has it. *)
Lemma collidePair_overlapping (p1 p2 : Player.t) :
  overlapping p1 p2 ->
  let dx := Player.x p1 - Player.x p2 in
  let dy := Player.y p1 - Player.y p2 in
  let angle := Math.atan2 dy dx in
  let minDistance := TANK_RADIUS * 2 in
  let overlap := (minDistance - centre_distance p1 p2) / 2 in
  let ax := (Player.x p1 + Math.cos angle * minDistance - Player.x p2) * 0.1 in
  let ay := (Player.y p1 + Math.sin angle * minDistance - Player.y p2) * 0.1 in
  let q1 := (collidePair p1 p2).1 in
  let q2 := (collidePair p1 p2).2 in
  Player.x q1 = Player.x p1 + Math.cos angle * overlap /\
  Player.y q1 = Player.y p1 + Math.sin angle * overlap /\
  Player.x q2 = Player.x p2 - Math.cos angle * overlap /\
  Player.y q2 = Player.y p2 - Math.sin angle * overlap /\
  Player.vx q1 = Player.vx p1 - ax /\
  Player.vy q1 = Player.vy p1 - ay /\
  Player.vx q2 = Player.vx p2 + ax /\
  Player.vy q2 = Player.vy p2 + ay.
Proof.
  intros (H1 & H2 & Hd). unfold centre_distance in *. simpl.
  unfold collidePair. rewrite H1, H2. simpl.
  destruct (decide _) as [_|Hn]; [simpl; repeat split|].
  exfalso. apply Hn. lra.
Qed.

Lemma centre_distance_sqr (p1 p2 : Player.t) :
  centre_distance p1 p2 * centre_distance p1 p2
  = (Player.x p1 - Player.x p2) * (Player.x p1 - Player.x p2) +
    (Player.y p1 - Player.y p2) * (Player.y p1 - Player.y p2).
Proof.
  unfold centre_distance, Math.sqrt. apply sqrt_sqrt.
  pose proof (Rle_0_sqr (Player.x p1 - Player.x p2)).
  pose proof (Rle_0_sqr (Player.y p1 - Player.y p2)).
  unfold Rsqr in *. lra.
Qed.

(** The same with the angle resolved: [u] is the unit vector from
    [p2] to [p1]. *)
Lemma collidePair_unit (p1 p2 : Player.t) :
  overlapping p1 p2 -> 0 < centre_distance p1 p2 ->
  let d := centre_distance p1 p2 in
  let ux := (Player.x p1 - Player.x p2) / d in
  let uy := (Player.y p1 - Player.y p2) / d in
  let overlap := (2 * TANK_RADIUS - d) / 2 in
  let pull := (d + 2 * TANK_RADIUS) * 0.1 in
  let q1 := (collidePair p1 p2).1 in
  let q2 := (collidePair p1 p2).2 in
  Player.x q1 = Player.x p1 + ux * overlap /\
  Player.y q1 = Player.y p1 + uy * overlap /\
  Player.x q2 = Player.x p2 - ux * overlap /\
  Player.y q2 = Player.y p2 - uy * overlap /\
  Player.vx q1 = Player.vx p1 - ux * pull /\
  Player.vy q1 = Player.vy p1 - uy * pull /\
  Player.vx q2 = Player.vx p2 + ux * pull /\
  Player.vy q2 = Player.vy p2 + uy * pull.
Proof.
  intros Ho Hd d ux uy overlap pull q1 q2.
  pose proof (collidePair_overlapping p1 p2 Ho) as H. simpl in H.
  fold q1 q2 in H.
  destruct H as (Hx1 & Hy1 & Hx2 & Hy2 & Hvx1 & Hvy1 & Hvx2 & Hvy2).
  assert (Hne : Player.x p1 - Player.x p2 <> 0 \/ Player.y p1 - Player.y p2 <> 0).
  { destruct (Req_dec (Player.x p1 - Player.x p2) 0) as [Ex|Ex]; [|left; exact Ex].
    destruct (Req_dec (Player.y p1 - Player.y p2) 0) as [Ey|Ey]; [|right; exact Ey].
    exfalso. pose proof (centre_distance_sqr p1 p2) as Hs.
    rewrite Ex, Ey in Hs. clear - Hd Hs. nra. }
  destruct (atan2_cos_sin _ _ Hne) as [Hc Hs].
  fold (centre_distance p1 p2) in Hc, Hs. fold d in Hc, Hs.
  rewrite Hc, Hs in *.
  rewrite Hx1, Hy1, Hx2, Hy2, Hvx1, Hvy1, Hvx2, Hvy2.
  subst ux uy overlap pull. fold d. unfold TANK_RADIUS.
  repeat split; field; unfold d; lra.
Qed.

End Collision.

Section CollisionResponse.
Local Open Scope R_scope.

Lemma collidePair_ids (p1 p2 : Player.t) :
  Player.id (collidePair p1 p2).1 = Player.id p1 /\
  Player.id (collidePair p1 p2).2 = Player.id p2.
Proof.
  unfold collidePair.
  destruct (Player.isAlive p1 && Player.isAlive p2); [|split; reflexivity].
  destruct (decide _); split; reflexivity.
Qed.

(** C3, as the code has it.  For two alive tanks closer than
    [2 * TANK_RADIUS] whose centres differ, with [d] their distance:
    each is moved by half the overlap, [(2 * TANK_RADIUS - d) / 2],
    along the direction from [p2] to [p1], [p1] forwards and [p2]
    backwards, which puts them [2 * TANK_RADIUS] apart; and the velocity
    of each is changed by [(d + 2 * TANK_RADIUS) * 0.1] along the same
    line, but for [p1] against that direction and for [p2] with it.
    So each velocity is nudged towards the other tank, not away from
    it. *)
Theorem collision_response (p1 p2 : Player.t) :
  overlapping p1 p2 -> 0 < centre_distance p1 p2 ->
  let dx := Player.x p1 - Player.x p2 in
  let dy := Player.y p1 - Player.y p2 in
  let d := centre_distance p1 p2 in
  let overlap := (2 * TANK_RADIUS - d) / 2 in
  let pull := (d + 2 * TANK_RADIUS) * 0.1 in
  let q1 := (collidePair p1 p2).1 in
  let q2 := (collidePair p1 p2).2 in
  Player.x q1 - Player.x p1 = dx / d * overlap /\
  Player.y q1 - Player.y p1 = dy / d * overlap /\
  Player.x q2 - Player.x p2 = - (dx / d * overlap) /\
  Player.y q2 - Player.y p2 = - (dy / d * overlap) /\
  0 < overlap /\
  centre_distance q1 q2 = 2 * TANK_RADIUS /\
  Player.vx q1 - Player.vx p1 = - (dx / d * pull) /\
  Player.vy q1 - Player.vy p1 = - (dy / d * pull) /\
  Player.vx q2 - Player.vx p2 = dx / d * pull /\
  Player.vy q2 - Player.vy p2 = dy / d * pull /\
  (Player.vx q1 - Player.vx p1) * dx + (Player.vy q1 - Player.vy p1) * dy < 0 /\
  (Player.vx q2 - Player.vx p2) * (- dx) + (Player.vy q2 - Player.vy p2) * (- dy) < 0.
Proof.
  intros Ho Hd dx dy d overlap pull q1 q2.
  destruct (collidePair_unit p1 p2 Ho Hd)
    as (Hx1 & Hy1 & Hx2 & Hy2 & Hvx1 & Hvy1 & Hvx2 & Hvy2).
  fold d dx dy overlap pull q1 q2 in Hx1, Hy1, Hx2, Hy2, Hvx1, Hvy1, Hvx2, Hvy2.
  pose proof (centre_distance_sqr p1 p2) as Hsq. fold d dx dy in Hsq.
  assert (Hlt : d < 2 * TANK_RADIUS) by (destruct Ho as (_ & _ & Ho); exact Ho).
  assert (Hd' : 0 < d) by exact Hd.
  assert (Hover : 0 < overlap) by (unfold overlap; lra).
  assert (Hpull : 0 < pull) by (unfold pull, TANK_RADIUS; lra).
  assert (Hdot : dx / d * dx + dy / d * dy = d).
  { replace (dx / d * dx + dy / d * dy) with ((dx * dx + dy * dy) / d)
      by (field; lra).
    rewrite <- Hsq. field. lra. }
  split; [lra|]. split; [lra|]. split; [lra|]. split; [lra|].
  split; [exact Hover|]. split.
  - unfold centre_distance, Math.sqrt. rewrite Hx1, Hy1, Hx2, Hy2.
    apply sqrt_lem_1.
    + match goal with |- 0 <= ?a * ?a + ?b * ?b =>
        pose proof (Rle_0_sqr a); pose proof (Rle_0_sqr b);
        unfold Rsqr in *; lra end.
    + unfold TANK_RADIUS. lra.
    + replace (Player.x p1 + dx / d * overlap - (Player.x p2 - dx / d * overlap))
        with (dx / d * (2 * TANK_RADIUS)) by (unfold overlap, dx; field; lra).
      replace (Player.y p1 + dy / d * overlap - (Player.y p2 - dy / d * overlap))
        with (dy / d * (2 * TANK_RADIUS)) by (unfold overlap, dy; field; lra).
      replace (dx / d * (2 * TANK_RADIUS) * (dx / d * (2 * TANK_RADIUS)) +
               dy / d * (2 * TANK_RADIUS) * (dy / d * (2 * TANK_RADIUS)))
        with ((dx * dx + dy * dy) / (d * d) * (2 * TANK_RADIUS * (2 * TANK_RADIUS)))
        by (field; lra).
      rewrite <- Hsq. field. lra.
  - split; [lra|]. split; [lra|]. split; [lra|]. split; [lra|].
    rewrite Hvx1, Hvy1, Hvx2, Hvy2.
    replace ((Player.vx p1 - dx / d * pull - Player.vx p1) * dx +
             (Player.vy p1 - dy / d * pull - Player.vy p1) * dy)
      with (- (pull * (dx / d * dx + dy / d * dy))) by (field; lra).
    replace ((Player.vx p2 + dx / d * pull - Player.vx p2) * - dx +
             (Player.vy p2 + dy / d * pull - Player.vy p2) * - dy)
      with (- (pull * (dx / d * dx + dy / d * dy))) by (field; lra).
    rewrite Hdot. split; nra.
Qed.

End CollisionResponse.

(** ** Tanks side by side *)

Section Row.
Local Open Scope R_scope.

Lemma centre_distance_row (p1 p2 : Player.t) :
  Player.y p1 = Player.y p2 ->
  centre_distance p1 p2 = Rabs (Player.x p1 - Player.x p2).
Proof.
  intros Hy. unfold centre_distance, Math.sqrt. rewrite Hy.
  replace ((Player.x p1 - Player.x p2) * (Player.x p1 - Player.x p2) +
           (Player.y p2 - Player.y p2) * (Player.y p2 - Player.y p2))
    with ((Player.x p1 - Player.x p2)²) by (unfold Rsqr; ring).
  apply sqrt_Rsqr_abs.
Qed.

(** [p1] to the right of [p2], on the same row, overlapping. *)
Lemma collidePair_row_right (p1 p2 : Player.t) :
  Player.isAlive p1 = true -> Player.isAlive p2 = true ->
  Player.y p1 = Player.y p2 ->
  0 < Player.x p1 - Player.x p2 < 2 * TANK_RADIUS ->
  let dx := Player.x p1 - Player.x p2 in
  let q1 := (collidePair p1 p2).1 in
  let q2 := (collidePair p1 p2).2 in
  Player.x q1 = Player.x p1 + (30 - dx) / 2 /\
  Player.x q2 = Player.x p2 - (30 - dx) / 2 /\
  Player.y q1 = Player.y p1 /\ Player.y q2 = Player.y p2 /\
  Player.vx q1 = Player.vx p1 - (dx + 30) * 0.1 /\
  Player.vx q2 = Player.vx p2 + (dx + 30) * 0.1 /\
  Player.vy q1 = Player.vy p1 /\ Player.vy q2 = Player.vy p2 /\
  Player.isAlive q1 = true /\ Player.isAlive q2 = true.
Proof.
  intros H1 H2 Hy Hdx dx q1 q2.
  pose proof (centre_distance_row p1 p2 Hy) as Hd.
  rewrite Rabs_right in Hd by lra. fold dx in Hd, Hdx.
  assert (Ho : overlapping p1 p2) by (repeat split; try assumption; lra).
  destruct (collidePair_unit p1 p2 Ho ltac:(lra))
    as (Hx1 & Hy1 & Hx2 & Hy2 & Hvx1 & Hvy1 & Hvx2 & Hvy2).
  pose proof (collidePair_status p1 p2) as (_ & Ha1 & _ & Ha2).
  fold q1 q2 in Hx1, Hy1, Hx2, Hy2, Hvx1, Hvy1, Hvx2, Hvy2, Ha1, Ha2.
  rewrite Hd in *. fold dx in Hx1, Hx2, Hvx1, Hvx2.
  rewrite Hy in Hy1, Hy2, Hvy1, Hvy2.
  replace (Player.y p2 - Player.y p2) with 0 in * by ring.
  replace (dx / dx) with 1 in * by (field; lra).
  unfold TANK_RADIUS in *.
  rewrite Hx1, Hx2, Hy1, Hy2, Hvx1, Hvx2, Hvy1, Hvy2, Ha1, Ha2, Hy.
  repeat split; try assumption; field; lra.
Qed.

(** [p1] to the left of [p2], on the same row, overlapping. *)
Lemma collidePair_row_left (p1 p2 : Player.t) :
  Player.isAlive p1 = true -> Player.isAlive p2 = true ->
  Player.y p1 = Player.y p2 ->
  0 < Player.x p2 - Player.x p1 < 2 * TANK_RADIUS ->
  let dx := Player.x p2 - Player.x p1 in
  let q1 := (collidePair p1 p2).1 in
  let q2 := (collidePair p1 p2).2 in
  Player.x q1 = Player.x p1 - (30 - dx) / 2 /\
  Player.x q2 = Player.x p2 + (30 - dx) / 2 /\
  Player.y q1 = Player.y p1 /\ Player.y q2 = Player.y p2 /\
  Player.vx q1 = Player.vx p1 + (dx + 30) * 0.1 /\
  Player.vx q2 = Player.vx p2 - (dx + 30) * 0.1 /\
  Player.vy q1 = Player.vy p1 /\ Player.vy q2 = Player.vy p2 /\
  Player.isAlive q1 = true /\ Player.isAlive q2 = true.
Proof.
  intros H1 H2 Hy Hdx dx q1 q2.
  pose proof (centre_distance_row p1 p2 Hy) as Hd.
  rewrite Rabs_left in Hd by lra.
  replace (- (Player.x p1 - Player.x p2)) with dx in Hd by (unfold dx; ring).
  fold dx in Hdx.
  assert (Ho : overlapping p1 p2) by (repeat split; try assumption; lra).
  destruct (collidePair_unit p1 p2 Ho ltac:(lra))
    as (Hx1 & Hy1 & Hx2 & Hy2 & Hvx1 & Hvy1 & Hvx2 & Hvy2).
  pose proof (collidePair_status p1 p2) as (_ & Ha1 & _ & Ha2).
  fold q1 q2 in Hx1, Hy1, Hx2, Hy2, Hvx1, Hvy1, Hvx2, Hvy2, Ha1, Ha2.
  rewrite Hd in *.
  replace (Player.x p1 - Player.x p2) with (- dx) in * by (unfold dx; ring).
  rewrite Hy in Hy1, Hy2, Hvy1, Hvy2.
  replace (Player.y p2 - Player.y p2) with 0 in * by ring.
  replace (- dx / dx) with (-1) in * by (field; lra).
  unfold TANK_RADIUS in *.
  rewrite Hx1, Hx2, Hy1, Hy2, Hvx1, Hvx2, Hvy1, Hvy2, Ha1, Ha2, Hy.
  repeat split; try assumption; field; lra.
Qed.

(** Too far apart on the same row. *)
Lemma collidePair_row_apart (p1 p2 : Player.t) :
  Player.y p1 = Player.y p2 ->
  2 * TANK_RADIUS <= Rabs (Player.x p1 - Player.x p2) ->
  collidePair p1 p2 = (p1, p2).
Proof.
  intros Hy Hdx. apply collidePair_apart. intros (_ & _ & Hd).
  rewrite centre_distance_row in Hd by exact Hy. lra.
Qed.

End Row.

(** The tank [p1 = (100, 100)] overlapping [p2 = (90, 100)], both at
    rest: [p1] is pushed to [110] and [p2] to [80], and the velocities
    become [-4] for [p1] and [4] for [p2]. *)
Lemma collision_response_witness :
  let p1 := Player.new "a" 100 100 in
  let p2 := Player.new "b" 90 100 in
  Player.x (collidePair p1 p2).1 = 110%R /\
  Player.x (collidePair p1 p2).2 = 80%R /\
  Player.vx (collidePair p1 p2).1 = (-4)%R /\
  Player.vx (collidePair p1 p2).2 = 4%R.
Proof.
  intros p1 p2.
  assert (Hd : centre_distance p1 p2 = 10%R).
  { rewrite centre_distance_row by reflexivity. simpl.
    rewrite Rabs_right; lra. }
  assert (Ho : overlapping p1 p2).
  { split; [reflexivity|]. split; [reflexivity|].
    rewrite Hd. unfold TANK_RADIUS. lra. }
  assert (Hpos : (0 < centre_distance p1 p2)%R) by (rewrite Hd; lra).
  destruct (collision_response p1 p2 Ho Hpos)
    as (Hx1 & _ & Hx2 & _ & _ & _ & Hv1 & _ & Hv2 & _).
  rewrite Hd in Hx1, Hx2, Hv1, Hv2.
  change (Player.x p1 - Player.x p2)%R with (100 - 90)%R in Hx1, Hx2, Hv1, Hv2.
  change (Player.x p1) with 100%R in Hx1.
  change (Player.x p2) with 90%R in Hx2.
  change (Player.vx p1) with 0%R in Hv1.
  change (Player.vx p2) with 0%R in Hv2.
  unfold TANK_RADIUS in *.
  repeat split; lra.
Defined.

(** ** One run of [gameLoop] with two tanks at the wall *)

Lemma tankCollisions_2 (p q : Player.t) :
  tankCollisions [p; q] = [(collidePair p q).1; (collidePair p q).2].
Proof.
  unfold tankCollisions. simpl. unfold collide. simpl.
  destruct (collidePair p q). reflexivity.
Qed.

Lemma update_phase_resting (deltaTime : R) (rd : Readings) (ps : list Player.t) :
  Forall resting ps ->
  imap (fun k player =>
          Player.update deltaTime (updateNow rd k)
            (updateRandom rd k).1 (updateRandom rd k).2 player) ps = ps.
Proof.
  intros H. apply list_eq. intros k. rewrite list_lookup_imap.
  destruct (ps !! k) as [p|] eqn:Hp; [|reflexivity]. simpl. f_equal.
  destruct (Forall_lookup_1 _ _ _ _ H Hp) as (Ha & Hvx & Hvy & Hang & Hin).
  apply update_at_rest; assumption.
Qed.

Lemma resting_new (id0 : string) (x0 y0 : R) :
  (TANK_RADIUS <= x0 <= ARENA_WIDTH - TANK_RADIUS)%R ->
  (TANK_RADIUS <= y0 <= ARENA_HEIGHT - TANK_RADIUS)%R ->
  resting (Player.new id0 x0 y0).
Proof. intros Hx Hy. repeat split; simpl; lra. Qed.

Lemma gameLoop_resting_pair (rd : Readings) (w : World) (a b : Player.t) :
  players w = [a; b] -> bullets w = [] -> resting a -> resting b ->
  players (gameLoop rd w).2 = [(collidePair a b).1; (collidePair a b).2] /\
  s_players (gameLoop rd w).1
  = [(Player.id (collidePair a b).1, Player.toJSON (collidePair a b).1);
     (Player.id (collidePair a b).2, Player.toJSON (collidePair a b).2)].
Proof.
  intros Hps Hbs Ha Hb. unfold gameLoop.
  rewrite update_phase_resting
    by (rewrite Hps; repeat (apply List.Forall_cons; [assumption|]);
        apply List.Forall_nil).
  rewrite Hps, Hbs. simpl bulletLoop. cbv iota beta.
  rewrite tankCollisions_2. split; reflexivity.
Qed.

(** C2 fails on the code.  Two tanks at rest inside the arena, [a] on
    the right wall at [x = 1185] and [b] at [x = 1180]: [update] leaves
    both where they are, the tank-to-tank test then pushes [a] to
    [x = 1197.5], and this is the position in the [state] broadcast of
    the same run and in the world it leaves. *)
Theorem snapshot_outside_arena :
  let a := Player.new "a" 1185 100 in
  let b := Player.new "b" 1180 100 in
  let w := {| players := [a; b]; bullets := []; lastRepairTime := ∅;
              lastUpdate := 0 |} in
  in_arena a /\ in_arena b /\
  exists (ja jb : Player.json) (a' b' : Player.t),
    s_players (gameLoop (steady 8) w).1 = [("a", ja); ("b", jb)] /\
    players (gameLoop (steady 8) w).2 = [a'; b'] /\
    Player.j_isAlive ja = true /\
    Player.j_x ja = 1197.5%R /\ Player.x a' = 1197.5%R /\
    (ARENA_WIDTH - TANK_RADIUS < Player.j_x ja)%R /\
    ~ in_arena a'.
Proof.
  intros a b w.
  assert (Hra : resting a)
    by (apply resting_new; unfold TANK_RADIUS, ARENA_WIDTH, ARENA_HEIGHT; lra).
  assert (Hrb : resting b)
    by (apply resting_new; unfold TANK_RADIUS, ARENA_WIDTH, ARENA_HEIGHT; lra).
  split; [apply Hra|]. split; [apply Hrb|].
  destruct (gameLoop_resting_pair (steady 8) w a b eq_refl eq_refl Hra Hrb)
    as [Hw Hs].
  destruct (collidePair_row_right a b) as (Hx & _ & _ & _ & _ & _ & _ & _ & Hal & _);
    [reflexivity | reflexivity | reflexivity
     | simpl; unfold TANK_RADIUS; lra |].
  destruct (collidePair_ids a b) as [Hi1 Hi2].
  change (Player.x a - Player.x b)%R with (1185 - 1180)%R in Hx.
  change (Player.x a) with 1185%R in Hx.
  assert (Hxa : Player.x (collidePair a b).1 = 1197.5%R) by (rewrite Hx; lra).
  eexists _, _, _, _. split; [rewrite Hs, Hi1, Hi2; reflexivity|].
  split; [exact Hw|]. split; [exact Hal|].
  split; [exact Hxa|]. split; [exact Hxa|].
  split.
  - simpl. rewrite Hxa. unfold ARENA_WIDTH, TANK_RADIUS. lra.
  - intros [[_ Hin] _]. rewrite Hxa in Hin.
    unfold ARENA_WIDTH, TANK_RADIUS in Hin. lra.
Qed.

(** ** Which pairs the tank-to-tank loops visit, and in what order *)

Lemma fold_left_equal {A B : Type} (f g : A -> B -> A) (l : list B) :
  (forall a b, f a b = g a b) ->
  forall a, fold_left f l a = fold_left g l a.
Proof.
  intros Hfg. induction l as [|b l IH]; intros a; simpl; [reflexivity|].
  rewrite Hfg. apply IH.
Qed.

Lemma fold_left_fmap {A B C : Type} (f : A -> C -> A) (h : B -> C)
    (l : list B) :
  forall a, fold_left f (h <$> l) a = fold_left (fun a' b => f a' (h b)) l a.
Proof. induction l as [|b l IH]; intros a; simpl; [reflexivity | apply IH]. Qed.

Lemma fold_left_bind {A B C : Type} (f : A -> C -> A) (g : B -> list C)
    (l : list B) :
  forall a,
    fold_left f (l ≫= g) a = fold_left (fun a' b => fold_left f (g b) a') l a.
Proof.
  induction l as [|b l IH]; intros a; [reflexivity|].
  rewrite bind_cons, fold_left_app. simpl. apply IH.
Qed.

Lemma tankCollisions_pairs (ps : list Player.t) :
  tankCollisions ps = collideAll (pairs (length ps)) ps.
Proof.
  unfold tankCollisions, collideAll, pairs. rewrite fold_left_bind.
  apply fold_left_equal. intros arr i. rewrite fold_left_fmap. reflexivity.
Qed.

Lemma elem_of_pairs (n i j : nat) : (i, j) ∈ pairs n <-> (i < j < n)%nat.
Proof.
  unfold pairs. rewrite list_elem_of_bind. split.
  - intros (i' & Hj & Hi). apply list_elem_of_fmap in Hj as (j' & Heq & Hj).
    injection Heq as -> ->. apply elem_of_seq in Hj, Hi. lia.
  - intros Hij. exists i. split.
    + apply list_elem_of_fmap. exists j. split; [reflexivity|].
      apply elem_of_seq. lia.
    + apply elem_of_seq. lia.
Qed.

Lemma NoDup_pairs (n : nat) : NoDup (pairs n).
Proof.
  unfold pairs. apply NoDup_bind.
  - intros i1 i2 [i j] _ _ H1 H2.
    apply list_elem_of_fmap in H1 as (j1 & E1 & _).
    apply list_elem_of_fmap in H2 as (j2 & E2 & _). congruence.
  - intros i _. apply NoDup_fmap_2; [|apply NoDup_seq].
    intros j1 j2 E. congruence.
  - apply NoDup_seq.
Qed.

(** C5, as the code has it.  In the tank-to-tank test the change of
    position of [p1] is the negation of the change of position of
    [p2], and the same holds for the change of velocity (both changes
    are zero when the tanks do not overlap or one is dead).
    [gameLoop] runs the test on the pairs [(i, j)] with [i < j] of
    [playerArray], each exactly once, in the order of [pairs]. *)
Theorem collision_symmetry :
  (forall p1 p2 : Player.t,
     let q1 := (collidePair p1 p2).1 in
     let q2 := (collidePair p1 p2).2 in
     (Player.x q1 - Player.x p1 = - (Player.x q2 - Player.x p2))%R /\
     (Player.y q1 - Player.y p1 = - (Player.y q2 - Player.y p2))%R /\
     (Player.vx q1 - Player.vx p1 = - (Player.vx q2 - Player.vx p2))%R /\
     (Player.vy q1 - Player.vy p1 = - (Player.vy q2 - Player.vy p2))%R) /\
  (forall p1 p2 : Player.t,
     ~ overlapping p1 p2 -> collidePair p1 p2 = (p1, p2)) /\
  (forall ps : list Player.t,
     tankCollisions ps = collideAll (pairs (length ps)) ps) /\
  (forall n : nat, NoDup (pairs n)) /\
  (forall n i j : nat, (i, j) ∈ pairs n <-> (i < j < n)%nat).
Proof.
  split; [|split; [|split; [|split]]].
  - intros p1 p2. unfold collidePair.
    destruct (Player.isAlive p1 && Player.isAlive p2);
      [destruct (decide _)|]; simpl; repeat split; lra.
  - apply collidePair_apart.
  - apply tankCollisions_pairs.
  - apply NoDup_pairs.
  - apply elem_of_pairs.
Qed.

Lemma pairs_3 : pairs 3 = [(0, 1); (0, 2); (1, 2)]%nat.
Proof. reflexivity. Qed.

(** Facts about the two tanks after the test, in the shape the next
    round needs them. *)
Lemma row_left_step (p1 p2 : Player.t) (x1 x2 y0 : R) :
  Player.isAlive p1 = true -> Player.isAlive p2 = true ->
  Player.x p1 = x1 -> Player.x p2 = x2 ->
  Player.y p1 = y0 -> Player.y p2 = y0 ->
  (0 < x2 - x1 < 30)%R ->
  exists q1 q2,
    collidePair p1 p2 = (q1, q2) /\
    Player.isAlive q1 = true /\ Player.isAlive q2 = true /\
    Player.x q1 = (x1 - (30 - (x2 - x1)) / 2)%R /\
    Player.x q2 = (x2 + (30 - (x2 - x1)) / 2)%R /\
    Player.y q1 = y0 /\ Player.y q2 = y0.
Proof.
  intros H1 H2 Hx1 Hx2 Hy1 Hy2 Hd.
  destruct (collidePair_row_left p1 p2 H1 H2)
    as (Ex1 & Ex2 & Ey1 & Ey2 & _ & _ & _ & _ & Ea1 & Ea2);
    [congruence | rewrite Hx1, Hx2; unfold TANK_RADIUS; lra |].
  destruct (collidePair p1 p2) as [q1 q2]. simpl in *.
  exists q1, q2. rewrite Hx1, Hx2 in *.
  repeat split; congruence.
Qed.

Lemma row_apart_step (p1 p2 : Player.t) (x1 x2 y0 : R) :
  Player.x p1 = x1 -> Player.x p2 = x2 ->
  Player.y p1 = y0 -> Player.y p2 = y0 ->
  (30 <= x2 - x1)%R ->
  collidePair p1 p2 = (p1, p2).
Proof.
  intros Hx1 Hx2 Hy1 Hy2 Hd. apply collidePair_row_apart; [congruence|].
  rewrite Hx1, Hx2, Rabs_left; unfold TANK_RADIUS; lra.
Qed.

Lemma collide_3 (p q r : Player.t) :
  collide 0 1 [p; q; r] = [(collidePair p q).1; (collidePair p q).2; r] /\
  collide 0 2 [p; q; r] = [(collidePair p r).1; q; (collidePair p r).2] /\
  collide 1 2 [p; q; r] = [p; (collidePair q r).1; (collidePair q r).2].
Proof.
  unfold collide. simpl.
  destruct (collidePair p q), (collidePair p r), (collidePair q r).
  repeat split.
Qed.

Lemma collide_3_01 (p q r : Player.t) :
  collide 0 1 [p; q; r] = [(collidePair p q).1; (collidePair p q).2; r].
Proof. apply collide_3. Qed.

Lemma collide_3_02 (p q r : Player.t) :
  collide 0 2 [p; q; r] = [(collidePair p r).1; q; (collidePair p r).2].
Proof. apply collide_3. Qed.

Lemma collide_3_12 (p q r : Player.t) :
  collide 1 2 [p; q; r] = [p; (collidePair q r).1; (collidePair q r).2].
Proof. apply collide_3. Qed.

Lemma row_right_step (p1 p2 : Player.t) (x1 x2 y0 : R) :
  Player.isAlive p1 = true -> Player.isAlive p2 = true ->
  Player.x p1 = x1 -> Player.x p2 = x2 ->
  Player.y p1 = y0 -> Player.y p2 = y0 ->
  (0 < x1 - x2 < 30)%R ->
  exists q1 q2,
    collidePair p1 p2 = (q1, q2) /\
    Player.isAlive q1 = true /\ Player.isAlive q2 = true /\
    Player.x q1 = (x1 + (30 - (x1 - x2)) / 2)%R /\
    Player.x q2 = (x2 - (30 - (x1 - x2)) / 2)%R /\
    Player.y q1 = y0 /\ Player.y q2 = y0.
Proof.
  intros H1 H2 Hx1 Hx2 Hy1 Hy2 Hd.
  destruct (collidePair_row_right p1 p2 H1 H2)
    as (Ex1 & Ex2 & Ey1 & Ey2 & _ & _ & _ & _ & Ea1 & Ea2);
    [congruence | rewrite Hx1, Hx2; unfold TANK_RADIUS; lra |].
  destruct (collidePair p1 p2) as [q1 q2]. simpl in *.
  exists q1, q2. rewrite Hx1, Hx2 in *.
  repeat split; congruence.
Qed.

Lemma row_apart_step_right (p1 p2 : Player.t) (x1 x2 y0 : R) :
  Player.x p1 = x1 -> Player.x p2 = x2 ->
  Player.y p1 = y0 -> Player.y p2 = y0 ->
  (30 <= x1 - x2)%R ->
  collidePair p1 p2 = (p1, p2).
Proof.
  intros Hx1 Hx2 Hy1 Hy2 Hd. apply collidePair_row_apart; [congruence|].
  rewrite Hx1, Hx2, Rabs_right; unfold TANK_RADIUS; lra.
Qed.

(** C5 as the specification words it fails: the result depends on the
    order in which the pairs are taken.  Three tanks in a row at
    [x = 100], [120] and [140]: the order of [gameLoop] leaves the
    middle one at [x = 117.5]; the same three pairs taken with [(1, 2)]
    first and [(0, 1)] last leave it at [x = 122.5]; and so does
    [gameLoop] itself when the same three tanks stand in the registry
    in the opposite order. *)
Lemma collision_order_counterexample :
  let a := Player.new "a" 100 100 in
  let b := Player.new "b" 120 100 in
  let c := Player.new "c" 140 100 in
  let other := [(1, 2); (0, 2); (0, 1)]%nat in
  other ≡ₚ pairs 3 /\
  exists b1 b2 b3,
    tankCollisions [a; b; c] !! 1%nat = Some b1 /\
    collideAll other [a; b; c] !! 1%nat = Some b2 /\
    tankCollisions [c; b; a] !! 1%nat = Some b3 /\
    Player.id b1 = "b" /\ Player.id b2 = "b" /\ Player.id b3 = "b" /\
    Player.x b1 = 117.5%R /\ Player.x b2 = 122.5%R /\
    Player.x b3 = 122.5%R /\
    collideAll other [a; b; c] <> tankCollisions [a; b; c].
Proof.
  intros a b c other. split.
  { subst other. rewrite pairs_3.
    exact (reverse_Permutation [(0, 1); (0, 2); (1, 2)]%nat). }
  assert (Hcode : exists a1 b1 c1,
            tankCollisions [a; b; c] = [a1; b1; c1] /\
            Player.x b1 = 117.5%R /\ Player.id b1 = "b").
  { rewrite tankCollisions_pairs. simpl length. rewrite pairs_3.
    unfold collideAll. simpl fold_left.
    rewrite collide_3_01.
    pose proof (collidePair_ids a b) as [_ Hid].
    destruct (row_left_step a b 100 120 100)
      as (a1 & b1 & E & Ha1 & Hb1 & Hxa1 & Hxb1 & Hya1 & Hyb1);
      [reflexivity.. | lra |].
    rewrite E in Hid |- *. cbn [fst snd] in Hid |- *.
    rewrite collide_3_02.
    rewrite (row_apart_step a1 c _ 140 100 Hxa1)
      by (try reflexivity; try assumption; lra).
    cbn [fst snd].
    rewrite collide_3_12.
    pose proof (collidePair_ids b1 c) as [Hid2 _].
    destruct (row_left_step b1 c _ 140 100 Hb1 eq_refl Hxb1)
      as (b2 & c2 & E2 & _ & _ & Hxb2 & _);
      [reflexivity | assumption | reflexivity | lra |].
    rewrite E2 in Hid2 |- *. cbn [fst snd] in Hid2 |- *.
    exists a1, b2, c2. split; [reflexivity|].
    split; [rewrite Hxb2; lra | rewrite Hid2, Hid; reflexivity]. }
  assert (Hother : exists a1 b1 c1,
            collideAll other [a; b; c] = [a1; b1; c1] /\
            Player.x b1 = 122.5%R /\ Player.id b1 = "b").
  { subst other. unfold collideAll. simpl fold_left.
    rewrite collide_3_12.
    pose proof (collidePair_ids b c) as [Hid _].
    destruct (row_left_step b c 120 140 100)
      as (b1 & c1 & E & Hb1 & Hc1 & Hxb1 & Hxc1 & Hyb1 & Hyc1);
      [reflexivity.. | lra |].
    rewrite E in Hid |- *. cbn [fst snd] in Hid |- *.
    rewrite collide_3_02.
    rewrite (row_apart_step a c1 100 _ 100 eq_refl Hxc1)
      by (try reflexivity; try assumption; lra).
    cbn [fst snd].
    rewrite collide_3_01.
    pose proof (collidePair_ids a b1) as [_ Hid2].
    destruct (row_left_step a b1 100 _ 100 eq_refl Hb1 eq_refl Hxb1)
      as (a2 & b2 & E2 & _ & _ & _ & Hxb2 & _);
      [reflexivity | assumption | lra |].
    rewrite E2 in Hid2 |- *. cbn [fst snd] in Hid2 |- *.
    exists a2, b2, c1. split; [reflexivity|].
    split; [rewrite Hxb2; lra | rewrite Hid2, Hid; reflexivity]. }
  assert (Hswap : exists c1 b1 a1,
            tankCollisions [c; b; a] = [c1; b1; a1] /\
            Player.x b1 = 122.5%R /\ Player.id b1 = "b").
  { rewrite tankCollisions_pairs. simpl length. rewrite pairs_3.
    unfold collideAll. simpl fold_left.
    rewrite collide_3_01.
    pose proof (collidePair_ids c b) as [_ Hid].
    destruct (row_right_step c b 140 120 100)
      as (c1 & b1 & E & Hc1 & Hb1 & Hxc1 & Hxb1 & Hyc1 & Hyb1);
      [reflexivity.. | lra |].
    rewrite E in Hid |- *. cbn [fst snd] in Hid |- *.
    rewrite collide_3_02.
    rewrite (row_apart_step_right c1 a _ 100 100 Hxc1)
      by (try reflexivity; try assumption; lra).
    cbn [fst snd].
    rewrite collide_3_12.
    pose proof (collidePair_ids b1 a) as [Hid2 _].
    destruct (row_right_step b1 a _ 100 100 Hb1 eq_refl Hxb1)
      as (b2 & a2 & E2 & _ & _ & Hxb2 & _);
      [reflexivity | assumption | reflexivity | lra |].
    rewrite E2 in Hid2 |- *. cbn [fst snd] in Hid2 |- *.
    exists c1, b2, a2. split; [reflexivity|].
    split; [rewrite Hxb2; lra | rewrite Hid2, Hid; reflexivity]. }
  destruct Hcode as (a1 & b1 & c1 & Hc & Hxb1 & Hib1).
  destruct Hother as (a2 & b2 & c2 & Ho & Hxb2 & Hib2).
  destruct Hswap as (c3 & b3 & a3 & Hs & Hxb3 & Hib3).
  exists b1, b2, b3. rewrite Hc, Ho, Hs.
  do 3 (split; [reflexivity|]).
  do 6 (split; [assumption|]).
  intros E. injection E as _ Eb _. rewrite Eb in Hxb2. lra.
Qed.

(** ** A bullet past its lifetime *)

Lemma Bullet_update_kept (deltaTime : R) (now0 : Z) (b : Bullet.t) :
  ~ out_of_bounds (Bullet.update deltaTime now0 b).1 ->
  (now0 - Bullet.createdAt b <= BULLET_LIFETIME)%Z ->
  (Bullet.update deltaTime now0 b).2 = true.
Proof.
  intros Hin Hage.
  destruct (Bullet.update deltaTime now0 b).2 eqn:Hk; [reflexivity|].
  apply Bullet_update_expired in Hk as [Hout|Hold]; [contradiction | lia].
Qed.

Lemma bulletLoop_own (deltaTime : R) (rd : Readings) (i : nat)
    (b : Bullet.t) (tank : Player.t) :
  Bullet.owner b = Player.id tank ->
  (Bullet.update deltaTime (bulletNow rd i) b).2 = true ->
  bulletLoop deltaTime rd i [b] [tank]
  = ([(Bullet.update deltaTime (bulletNow rd i) b).1], [tank]).
Proof.
  intros Hown Hkeep. cbn [bulletLoop].
  pose proof (Bullet_update_moves deltaTime (bulletNow rd i) b) as Hm.
  destruct (Bullet.update deltaTime (bulletNow rd i) b) as [b1 keep].
  simpl in Hkeep, Hm. subst keep. cbn [negb fst].
  assert (Hmiss : list_find (hits b1) [tank] = None).
  { apply list_find_None. apply List.Forall_cons; [|apply List.Forall_nil].
    intros (_ & Hne & _). apply Hne. rewrite Hm. simpl. congruence. }
  rewrite Hmiss. reflexivity.
Qed.

Lemma gameLoop_own_bullet (rd : Readings) (w : World) (tank : Player.t)
    (b : Bullet.t) :
  players w = [tank] -> bullets w = [b] -> resting tank ->
  Bullet.owner b = Player.id tank ->
  let deltaTime := (IZR (now rd - lastUpdate w) / 1000)%R in
  (Bullet.update deltaTime (bulletNow rd 0) b).2 = true ->
  (gameLoop rd w).1
  = {| s_players := [(Player.id tank, Player.toJSON tank)];
       s_bullets := [Bullet.toJSON (Bullet.update deltaTime (bulletNow rd 0) b).1];
       s_timestamp := timestamp rd |} /\
  (gameLoop rd w).2
  = {| players := [tank];
       bullets := sweep (nowTime rd) [(Bullet.update deltaTime (bulletNow rd 0) b).1];
       lastRepairTime := lastRepairTime w; lastUpdate := now rd |}.
Proof.
  intros Hps Hbs Hrest Hown deltaTime Hkeep. unfold gameLoop.
  rewrite update_phase_resting
    by (rewrite Hps; apply List.Forall_cons; [exact Hrest | apply List.Forall_nil]).
  rewrite Hps, Hbs. fold deltaTime.
  rewrite (bulletLoop_own deltaTime rd 0 b tank Hown Hkeep).
  split; reflexivity.
Qed.

(** C8 as the specification words it, absent at any query after
    [t0 + BULLET_LIFETIME], fails: bullets are removed only by runs of
    [gameLoop], on the clocks those read.  A bullet made at 1000 ms
    that has hit nothing is in the broadcast stamped 3001 ms of a run
    whose bullet loop read 3000 ms; and after a run whose every clock
    read 3000 ms it is still in the world, where a shot handled at
    3005 ms, before the next run, is put next to it. *)
Lemma bullet_expiry_counterexample :
  let tank := (Player.shoot 1000 1000 (Player.new "tank" 600 350)).2 in
  let b := {| Bullet.x := 690; Bullet.y := 350; Bullet.vx := 35; Bullet.vy := 0;
              Bullet.owner := "tank"; Bullet.createdAt := 1000;
              Bullet.angle := 0 |} in
  let w := {| players := [tank]; bullets := [b]; lastRepairTime := ∅;
              lastUpdate := 2992 |} in
  let rd := {| now := 3000; updateNow := fun _ => 3000%Z;
               updateRandom := fun _ => (0.5%R, 0.5%R);
               bulletNow := fun _ => 3000%Z; dieNow := fun _ => 3000%Z;
               timestamp := 3001; nowTime := 3001 |} in
  let w1 := (gameLoop (steady 3000) w).2 in
  let w2 := handle (MsgShoot "tank" 3005 3005 3005) w1 in
  (1000 + BULLET_LIFETIME < s_timestamp (gameLoop rd w).1)%Z /\
  (exists j,
     s_bullets (gameLoop rd w).1 = [j] /\ Bullet.j_owner j = "tank") /\
  (exists b' fired,
     bullets w1 = [b'] /\ bullets w2 = [b'; fired] /\
     Bullet.createdAt b' = 1000%Z /\ Bullet.createdAt fired = 3005%Z /\
     (1000 + BULLET_LIFETIME < Bullet.createdAt fired)%Z).
Proof.
  intros tank b w rd w1 w2.
  assert (Hrest : resting tank).
  { unfold resting, in_arena, tank, TANK_RADIUS, ARENA_WIDTH, ARENA_HEIGHT.
    simpl. repeat split; lra. }
  assert (Hkeep : forall rd0 : Readings,
            now rd0 = 3000%Z -> bulletNow rd0 0%nat = 3000%Z ->
            (Bullet.update (IZR (now rd0 - lastUpdate w) / 1000)
               (bulletNow rd0 0) b).2 = true).
  { intros rd0 Hn Hb. rewrite Hn, Hb. apply Bullet_update_kept.
    - rewrite Bullet_update_moves.
      unfold out_of_bounds, ARENA_WIDTH, ARENA_HEIGHT. simpl.
      replace (3000 - 2992)%Z with 8%Z by lia. lra.
    - simpl. unfold BULLET_LIFETIME. lia. }
  destruct (gameLoop_own_bullet rd w tank b eq_refl eq_refl Hrest eq_refl
              (Hkeep rd eq_refl eq_refl)) as [Hs _].
  destruct (gameLoop_own_bullet (steady 3000) w tank b eq_refl eq_refl Hrest
              eq_refl (Hkeep (steady 3000) eq_refl eq_refl)) as [_ Hw].
  split; [rewrite Hs; simpl; unfold BULLET_LIFETIME; lia|].
  split.
  - rewrite Hs. simpl. eexists. split; [reflexivity|].
    rewrite Bullet_update_moves. reflexivity.
  - subst w2 w1. rewrite Hw.
    set (b1 := (Bullet.update (IZR (now (steady 3000) - lastUpdate w) / 1000)
                  (bulletNow (steady 3000) 0) b).1).
    assert (Hc : Bullet.createdAt b1 = 1000%Z)
      by (unfold b1; rewrite Bullet_update_moves; reflexivity).
    assert (Hsw : sweep (nowTime (steady 3000)) [b1] = [b1]).
    { unfold sweep. rewrite filter_cons_True; [reflexivity|].
      rewrite Hc. simpl. unfold BULLET_LIFETIME. lia. }
    rewrite Hsw. eexists b1, _. split; [reflexivity|].
    split; [reflexivity|]. split; [exact Hc|]. split; [reflexivity|].
    simpl. unfold BULLET_LIFETIME. lia.
Qed.

(** * More of the server *)

(** ** What a run of [gameLoop] leaves alone *)

Lemma evolves_refl (p : Player.t) : evolves p p.
Proof. unfold evolves. repeat split; lia. Qed.

Lemma evolves_trans (p q r : Player.t) : evolves p q -> evolves q r -> evolves p r.
Proof.
  unfold evolves. intros (H1 & H2 & H3 & H4 & H5) (K1 & K2 & K3 & K4 & K5).
  repeat split; try congruence. lia.
Qed.

Lemma Forall2_evolves_refl (ps : list Player.t) : Forall2 evolves ps ps.
Proof. induction ps; constructor; [apply evolves_refl | assumption]. Qed.

Lemma Forall2_evolves_trans (ps qs rs : list Player.t) :
  Forall2 evolves ps qs -> Forall2 evolves qs rs -> Forall2 evolves ps rs.
Proof.
  intros H. revert rs. induction H as [|p q ps qs Hpq _ IH]; intros rs Hr.
  - inversion Hr. constructor.
  - inversion Hr as [|q' r qs' rs' Hqr Hrest]; subst.
    constructor; [eapply evolves_trans; eassumption | apply IH, Hrest].
Qed.

Lemma Forall2_evolves_insert (ps : list Player.t) (i : nat) (p q : Player.t) :
  ps !! i = Some p -> evolves p q -> Forall2 evolves ps (<[i := q]> ps).
Proof.
  intros Hp Hq. rewrite <- (list_insert_id ps i p Hp) at 1.
  apply Forall2_insert; [apply Forall2_evolves_refl | exact Hq].
Qed.

Lemma Forall2_evolves_alter (ps : list Player.t) (i : nat)
    (f : Player.t -> Player.t) :
  (forall p, evolves p (f p)) -> Forall2 evolves ps (alter f i ps).
Proof.
  intros Hf. apply Forall2_alter_r; [apply Forall2_evolves_refl|].
  intros p q _ _ Hpq. eapply evolves_trans; [exact Hpq | apply Hf].
Qed.

Lemma evolves_update (deltaTime : R) (now0 : Z) (r1 r2 : R) (p : Player.t) :
  evolves p (Player.update deltaTime now0 r1 r2 p).
Proof.
  unfold Player.update. destruct (negb (Player.isAlive p)).
  - destruct (bool_decide _); [|apply evolves_refl].
    unfold evolves. simpl. repeat split; lia.
  - unfold evolves. simpl. repeat split; lia.
Qed.

Lemma evolves_add_score (n : Z) (p : Player.t) :
  (0 <= n)%Z -> evolves p (Player.add_score n p).
Proof. intros Hn. unfold evolves. simpl. repeat split; lia. Qed.

Lemma evolves_takeDamage (damage : Z) (attackerId : string) (now0 : Z)
    (this : nat) (ps : list Player.t) :
  Forall2 evolves ps (Player.takeDamage damage attackerId now0 this ps).2.
Proof.
  unfold Player.takeDamage.
  destruct (ps !! this) as [p|] eqn:Hp; [|apply Forall2_evolves_refl].
  destruct (Player.isAlive p); simpl; [|apply Forall2_evolves_refl].
  destruct (bool_decide _); simpl.
  - apply Forall2_evolves_trans
      with (qs := <[this := Player.die now0
                             (Player.set_hp (Player.hp p - damage) p)]> ps).
    + apply Forall2_evolves_insert with (p := p); [exact Hp|].
      unfold evolves. simpl. repeat split; lia.
    + unfold Player.credit_kill.
      destruct (Player.lookup_id _ _); [|apply Forall2_evolves_refl].
      apply Forall2_evolves_alter. intros q. apply evolves_add_score. lia.
  - apply Forall2_evolves_insert with (p := p); [exact Hp|].
    unfold evolves. simpl. repeat split; lia.
Qed.

Lemma evolves_collidePair (p1 p2 : Player.t) :
  evolves p1 (collidePair p1 p2).1 /\ evolves p2 (collidePair p1 p2).2.
Proof.
  unfold collidePair.
  destruct (Player.isAlive p1 && Player.isAlive p2);
    [destruct (decide _)|]; simpl; unfold evolves; simpl;
    repeat split; lia.
Qed.

Lemma evolves_collide (i j : nat) (ps : list Player.t) :
  Forall2 evolves ps (collide i j ps).
Proof.
  unfold collide.
  destruct (ps !! i) as [p1|] eqn:H1; [|apply Forall2_evolves_refl].
  destruct (ps !! j) as [p2|] eqn:H2; [|apply Forall2_evolves_refl].
  destruct (evolves_collidePair p1 p2) as [E1 E2].
  destruct (collidePair p1 p2) as [q1 q2]. simpl in *.
  rewrite <- (list_insert_id ps i p1 H1) at 1.
  rewrite <- (list_insert_id (<[i:=p1]> ps) j p2) at 1
    by (rewrite list_insert_id; assumption).
  repeat apply Forall2_insert; try assumption. apply Forall2_evolves_refl.
Qed.

Lemma evolves_tankCollisions (ps : list Player.t) :
  Forall2 evolves ps (tankCollisions ps).
Proof.
  unfold tankCollisions.
  apply (fold_left_preserves (Forall2 evolves ps)); [apply Forall2_evolves_refl|].
  intros arr i Harr.
  apply (fold_left_preserves (Forall2 evolves ps)); [exact Harr|].
  intros arr' j Harr'.
  eapply Forall2_evolves_trans; [exact Harr' | apply evolves_collide].
Qed.

Lemma evolves_bulletLoop (deltaTime : R) (rd : Readings) (bs : list Bullet.t) :
  forall (i : nat) (ps : list Player.t),
    Forall2 evolves ps (bulletLoop deltaTime rd i bs ps).2.
Proof.
  induction bs as [|bullet rest IH]; intros i ps; simpl;
    [apply Forall2_evolves_refl|].
  specialize (IH (S i) ps).
  destruct (bulletLoop deltaTime rd (S i) rest ps) as [rest1 ps1].
  destruct (Bullet.update deltaTime (bulletNow rd i) bullet) as [bullet1 keep].
  simpl in IH. destruct keep; simpl; [|exact IH].
  destruct (list_find (hits bullet1) ps1) as [[k q]|]; [|exact IH].
  pose proof (evolves_takeDamage BULLET_DAMAGE (Bullet.owner bullet1)
                (dieNow rd i) k ps1) as Ht.
  destruct (Player.takeDamage _ _ _ k ps1) as [died ps2]. simpl in *.
  eapply Forall2_evolves_trans; eassumption.
Qed.

Lemma evolves_update_phase (deltaTime : R) (rd : Readings) (ps : list Player.t) :
  Forall2 evolves ps
    (imap (fun k player =>
             Player.update deltaTime (updateNow rd k)
               (updateRandom rd k).1 (updateRandom rd k).2 player) ps).
Proof.
  apply Forall2_same_length_lookup. split; [rewrite length_imap; reflexivity|].
  intros i p q Hp Hq. rewrite list_lookup_imap, Hp in Hq. simpl in Hq.
  injection Hq as <-. apply evolves_update.
Qed.

Lemma evolves_gameLoop (rd : Readings) (w : World) :
  Forall2 evolves (players w) (players (gameLoop rd w).2).
Proof.
  unfold gameLoop.
  set (deltaTime := (IZR (now rd - lastUpdate w) / 1000)%R).
  set (ps1 := imap _ (players w)).
  pose proof (evolves_update_phase deltaTime rd (players w)) as H1.
  fold ps1 in H1.
  pose proof (evolves_bulletLoop deltaTime rd (bullets w) 0 ps1) as H2.
  destruct (bulletLoop deltaTime rd 0 (bullets w) ps1) as [bs2 ps2].
  simpl in *.
  eapply Forall2_evolves_trans; [exact H1|].
  eapply Forall2_evolves_trans; [exact H2 | apply evolves_tankCollisions].
Qed.

Lemma evolves_ids (ps qs : list Player.t) :
  Forall2 evolves ps qs -> ids qs = ids ps.
Proof.
  intros H. unfold ids. induction H as [|p q ps qs Hpq _ IH]; [reflexivity|].
  simpl. f_equal; [apply Hpq | exact IH].
Qed.

Lemma gameLoop_lastRepairTime (rd : Readings) (w : World) :
  lastRepairTime (gameLoop rd w).2 = lastRepairTime w.
Proof.
  unfold gameLoop. destruct (bulletLoop _ rd 0 (bullets w) _). reflexivity.
Qed.

(** X1.  A run of [gameLoop] neither adds nor removes nor reorders
    tanks: the registry afterwards holds the same ids in the same
    order, each tank keeps its name, its [shootCooldown] and its
    [lastShot], and no score goes down.  [lastRepairTime] is not
    touched and [lastUpdate] becomes the clock read at the start. *)
Theorem gameLoop_keeps_registry (rd : Readings) (w : World) :
  Forall2 evolves (players w) (players (gameLoop rd w).2) /\
  length (players (gameLoop rd w).2) = length (players w) /\
  ids (players (gameLoop rd w).2) = ids (players w) /\
  (s_players (gameLoop rd w).1).*1 = ids (players w) /\
  lastRepairTime (gameLoop rd w).2 = lastRepairTime w /\
  lastUpdate (gameLoop rd w).2 = now rd.
Proof.
  pose proof (evolves_gameLoop rd w) as H.
  split; [exact H|]. split; [symmetry; eapply Forall2_length, H|].
  split; [apply evolves_ids, H|].
  unfold gameLoop in *.
  destruct (bulletLoop _ rd 0 (bullets w) _) as [bs2 ps2]. simpl in *.
  split; [|split; reflexivity].
  rewrite <- (evolves_ids _ _ H). unfold ids.
  rewrite <- list_fmap_compose. reflexivity.
Qed.

(** ** The registry under the socket handlers *)

Lemma serve_snoc (ms : list Message) (m : Message) (w : World) :
  serve (ms ++ [m]) w = handle m (serve ms w).
Proof. unfold serve. rewrite fold_left_app. reflexivity. Qed.

Lemma reachable_start (now0 : Z) : reachable (start now0).
Proof. exists now0, []. reflexivity. Qed.

Lemma reachable_handle (m : Message) (w : World) :
  reachable w -> reachable (handle m w).
Proof.
  intros (now0 & ms & ->). exists now0, (ms ++ [m]). symmetry. apply serve_snoc.
Qed.

Lemma reachable_ind (P : World -> Prop) :
  (forall now0, P (start now0)) ->
  (forall m w, reachable w -> P w -> P (handle m w)) ->
  forall w, reachable w -> P w.
Proof.
  intros Hstart Hstep w (now0 & ms & ->).
  induction ms as [|m ms IH] using rev_ind; [apply Hstart|].
  rewrite serve_snoc. apply Hstep; [|exact IH]. exists now0, ms. reflexivity.
Qed.

Lemma lookup_id_find (key : string) (ps : list Player.t) :
  Player.lookup_id key ps = fst <$> list_find (fun q => Player.id q = key) ps.
Proof. reflexivity. Qed.

Lemma find_id_Some (key : string) (ps : list Player.t) (i : nat) (p : Player.t) :
  list_find (fun q => Player.id q = key) ps = Some (i, p) ->
  ps !! i = Some p /\ Player.id p = key.
Proof. intros H. apply list_find_Some in H as (H1 & H2 & _). split; assumption. Qed.

Lemma find_id_None (key : string) (ps : list Player.t) :
  list_find (fun q => Player.id q = key) ps = None <-> key ∉ ids ps.
Proof.
  rewrite list_find_None, Forall_forall. unfold ids. split.
  - intros H Hin. apply list_elem_of_fmap in Hin as (p & -> & Hp).
    exact (H p Hp eq_refl).
  - intros H p Hp Hid. apply H. apply list_elem_of_fmap. exists p. split; [congruence | exact Hp].
Qed.

Lemma find_id_unique (ps : list Player.t) (i : nat) (p : Player.t) :
  NoDup (ids ps) -> ps !! i = Some p ->
  list_find (fun q => Player.id q = Player.id p) ps = Some (i, p).
Proof.
  intros Hnd Hp. apply list_find_Some. split; [exact Hp|]. split; [reflexivity|].
  intros j q Hq Hlt Hid.
  assert (Hi : ids ps !! i = Some (Player.id p))
    by (unfold ids; rewrite list_lookup_fmap, Hp; reflexivity).
  assert (Hj : ids ps !! j = Some (Player.id p))
    by (unfold ids; rewrite list_lookup_fmap, Hq; simpl; congruence).
  pose proof (NoDup_lookup _ _ _ _ Hnd Hi Hj). lia.
Qed.

Lemma ids_insert (ps : list Player.t) (i : nat) (p q : Player.t) :
  ps !! i = Some p -> Player.id q = Player.id p -> ids (<[i := q]> ps) = ids ps.
Proof.
  intros Hp Hid. unfold ids. rewrite list_fmap_insert, Hid.
  apply list_insert_id. rewrite list_lookup_fmap, Hp. reflexivity.
Qed.

Lemma applyInput_id (data : Input) (p : Player.t) :
  Player.id (Player.applyInput data p) = Player.id p.
Proof.
  unfold Player.applyInput. destruct (negb _); [reflexivity|].
  destruct (decide _); reflexivity.
Qed.

Lemma shoot_id (now0 now2 : Z) (p : Player.t) :
  Player.id (Player.shoot now0 now2 p).2 = Player.id p.
Proof.
  unfold Player.shoot. destruct (negb _); [reflexivity|].
  destruct (bool_decide _); reflexivity.
Qed.

Lemma repair_id (now0 : Z) (p : Player.t) (lrt : gmap string Z) :
  Player.id (Player.repair now0 p lrt).1.2 = Player.id p.
Proof.
  unfold Player.repair. destruct (negb _); [reflexivity|].
  match goal with |- context [if ?b then _ else _] => destruct b end;
    reflexivity.
Qed.

Lemma repair_records (now0 : Z) (p : Player.t) (lrt : gmap string Z)
    (key : string) :
  is_Some (((Player.repair now0 p lrt).2) !! key) ->
  is_Some (lrt !! key) \/ key = Player.id p.
Proof.
  unfold Player.repair. destruct (negb _); [left; assumption|].
  match goal with |- context [if ?b then _ else _] => destruct b end;
    simpl; [left; assumption|].
  destruct (decide (key = Player.id p)) as [->|Hne]; [right; reflexivity|].
  rewrite lookup_insert_ne by congruence. left. assumption.
Qed.

Lemma ids_set_player (p : Player.t) (ps : list Player.t) :
  ((Player.id p ∈ ids ps) /\ ids (set_player p ps) = ids ps) \/
  ((Player.id p ∉ ids ps) /\ ids (set_player p ps) = ids ps ++ [Player.id p]).
Proof.
  unfold set_player. rewrite lookup_id_find.
  destruct (list_find _ ps) as [[i q]|] eqn:Hf; simpl.
  - apply find_id_Some in Hf as [Hq Hid]. left. split.
    + unfold ids. apply list_elem_of_fmap. exists q. split; [congruence|].
      eapply list_elem_of_lookup_2, Hq.
    + apply ids_insert with (p := q); [exact Hq | congruence].
  - apply find_id_None in Hf. right. split; [exact Hf|].
    unfold ids. rewrite fmap_app. reflexivity.
Qed.

Lemma registry_ok_handle (m : Message) (w : World) :
  registry_ok w -> registry_ok (handle m w).
Proof.
  intros [Hnd Hlrt]. destruct m as [k r1 r2|k data|k n n2 n3|k n|k|rd]; simpl.
  - unfold on_connection, registry_ok. simpl.
    destruct (ids_set_player
                (Player.new k (r1 * (ARENA_WIDTH - 200) + 100)
                   (r2 * (ARENA_HEIGHT - 200) + 100)) (players w))
      as [[Hin ->]|[Hout ->]].
    + split; assumption.
    + split.
      * apply NoDup_app. split; [exact Hnd|]. split; [|apply NoDup_singleton].
        intros x Hx Hx'. apply list_elem_of_singleton in Hx'. subst x.
        exact (Hout Hx).
      * intros key Hk. apply elem_of_app. left. apply Hlrt, Hk.
  - unfold on_move.
    destruct (list_find _ (players w)) as [[i p]|] eqn:Hf; [|split; assumption].
    apply find_id_Some in Hf as [Hp _]. unfold registry_ok. simpl.
    rewrite (ids_insert _ i p) by (try exact Hp; apply applyInput_id).
    split; assumption.
  - unfold on_shoot.
    destruct (list_find _ (players w)) as [[i p]|] eqn:Hf; [|split; assumption].
    apply find_id_Some in Hf as [Hp _].
    pose proof (shoot_id n n2 p) as Hid.
    destruct (Player.shoot n n2 p) as [[data|] p1]; unfold registry_ok; simpl in *;
      rewrite (ids_insert _ i p) by assumption; split; assumption.
  - unfold on_repair.
    destruct (list_find _ (players w)) as [[i p]|] eqn:Hf; [|split; assumption].
    apply find_id_Some in Hf as [Hp Hk].
    pose proof (repair_id n p (lastRepairTime w)) as Hid.
    pose proof (repair_records n p (lastRepairTime w)) as Hrec.
    destruct (Player.repair n p (lastRepairTime w)) as [[ok p1] lrt].
    unfold registry_ok; simpl in *.
    rewrite (ids_insert _ i p) by assumption. split; [exact Hnd|].
    intros key Hkey. destruct (Hrec key Hkey) as [Hold| ->]; [apply Hlrt, Hold|].
    unfold ids. apply list_elem_of_fmap. exists p. split; [reflexivity|].
    eapply list_elem_of_lookup_2, Hp.
  - unfold on_disconnect, registry_ok, delete_player. simpl.
    rewrite lookup_id_find.
    destruct (list_find _ (players w)) as [[i p]|] eqn:Hf; simpl.
    + apply find_id_Some in Hf as [Hp Hk]. unfold ids.
      rewrite list_fmap_delete. fold (ids (players w)). split.
      * eapply sublist_NoDup; [exact Hnd | apply sublist_delete].
      * intros key Hkey.
        destruct (decide (key = k)) as [->|Hne];
          [rewrite lookup_delete_eq in Hkey; destruct Hkey; discriminate|].
        rewrite lookup_delete_ne in Hkey by congruence.
        pose proof (Hlrt key Hkey) as Hin.
        apply list_elem_of_lookup in Hin as [j Hj].
        assert (Hi : ids (players w) !! i = Some k)
          by (unfold ids; rewrite list_lookup_fmap, Hp; simpl; congruence).
        assert (Hij : j <> i) by (intros ->; congruence).
        apply list_elem_of_lookup.
        destruct (decide (j < i)) as [Hlt|Hge].
        -- exists j. rewrite list_lookup_delete_lt by exact Hlt. exact Hj.
        -- exists (pred j). rewrite list_lookup_delete_ge by lia.
           replace (S (pred j)) with j by lia. exact Hj.
    + apply find_id_None in Hf. split; [exact Hnd|].
      intros key Hkey.
      destruct (decide (key = k)) as [->|Hne];
        [rewrite lookup_delete_eq in Hkey; destruct Hkey; discriminate|].
      rewrite lookup_delete_ne in Hkey by congruence. apply Hlrt, Hkey.
  - unfold registry_ok.
    rewrite (evolves_ids _ _ (evolves_gameLoop rd w)), gameLoop_lastRepairTime.
    split; assumption.
Qed.

(** X2.  In every world the server reaches no two tanks of the
    registry share an id, and every entry of [lastRepairTime] belongs
    to a tank that is in the registry: a disconnect removes the tank
    and its repair record together. *)
Theorem registry_consistent (w : World) : reachable w -> registry_ok w.
Proof.
  revert w. apply reachable_ind.
  - intros now0. split; [apply NoDup_nil_2|].
    intros key [t Ht]. simpl in Ht. rewrite lookup_empty in Ht. discriminate.
  - intros m w _ Hw. apply registry_ok_handle, Hw.
Qed.

(** A session connects, repairs and leaves. *)
Lemma registry_consistent_witness :
  registry_ok
    (serve [MsgConnection "a" 0.5 0.5; MsgRepair "a" 1000; MsgDisconnect "a"]
       (start 0)).
Proof.
  apply registry_consistent.
  exists 0%Z, [MsgConnection "a" 0.5 0.5; MsgRepair "a" 1000; MsgDisconnect "a"].
  reflexivity.
Defined.

(** ** The tanks the server makes *)

Lemma tank_made_new (id0 : string) (x0 y0 : R) : tank_made (Player.new id0 x0 y0).
Proof. split; [apply tank_ok_new|]. split; reflexivity. Qed.

Lemma tank_made_step (p q : Player.t) :
  tank_made p -> tank_ok q ->
  Player.id q = Player.id p -> Player.name q = Player.name p ->
  Player.shootCooldown q = Player.shootCooldown p ->
  tank_made q.
Proof.
  intros (_ & Hc & Hn) Hok Hid Hname Hcd. split; [exact Hok|].
  split; congruence.
Qed.

Lemma tank_made_applyInput (data : Input) (p : Player.t) :
  tank_made p -> tank_made (Player.applyInput data p).
Proof.
  intros H. apply (tank_made_step p); [exact H | apply tank_ok_applyInput, H | ..];
    unfold Player.applyInput; destruct (negb _); try reflexivity;
    destruct (decide _); reflexivity.
Qed.

Lemma tank_made_shoot (now0 now2 : Z) (p : Player.t) :
  tank_made p -> tank_made (Player.shoot now0 now2 p).2.
Proof.
  intros H. apply (tank_made_step p); [exact H | apply tank_ok_shoot, H | ..];
    unfold Player.shoot; destruct (negb _); try reflexivity;
    destruct (bool_decide _); reflexivity.
Qed.

Lemma tank_made_repair (now0 : Z) (p : Player.t) (lrt : gmap string Z) :
  tank_made p -> tank_made (Player.repair now0 p lrt).1.2.
Proof.
  intros H. apply (tank_made_step p); [exact H | apply tank_ok_repair, H | ..];
    unfold Player.repair; destruct (negb _); try reflexivity;
    match goal with |- context [if ?b then _ else _] => destruct b end;
    reflexivity.
Qed.

Lemma Forall_tank_made_gameLoop (rd : Readings) (w : World) :
  Forall tank_made (players w) -> Forall tank_made (players (gameLoop rd w).2).
Proof.
  intros H.
  assert (Hok : Forall tank_ok (players (gameLoop rd w).2)).
  { apply Forall_gameLoop. eapply Forall_impl; [exact H|]. intros p Hp. apply Hp. }
  pose proof (evolves_gameLoop rd w) as Hev.
  apply Forall_lookup_2. intros i q Hq.
  destruct (Forall2_lookup_r _ _ _ _ _ Hev Hq) as (p & Hp & Hpq).
  destruct Hpq as (Hid & Hname & Hcd & _).
  apply (tank_made_step p); try assumption.
  - exact (Forall_lookup_1 _ _ _ _ H Hp).
  - exact (Forall_lookup_1 _ _ _ _ Hok Hq).
Qed.

Lemma Forall_tank_made_handle (m : Message) (w : World) :
  Forall tank_made (players w) -> Forall tank_made (players (handle m w)).
Proof.
  intros H. destruct m as [k r1 r2|k data|k n n2 n3|k n|k|rd]; simpl.
  - unfold on_connection, set_player. simpl.
    destruct (Player.lookup_id _ _).
    + apply Forall_insert; [exact H | apply tank_made_new].
    + apply Forall_app. split; [exact H|].
      apply List.Forall_cons; [apply tank_made_new | apply List.Forall_nil].
  - unfold on_move.
    destruct (list_find _ (players w)) as [[i p]|] eqn:Hf; [|exact H].
    apply find_id_Some in Hf as [Hp _]. simpl.
    apply Forall_insert; [exact H|].
    apply tank_made_applyInput, (Forall_lookup_1 _ _ _ _ H Hp).
  - unfold on_shoot.
    destruct (list_find _ (players w)) as [[i p]|] eqn:Hf; [|exact H].
    apply find_id_Some in Hf as [Hp _].
    pose proof (tank_made_shoot n n2 p (Forall_lookup_1 _ _ _ _ H Hp)) as Hs.
    destruct (Player.shoot n n2 p) as [[data|] p1]; simpl in *;
      apply Forall_insert; assumption.
  - unfold on_repair.
    destruct (list_find _ (players w)) as [[i p]|] eqn:Hf; [|exact H].
    apply find_id_Some in Hf as [Hp _].
    pose proof (tank_made_repair n p (lastRepairTime w)
                  (Forall_lookup_1 _ _ _ _ H Hp)) as Hs.
    destruct (Player.repair n p (lastRepairTime w)) as [[ok p1] lrt]; simpl in *.
    apply Forall_insert; assumption.
  - unfold on_disconnect, delete_player. simpl.
    destruct (Player.lookup_id _ _); [apply Forall_delete|]; exact H.
  - apply Forall_tank_made_gameLoop, H.
Qed.

(** X3.  In every world the server reaches, every tank has
    [0 <= hp <= MAX_HEALTH], has [hp = 0] exactly when it is dead, has
    a [shootCooldown] of 300 ms, and is named ["Player_"] followed by
    the first four characters of its id. *)
Theorem reachable_tanks (w : World) :
  reachable w -> Forall tank_made (players w).
Proof.
  revert w. apply reachable_ind.
  - intros now0. apply List.Forall_nil.
  - intros m w _ Hw. apply Forall_tank_made_handle, Hw.
Qed.

(** Two sessions; one fires, the other is repaired, the timer runs. *)
Lemma reachable_tanks_witness :
  Forall tank_made
    (players
       (serve [MsgConnection "abcdef" 0.5 0.5; MsgConnection "ghijkl" 0.25 0.25;
               MsgShoot "abcdef" 1000 1000 1000; MsgRepair "ghijkl" 1000;
               MsgTimer (steady 1008)]
          (start 0))).
Proof.
  apply reachable_tanks.
  exists 0%Z, [MsgConnection "abcdef" 0.5 0.5; MsgConnection "ghijkl" 0.25 0.25;
               MsgShoot "abcdef" 1000 1000 1000; MsgRepair "ghijkl" 1000;
               MsgTimer (steady 1008)].
  reflexivity.
Defined.

(** ** The health invariant, wherever the server gets *)

(** C4.  A tank made by the constructor has [0 <= hp <= MAX_HEALTH]
    and [hp = 0] exactly when it is not alive, and so has every tank
    of every world the server reaches from its start, by whatever
    connections, messages and runs of [gameLoop]: these are the
    sequences of [takeDamage], [repair], [respawn] and [update] the
    server performs.  The same holds through any sequence of direct
    calls of the methods and runs of [gameLoop] from such a world,
    [takeDamage] being given an amount that is not negative, as the
    one place that calls it does with [BULLET_DAMAGE].  [die] sets
    [hp] to 0, [respawn] sets it to [MAX_HEALTH], and [repair] leaves
    it at most [MAX_HEALTH]. *)
Theorem health_invariant :
  (forall (id0 : string) (x0 y0 : R), tank_ok (Player.new id0 x0 y0)) /\
  (forall w : World, reachable w -> Forall tank_ok (players w)) /\
  (forall (ss : list Step) (w : World),
     reachable w -> Forall damage_nonneg ss ->
     Forall tank_ok (players (run ss w))) /\
  (forall (ss : list Step) (w : World),
     Forall damage_nonneg ss ->
     Forall tank_ok (players w) ->
     Forall tank_ok (players (run ss w))) /\
  (forall (now0 : Z) (p : Player.t),
     Player.hp (Player.die now0 p) = 0%Z /\
     Player.isAlive (Player.die now0 p) = false) /\
  (forall (r1 r2 : R) (p : Player.t),
     Player.hp (Player.respawn r1 r2 p) = MAX_HEALTH /\
     Player.isAlive (Player.respawn r1 r2 p) = true) /\
  (forall (now0 : Z) (p : Player.t) (lrt : gmap string Z),
     (Player.hp p <= MAX_HEALTH)%Z ->
     (Player.hp p <= Player.hp (Player.repair now0 p lrt).1.2 <= MAX_HEALTH)%Z).
Proof.
  assert (Hreach : forall w : World, reachable w -> Forall tank_ok (players w)).
  { intros w Hw. apply Forall_impl with (P := tank_made).
    - revert w Hw. apply reachable_ind.
      + intros now0. apply List.Forall_nil.
      + intros m w _ Hw. apply Forall_tank_made_handle, Hw.
    - intros p [Hok _]. exact Hok. }
  split; [apply tank_ok_new|]. split; [exact Hreach|].
  split; [intros ss w Hw Hd; apply Forall_run; [exact Hd | apply Hreach, Hw]|].
  split; [apply Forall_run|].
  split; [intros now0 p; split; reflexivity|].
  split; [intros r1 r2 p; split; reflexivity|].
  intros now0 p lrt Hle. unfold Player.repair.
  destruct (negb (Player.isAlive p)); simpl; [lia|].
  match goal with |- context [if ?c then _ else _] => destruct c end;
    simpl; unfold MAX_HEALTH, REPAIR_AMOUNT in *; lia.
Qed.

(** A session connects and is repaired, the timer runs; then
    [takeDamage] is called on its tank four times, which kills it. *)
Lemma health_invariant_witness :
  let w := serve [MsgConnection "tank" 0.5 0.5; MsgRepair "tank" 1000;
                  MsgTimer (steady 1008)] (start 1000) in
  let hit := StepCall (CallTakeDamage 0 BULLET_DAMAGE "foe" 5000) in
  Forall tank_ok (players w) /\
  Forall tank_ok (players (run [hit; hit; hit; hit] w)).
Proof.
  intros w hit.
  destruct health_invariant as (_ & Hreach & Hrun & _).
  assert (Hw : reachable w).
  { exists 1000%Z, [MsgConnection "tank" 0.5 0.5; MsgRepair "tank" 1000;
                    MsgTimer (steady 1008)].
    reflexivity. }
  split; [apply Hreach, Hw|].
  apply Hrun; [exact Hw|].
  repeat (apply List.Forall_cons; [simpl; unfold BULLET_DAMAGE; lia|]).
  apply List.Forall_nil.
Defined.

(** ** Connecting and leaving *)

Lemma find_id_insert (ps : list Player.t) (i : nat) (p q : Player.t) :
  list_find (fun r => Player.id r = Player.id q) ps = Some (i, p) ->
  list_find (fun r => Player.id r = Player.id q) (<[i := q]> ps) = Some (i, q).
Proof.
  intros H. apply list_find_Some in H as (Hp & Hid & Hfirst).
  apply list_find_Some. split; [|split; [reflexivity|]].
  - apply list_lookup_insert_eq. eapply lookup_lt_Some, Hp.
  - intros j r Hr Hlt. rewrite list_lookup_insert_ne in Hr by lia.
    exact (Hfirst j r Hr Hlt).
Qed.

Lemma find_id_snoc (ps : list Player.t) (q : Player.t) :
  list_find (fun r => Player.id r = Player.id q) ps = None ->
  list_find (fun r => Player.id r = Player.id q) (ps ++ [q])
  = Some (length ps, q).
Proof.
  intros H. apply list_find_Some. split; [|split; [reflexivity|]].
  - rewrite lookup_app_r by lia. replace (length ps - length ps) with 0 by lia.
    reflexivity.
  - intros j r Hr Hlt. rewrite lookup_app_l in Hr by exact Hlt.
    rewrite list_find_None in H. exact (Forall_lookup_1 _ _ _ _ H Hr).
Qed.

(** X4.  After a connection the registry finds, under the socket's
    id, a new tank: alive, with full health, no score and no velocity,
    placed at least 100 from every wall when the two random values lie
    in [[0, 1)].  Every tank registered under another id is where it
    was in the registry, unchanged, and bullets and repair records are
    as before. *)
Theorem connection_registers (socketId : string) (r1 r2 : R) (w : World) :
  unit_range r1 -> unit_range r2 ->
  let w' := on_connection socketId r1 r2 w in
  (exists (i : nat) (p : Player.t),
     list_find (fun q => Player.id q = socketId) (players w') = Some (i, p) /\
     p = Player.new socketId (r1 * 1000 + 100) (r2 * 500 + 100) /\
     Player.isAlive p = true /\ Player.hp p = MAX_HEALTH /\
     Player.score p = 0%Z /\ Player.vx p = 0%R /\ Player.vy p = 0%R /\
     (100 <= Player.x p < 1100)%R /\ (100 <= Player.y p < 600)%R /\
     in_arena p) /\
  (forall (j : nat) (q : Player.t),
     players w !! j = Some q -> Player.id q <> socketId ->
     players w' !! j = Some q) /\
  length (players w) <= length (players w') <= S (length (players w)) /\
  bullets w' = bullets w /\ lastRepairTime w' = lastRepairTime w.
Proof.
  intros [H1 H1'] [H2 H2'] w'. subst w'. unfold on_connection.
  set (p := Player.new socketId (r1 * (ARENA_WIDTH - 200) + 100)
              (r2 * (ARENA_HEIGHT - 200) + 100)).
  assert (Hp : p = Player.new socketId (r1 * 1000 + 100) (r2 * 500 + 100)).
  { unfold p, Player.new, ARENA_WIDTH, ARENA_HEIGHT. f_equal; lra. }
  simpl. unfold set_player. rewrite lookup_id_find.
  change (Player.id p) with socketId.
  destruct (list_find (fun q => Player.id q = socketId) (players w))
    as [[i q0]|] eqn:Hf; simpl.
  - split; [|split; [|split; [|split; reflexivity]]].
    + exists i, p. split; [exact (find_id_insert (players w) i q0 p Hf)|].
      split; [exact Hp|]. rewrite Hp. simpl.
      unfold in_arena, TANK_RADIUS, ARENA_WIDTH, ARENA_HEIGHT. simpl.
      repeat split; lra.
    + intros j q Hq Hne. apply find_id_Some in Hf as [Hq0 Hid].
      rewrite list_lookup_insert_ne; [exact Hq|]. intros ->. congruence.
    + rewrite length_insert. lia.
  - split; [|split; [|split; [|split; reflexivity]]].
    + exists (length (players w)), p.
      split; [exact (find_id_snoc (players w) p Hf)|].
      split; [exact Hp|]. rewrite Hp. simpl.
      unfold in_arena, TANK_RADIUS, ARENA_WIDTH, ARENA_HEIGHT. simpl.
      repeat split; lra.
    + intros j q Hq _. rewrite lookup_app_l; [exact Hq|].
      eapply lookup_lt_Some, Hq.
    + rewrite length_app. simpl. lia.
Qed.

(** The first session of a server. *)
Lemma connection_registers_witness :
  exists (i : nat) (p : Player.t),
    list_find (fun q => Player.id q = "a")
      (players (on_connection "a" 0.5 0.5 (start 0))) = Some (i, p) /\
    Player.hp p = MAX_HEALTH /\ in_arena p.
Proof.
  assert (Hr : unit_range 0.5) by (unfold unit_range; lra).
  destruct (connection_registers "a" 0.5 0.5 (start 0) Hr Hr)
    as ((i & p & Hf & _ & _ & Hhp & _ & _ & _ & _ & _ & Hin) & _).
  exists i, p. split; [exact Hf|]. split; assumption.
Defined.

Lemma not_elem_of_delete_NoDup {A : Type} (l : list A) (i : nat) (x : A) :
  NoDup l -> l !! i = Some x -> x ∉ delete i l.
Proof.
  intros Hnd Hi Hin. apply list_elem_of_lookup in Hin as [j Hj].
  destruct (decide (j < i)) as [Hlt|Hge].
  - rewrite list_lookup_delete_lt in Hj by exact Hlt.
    pose proof (NoDup_lookup _ _ _ _ Hnd Hi Hj). lia.
  - rewrite list_lookup_delete_ge in Hj by lia.
    pose proof (NoDup_lookup _ _ _ _ Hnd Hi Hj). lia.
Qed.

Lemma filter_other_ids (key : string) (ps : list Player.t) :
  key ∉ ids ps -> filter (fun q => Player.id q <> key) ps = ps.
Proof.
  induction ps as [|q ps IH]; intros Hk; [reflexivity|].
  unfold ids in Hk. simpl in Hk. apply not_elem_of_cons in Hk as [Hq Hk].
  rewrite filter_cons_True by congruence. f_equal. apply IH, Hk.
Qed.

Lemma delete_player_filter (key : string) (ps : list Player.t) :
  NoDup (ids ps) ->
  delete_player key ps = filter (fun q => Player.id q <> key) ps.
Proof.
  unfold delete_player. rewrite lookup_id_find.
  induction ps as [|q ps IH]; intros Hnd; [reflexivity|].
  unfold ids in Hnd. simpl in Hnd. apply NoDup_cons in Hnd as [Hq Hnd].
  simpl. destruct (decide (Player.id q = key)) as [E|E]; simpl.
  - rewrite filter_cons_False by (intros H; apply H, E).
    symmetry. apply filter_other_ids. rewrite <- E. exact Hq.
  - rewrite filter_cons_True by exact E. rewrite <- (IH Hnd).
    destruct (list_find _ ps) as [[i p]|]; reflexivity.
Qed.

(** X5.  After a disconnect, in a world where ids are unique, no tank
    is registered under the socket's id and no repair time is recorded
    for it, so a later [move], [shoot] or [repair] message of that
    socket changes nothing.  The other tanks stay, in their order, and
    so do the repair times of the other ids. *)
Theorem disconnect_forgets (socketId : string) (w : World) :
  NoDup (ids (players w)) ->
  let w' := on_disconnect socketId w in
  (socketId ∉ ids (players w')) /\
  lastRepairTime w' !! socketId = None /\
  (forall data, on_move socketId data w' = w') /\
  (forall now0 now2 now3, on_shoot socketId now0 now2 now3 w' = w') /\
  (forall now0, on_repair socketId now0 w' = w') /\
  players w' = filter (fun q => Player.id q <> socketId) (players w) /\
  (forall key, key <> socketId ->
     lastRepairTime w' !! key = lastRepairTime w !! key) /\
  bullets w' = bullets w.
Proof.
  intros Hnd w'.
  assert (Hgone : socketId ∉ ids (players w')).
  { subst w'. unfold on_disconnect, delete_player. simpl.
    rewrite lookup_id_find.
    destruct (list_find _ (players w)) as [[i p]|] eqn:Hf; simpl.
    - apply find_id_Some in Hf as [Hp Hid]. unfold ids.
      rewrite list_fmap_delete. apply not_elem_of_delete_NoDup; [exact Hnd|].
      rewrite list_lookup_fmap, Hp. simpl. congruence.
    - apply find_id_None, Hf. }
  assert (Hnone : list_find (fun q => Player.id q = socketId) (players w') = None)
    by (apply find_id_None, Hgone).
  split; [exact Hgone|]. split; [apply lookup_delete_eq|].
  split; [intros data; unfold on_move; rewrite Hnone; reflexivity|].
  split; [intros n n2 n3; unfold on_shoot; rewrite Hnone; reflexivity|].
  split; [intros n; unfold on_repair; rewrite Hnone; reflexivity|].
  split; [|split; [intros key Hne; apply lookup_delete_ne; congruence | reflexivity]].
  subst w'. simpl. apply delete_player_filter, Hnd.
Qed.

(** A session that repaired once and left. *)
Lemma disconnect_forgets_witness :
  let w := on_repair "a" 1000 (on_connection "a" 0.5 0.5 (start 0)) in
  lastRepairTime w !! "a" = Some 1000%Z /\
  lastRepairTime (on_disconnect "a" w) !! "a" = None /\
  on_repair "a" 2000 (on_disconnect "a" w) = on_disconnect "a" w.
Proof.
  intros w.
  assert (Hids : ids (players w) = ["a"]) by reflexivity.
  assert (Hnd : NoDup (ids (players w))) by (rewrite Hids; apply NoDup_singleton).
  destruct (disconnect_forgets "a" w Hnd) as (_ & Hl & _ & _ & Hr & _).
  split; [reflexivity|]. split; [exact Hl | apply Hr].
Defined.

(** ** Firing *)

Lemma unit_circle_scaled (a r : R) :
  (0 <= r)%R ->
  Math.sqrt (Math.cos a * r * (Math.cos a * r) + Math.sin a * r * (Math.sin a * r))%R = r.
Proof.
  intros Hr. unfold Math.sqrt, Math.cos, Math.sin.
  apply sqrt_lem_1; [|exact Hr|].
  - pose proof (Rle_0_sqr (cos a * r)). pose proof (Rle_0_sqr (sin a * r)).
    unfold Rsqr in *. lra.
  - pose proof (sin2_cos2 a) as H. unfold Rsqr in H.
    replace (cos a * r * (cos a * r) + sin a * r * (sin a * r))%R
      with ((sin a * sin a + cos a * cos a) * (r * r))%R by ring.
    rewrite H. ring.
Qed.

Lemma set_players_same (w : World) : set_players (players w) w = w.
Proof. destruct w. reflexivity. Qed.

(** X6.  A [shoot] message of a registered tank that is alive and off
    cooldown appends exactly one bullet to the world: owned by the
    tank, stamped with the clock the [Bullet] constructor reads, placed
    25 from the tank's centre along its heading and flying at
    [BULLET_SPEED] along its heading; the tank only gets its
    [lastShot] set, every other field of it staying as it is, and the
    repair records and [lastUpdate] stay.  From a tank that is dead or
    cooling down the message changes nothing. *)
Theorem shoot_message (socketId : string) (now0 now2 now3 : Z) (w : World)
    (i : nat) (p : Player.t) :
  list_find (fun q => Player.id q = socketId) (players w) = Some (i, p) ->
  let w' := on_shoot socketId now0 now2 now3 w in
  (Player.isAlive p = true ->
   (Player.shootCooldown p <= now0 - Player.lastShot p)%Z ->
   exists (b : Bullet.t) (p' : Player.t),
     bullets w' = bullets w ++ [b] /\
     players w' = <[i := p']> (players w) /\
     Bullet.owner b = socketId /\ Bullet.createdAt b = now3 /\
     Bullet.angle b = Player.angle p /\
     bullet_speed b = BULLET_SPEED /\
     Bullet.vx b = (Math.cos (Player.angle p) * BULLET_SPEED)%R /\
     Bullet.vy b = (Math.sin (Player.angle p) * BULLET_SPEED)%R /\
     Math.sqrt ((Bullet.x b - Player.x p) * (Bullet.x b - Player.x p) +
                (Bullet.y b - Player.y p) * (Bullet.y b - Player.y p))%R = 25%R /\
     Player.lastShot p' = now0 /\ Player.hp p' = Player.hp p /\
     Player.x p' = Player.x p /\ Player.y p' = Player.y p /\
     Player.angle p' = Player.angle p /\ Player.score p' = Player.score p /\
     p' = {| Player.id := Player.id p;
             Player.x := Player.x p; Player.y := Player.y p;
             Player.vx := Player.vx p; Player.vy := Player.vy p;
             Player.angle := Player.angle p;
             Player.targetAngle := Player.targetAngle p;
             Player.hp := Player.hp p; Player.score := Player.score p;
             Player.name := Player.name p;
             Player.isAlive := Player.isAlive p;
             Player.respawnTime := Player.respawnTime p;
             Player.lastShot := now0;
             Player.shootCooldown := Player.shootCooldown p |} /\
     b = {| Bullet.x := (Player.x p + Math.cos (Player.angle p) * 25)%R;
            Bullet.y := (Player.y p + Math.sin (Player.angle p) * 25)%R;
            Bullet.vx := (Math.cos (Player.angle p) * BULLET_SPEED)%R;
            Bullet.vy := (Math.sin (Player.angle p) * BULLET_SPEED)%R;
            Bullet.owner := socketId; Bullet.createdAt := now3;
            Bullet.angle := Player.angle p |} /\
     lastRepairTime w' = lastRepairTime w /\ lastUpdate w' = lastUpdate w) /\
  (Player.isAlive p = false \/
   (now0 - Player.lastShot p < Player.shootCooldown p)%Z ->
   w' = w).
Proof.
  intros Hf w'. subst w'. unfold on_shoot. rewrite Hf.
  pose proof (find_id_Some _ _ _ _ Hf) as [Hp Hid]. split.
  - intros Ha Hc.
    destruct (shoot_ready now0 now2 p Ha Hc)
      as (data & p1 & Hs & Hl & _ & _ & Ho & Hx & Hy & Hvx & Hvy).
    assert (Hall : p1 = {| Player.id := Player.id p;
                           Player.x := Player.x p; Player.y := Player.y p;
                           Player.vx := Player.vx p; Player.vy := Player.vy p;
                           Player.angle := Player.angle p;
                           Player.targetAngle := Player.targetAngle p;
                           Player.hp := Player.hp p;
                           Player.score := Player.score p;
                           Player.name := Player.name p;
                           Player.isAlive := Player.isAlive p;
                           Player.respawnTime := Player.respawnTime p;
                           Player.lastShot := now0;
                           Player.shootCooldown := Player.shootCooldown p |} /\
                   Bullet.new data now3
                   = {| Bullet.x := (Player.x p + Math.cos (Player.angle p) * 25)%R;
                        Bullet.y := (Player.y p + Math.sin (Player.angle p) * 25)%R;
                        Bullet.vx := (Math.cos (Player.angle p) * BULLET_SPEED)%R;
                        Bullet.vy := (Math.sin (Player.angle p) * BULLET_SPEED)%R;
                        Bullet.owner := socketId; Bullet.createdAt := now3;
                        Bullet.angle := Player.angle p |}).
    { unfold Player.shoot in Hs.
      destruct (negb (Player.isAlive p)) eqn:Hn;
        [rewrite Ha in Hn; discriminate|].
      rewrite bool_decide_eq_false_2 in Hs by lia.
      injection Hs as <- <-. unfold Bullet.new. simpl. rewrite Hid.
      split; reflexivity. }
    destruct Hall as [Hp1 Hb1].
    assert (Hrest : Player.hp p1 = Player.hp p /\ Player.x p1 = Player.x p /\
                    Player.y p1 = Player.y p /\ Player.angle p1 = Player.angle p /\
                    Player.score p1 = Player.score p /\
                    Bullet.angle data = Player.angle p).
    { rewrite Hp1. simpl. do 5 (split; [reflexivity|]).
      apply (f_equal Bullet.angle) in Hb1. exact Hb1. }
    destruct Hrest as (Hh & Hx1 & Hy1 & Hang & Hsc & Hbang).
    rewrite Hs. simpl. exists (Bullet.new data now3), p1.
    split; [reflexivity|]. split; [reflexivity|].
    unfold bullet_speed. simpl. rewrite Hx, Hy, Hvx, Hvy.
    split; [congruence|]. split; [reflexivity|]. split; [exact Hbang|].
    split; [apply unit_circle_scaled; unfold BULLET_SPEED; lra|].
    split; [reflexivity|]. split; [reflexivity|]. split.
    + replace (Player.x p + Math.cos (Player.angle p) * 25 - Player.x p)%R
        with (Math.cos (Player.angle p) * 25)%R by ring.
      replace (Player.y p + Math.sin (Player.angle p) * 25 - Player.y p)%R
        with (Math.sin (Player.angle p) * 25)%R by ring.
      apply unit_circle_scaled. lra.
    + do 6 (split; [assumption|]). split; [exact Hp1|].
      split; [exact Hb1|]. split; reflexivity.
  - intros Hno.
    assert (Hs : Player.shoot now0 now2 p = (None, p)).
    { destruct Hno as [Hd|Hc]; [apply shoot_dead, Hd | apply shoot_cooling, Hc]. }
    rewrite Hs. rewrite (list_insert_id _ _ _ Hp). apply set_players_same.
Qed.

(** The first shot of a new session. *)
Lemma shoot_message_witness :
  let w := on_connection "a" 0.5 0.5 (start 0) in
  exists b : Bullet.t,
    bullets (on_shoot "a" 1000 1000 1000 w) = [b] /\
    bullet_speed b = BULLET_SPEED /\ Bullet.owner b = "a".
Proof.
  intros w.
  destruct (shoot_message "a" 1000 1000 1000 w 0
              (Player.new "a" (0.5 * (ARENA_WIDTH - 200) + 100)
                 (0.5 * (ARENA_HEIGHT - 200) + 100)) eq_refl)
    as [Hfire _].
  destruct Hfire as (b & p' & Hb & _ & Ho & _ & _ & Hsp & _);
    [reflexivity | simpl; lia |].
  exists b. split; [exact Hb|]. split; assumption.
Defined.

(** ** Bullets in the game loop *)

Lemma bulletLoop_sublist (deltaTime : R) (rd : Readings) (bs : list Bullet.t) :
  forall (i : nat) (ps : list Player.t),
    (bulletLoop deltaTime rd i bs ps).1
    `sublist_of`
    imap (fun k b => (Bullet.update deltaTime (bulletNow rd (i + k)) b).1) bs.
Proof.
  induction bs as [|bullet rest IH]; intros i ps; simpl; [constructor|].
  specialize (IH (S i) ps).
  destruct (bulletLoop deltaTime rd (S i) rest ps) as [rest1 ps1]. simpl in IH.
  assert (Himap :
    imap ((fun k b => (Bullet.update deltaTime (bulletNow rd (i + k)) b).1) ∘ S) rest
    = imap (fun k b => (Bullet.update deltaTime (bulletNow rd (S i + k)) b).1) rest).
  { apply imap_ext. intros k b _. simpl.
    replace (i + S k) with (S (i + k)) by lia. reflexivity. }
  rewrite Himap. replace (i + 0) with i by lia.
  destruct (Bullet.update deltaTime (bulletNow rd i) bullet) as [bullet1 keep].
  destruct keep; simpl.
  - destruct (list_find (hits bullet1) ps1) as [[k q]|].
    + destruct (Player.takeDamage _ _ _ k ps1). simpl.
      apply sublist_cons, IH.
    + simpl. apply sublist_skip, IH.
  - apply sublist_cons, IH.
Qed.

(** X7.  A run of [gameLoop] makes no bullet and reorders none: the
    bullets it broadcasts, and the bullets it leaves in the world, are
    the bullets it found, each moved by its own [update], with some of
    them dropped.  So there are never more bullets after a run than
    before. *)
Theorem gameLoop_only_drops_bullets (rd : Readings) (w : World) :
  let deltaTime := (IZR (now rd - lastUpdate w) / 1000)%R in
  let moved :=
    imap (fun i b => (Bullet.update deltaTime (bulletNow rd i) b).1)
      (bullets w) in
  (exists bs2 : list Bullet.t,
     s_bullets (gameLoop rd w).1 = Bullet.toJSON <$> bs2 /\
     bs2 `sublist_of` moved /\
     bullets (gameLoop rd w).2 `sublist_of` bs2) /\
  bullets (gameLoop rd w).2 `sublist_of` moved /\
  length (s_bullets (gameLoop rd w).1) <= length (bullets w) /\
  length (bullets (gameLoop rd w).2) <= length (s_bullets (gameLoop rd w).1).
Proof.
  intros deltaTime moved. unfold gameLoop. fold deltaTime.
  pose proof (bulletLoop_sublist deltaTime rd (bullets w) 0
                (imap (fun k player =>
                         Player.update deltaTime (updateNow rd k)
                           (updateRandom rd k).1 (updateRandom rd k).2 player)
                   (players w))) as Hsub.
  destruct (bulletLoop deltaTime rd 0 (bullets w) _) as [bs2 ps2].
  simpl in *. fold moved in Hsub.
  assert (Hsweep : sweep (nowTime rd) bs2 `sublist_of` bs2)
    by (unfold sweep; apply sublist_filter).
  split; [exists bs2; split; [reflexivity|]; split; assumption|].
  split; [etransitivity; eassumption|].
  rewrite length_fmap. split.
  - apply sublist_length in Hsub. unfold moved in Hsub.
    rewrite length_imap in Hsub. exact Hsub.
  - apply sublist_length, Hsweep.
Qed.

Lemma gameLoop_bullets_from (rd : Readings) (w : World) (b' : Bullet.t) :
  b' ∈ bullets (gameLoop rd w).2 ->
  exists (b : Bullet.t) (deltaTime : R) (now0 : Z),
    b ∈ bullets w /\ b' = (Bullet.update deltaTime now0 b).1.
Proof.
  unfold gameLoop.
  set (deltaTime := (IZR (now rd - lastUpdate w) / 1000)%R).
  set (ps1 := imap _ (players w)).
  pose proof (bulletLoop_survivors deltaTime rd (bullets w) 0 ps1) as Hs.
  destruct (bulletLoop deltaTime rd 0 (bullets w) ps1) as [bs2 ps2].
  simpl. unfold sweep. intros Hin.
  apply list_elem_of_filter in Hin as [_ Hin].
  destruct (Hs b' Hin) as (k & b & Hk & Hu).
  exists b, deltaTime, (bulletNow rd (0 + k)).
  split; [eapply list_elem_of_lookup_2, Hk | rewrite Hu; reflexivity].
Qed.

Lemma Forall_aimed_handle (m : Message) (w : World) :
  Forall bullet_aimed (bullets w) ->
  Forall bullet_aimed (bullets (handle m w)).
Proof.
  intros H. destruct m as [k r1 r2|k data|k n n2 n3|k n|k|rd]; simpl.
  - exact H.
  - unfold on_move. destruct (list_find _ _) as [[i p]|]; exact H.
  - unfold on_shoot. destruct (list_find _ _) as [[i p]|]; [|exact H].
    unfold Player.shoot. destruct (negb _); [exact H|].
    destruct (bool_decide _); [exact H|]. simpl.
    apply Forall_app. split; [exact H|].
    apply List.Forall_cons; [|apply List.Forall_nil].
    split; reflexivity.
  - unfold on_repair. destruct (list_find _ _) as [[i p]|]; [|exact H].
    destruct (Player.repair _ _ _) as [[ok p1] lrt]. exact H.
  - exact H.
  - apply Forall_forall. intros b' Hin.
    destruct (gameLoop_bullets_from rd w b' Hin) as (b & dt & n & Hb & ->).
    rewrite Bullet_update_moves. rewrite Forall_forall in H. apply (H b Hb).
Qed.

Lemma atan2_of_heading (a s : R) :
  (0 < s)%R ->
  Math.cos (Math.atan2 (Math.sin a * s) (Math.cos a * s)) = Math.cos a /\
  Math.sin (Math.atan2 (Math.sin a * s) (Math.cos a * s)) = Math.sin a.
Proof.
  intros Hs. rewrite atan2_scale by exact Hs.
  pose proof (unit_circle_scaled a 1 ltac:(lra)) as H1.
  rewrite !Rmult_1_r in H1.
  assert (Hne : Math.cos a <> 0%R \/ Math.sin a <> 0%R).
  { destruct (Req_dec (Math.cos a) 0) as [Hc|Hc]; [right | left; exact Hc].
    intros Hsn. rewrite Hc, Hsn in H1.
    replace (0 * 0 + 0 * 0)%R with 0%R in H1 by ring.
    unfold Math.sqrt in H1. rewrite sqrt_0 in H1. lra. }
  destruct (atan2_cos_sin (Math.sin a) (Math.cos a) Hne) as [Hcos Hsin].
  rewrite Hcos, Hsin, H1. split; field.
Qed.

(** X8.  In every world the server reaches, every bullet flies at
    exactly [BULLET_SPEED] along the heading it was fired with: it is
    fired so and nothing changes the velocity of a bullet afterwards.
    The angle [toJSON] computes for it from the velocity is that
    heading, up to whole turns. *)
Theorem reachable_bullets (w : World) :
  reachable w ->
  Forall (fun b =>
            bullet_aimed b /\ bullet_speed b = BULLET_SPEED /\
            Math.cos (Bullet.j_angle (Bullet.toJSON b))
            = Math.cos (Bullet.angle b) /\
            Math.sin (Bullet.j_angle (Bullet.toJSON b))
            = Math.sin (Bullet.angle b))
    (bullets w).
Proof.
  intros Hw.
  assert (H : Forall bullet_aimed (bullets w)).
  { revert w Hw. apply reachable_ind.
    - intros now0. apply List.Forall_nil.
    - intros m w _ Hw. apply Forall_aimed_handle, Hw. }
  eapply Forall_impl; [exact H|].
  intros b [Hvx Hvy]. split; [split; assumption|].
  assert (Hs : (0 < BULLET_SPEED)%R) by (unfold BULLET_SPEED; lra).
  split.
  - unfold bullet_speed. rewrite Hvx, Hvy. apply unit_circle_scaled. lra.
  - unfold Bullet.toJSON. simpl. rewrite Hvx, Hvy.
    apply atan2_of_heading, Hs.
Qed.

(** The world after the first shot. *)
Lemma reachable_bullets_witness :
  let w := serve [MsgConnection "a" 0.5 0.5; MsgShoot "a" 1000 1000 1000]
             (start 1000) in
  Forall (fun b => bullet_speed b = BULLET_SPEED) (bullets w) /\
  length (bullets w) = 1%nat.
Proof.
  intros w. split.
  - eapply Forall_impl.
    + apply (reachable_bullets w).
      exists 1000%Z, [MsgConnection "a" 0.5 0.5; MsgShoot "a" 1000 1000 1000].
      reflexivity.
    + intros b (_ & H & _). exact H.
  - reflexivity.
Defined.

(** ** What the bullet loop does to the tanks *)

Lemma fades_refl (p : Player.t) : fades p p.
Proof. unfold fades. repeat split. intros H. exact H. Qed.

Lemma fades_trans (p q r : Player.t) : fades p q -> fades q r -> fades p r.
Proof.
  unfold fades. intros (H1 & H2 & H3 & H4) (K1 & K2 & K3 & K4).
  repeat split; try congruence. intros H. apply H4, K4, H.
Qed.

Lemma Forall2_fades_refl (ps : list Player.t) : Forall2 fades ps ps.
Proof. induction ps; constructor; [apply fades_refl | assumption]. Qed.

Lemma Forall2_fades_trans (ps qs rs : list Player.t) :
  Forall2 fades ps qs -> Forall2 fades qs rs -> Forall2 fades ps rs.
Proof.
  intros H. revert rs. induction H as [|p q ps qs Hpq _ IH]; intros rs Hr.
  - inversion Hr. constructor.
  - inversion Hr as [|q' r qs' rs' Hqr Hrest]; subst.
    constructor; [eapply fades_trans; eassumption | apply IH, Hrest].
Qed.

Lemma fades_takeDamage (damage : Z) (attackerId : string) (now0 : Z)
    (this : nat) (ps : list Player.t) :
  Forall2 fades ps (Player.takeDamage damage attackerId now0 this ps).2.
Proof.
  unfold Player.takeDamage.
  destruct (ps !! this) as [p|] eqn:Hp; [|apply Forall2_fades_refl].
  destruct (Player.isAlive p) eqn:Ha; simpl; [|apply Forall2_fades_refl].
  assert (Hins : forall q, fades p q -> Forall2 fades ps (<[this := q]> ps)).
  { intros q Hq. rewrite <- (list_insert_id ps this p Hp) at 1.
    apply Forall2_insert; [apply Forall2_fades_refl | exact Hq]. }
  destruct (bool_decide _); simpl.
  - apply Forall2_fades_trans
      with (qs := <[this := Player.die now0
                             (Player.set_hp (Player.hp p - damage) p)]> ps).
    + apply Hins. unfold fades. simpl. repeat split. discriminate.
    + unfold Player.credit_kill.
      destruct (Player.lookup_id _ _); [|apply Forall2_fades_refl].
      apply Forall2_alter_r; [apply Forall2_fades_refl|].
      intros x y _ _ Hxy. eapply fades_trans; [exact Hxy|].
      unfold fades. simpl. repeat split. intros H. exact H.
  - apply Hins. unfold fades. simpl. repeat split. intros H. exact H.
Qed.

Lemma fades_hits (b : Bullet.t) (p q : Player.t) :
  fades p q -> hits b q -> hits b p.
Proof.
  unfold fades, hits. intros (Hid & Hx & Hy & Ha) (Hq & Hne & Hd).
  rewrite Hid in Hne. rewrite Hx, Hy in Hd. split; [apply Ha, Hq|].
  split; assumption.
Qed.

Lemma clear_after (b : Bullet.t) (ps qs : list Player.t) :
  Forall2 fades ps qs ->
  (forall p, p ∈ ps -> ~ hits b p) -> forall q, q ∈ qs -> ~ hits b q.
Proof.
  intros H Hps q Hq Hh. apply list_elem_of_lookup in Hq as [j Hj].
  destruct (Forall2_lookup_r _ _ _ _ _ H Hj) as (p & Hp & Hpq).
  apply (Hps p); [eapply list_elem_of_lookup_2, Hp | eapply fades_hits; eassumption].
Qed.

(** X9.  When the bullet loop is through, no bullet it has kept lies
    within [TANK_RADIUS + BULLET_RADIUS] of an alive tank other than
    its owner: every bullet that touched such a tank has hit it and is
    gone.  The loop moves no tank, and revives none. *)
Theorem bullet_loop_clears (deltaTime : R) (rd : Readings) (bs : list Bullet.t) :
  forall (i : nat) (ps : list Player.t),
    Forall2 fades ps (bulletLoop deltaTime rd i bs ps).2 /\
    (forall b' p,
       b' ∈ (bulletLoop deltaTime rd i bs ps).1 ->
       p ∈ (bulletLoop deltaTime rd i bs ps).2 ->
       ~ hits b' p).
Proof.
  induction bs as [|bullet rest IH]; intros i ps; simpl.
  { split; [apply Forall2_fades_refl|]. intros b' p Hb. inversion Hb. }
  destruct (IH (S i) ps) as [Hf Hclear].
  destruct (bulletLoop deltaTime rd (S i) rest ps) as [rest1 ps1].
  destruct (Bullet.update deltaTime (bulletNow rd i) bullet) as [bullet1 keep].
  simpl in *. destruct keep; simpl; [|split; assumption].
  destruct (list_find (hits bullet1) ps1) as [[k q]|] eqn:Hfind.
  - pose proof (fades_takeDamage BULLET_DAMAGE (Bullet.owner bullet1)
                  (dieNow rd i) k ps1) as Ht.
    destruct (Player.takeDamage _ _ _ k ps1) as [died ps2]. simpl in *.
    split; [eapply Forall2_fades_trans; eassumption|].
    intros b' p Hb Hp.
    apply (clear_after b' ps1 ps2 Ht); [|exact Hp].
    intros p0 Hp0. apply Hclear; assumption.
  - simpl. split; [exact Hf|]. intros b' p Hb Hp.
    apply elem_of_cons in Hb as [->|Hb]; [|apply Hclear; assumption].
    rewrite list_find_None, Forall_forall in Hfind. apply Hfind, Hp.
Qed.

(** ** What a bullet costs *)

Lemma total_hp_insert (ps : list Player.t) (i : nat) (p q : Player.t) :
  ps !! i = Some p ->
  total_hp (<[i := q]> ps) = (total_hp ps - Player.hp p + Player.hp q)%Z.
Proof.
  unfold total_hp. revert i.
  induction ps as [|a ps IH]; intros [|i] H; simpl in *; try discriminate.
  - injection H as ->. lia.
  - rewrite (IH i H). lia.
Qed.

Lemma total_hp_alter (f : Player.t -> Player.t) (ps : list Player.t) (i : nat) :
  (forall p, Player.hp (f p) = Player.hp p) ->
  total_hp (alter f i ps) = total_hp ps.
Proof.
  intros Hf. unfold total_hp. revert i.
  induction ps as [|a ps IH]; intros [|i]; try reflexivity.
  - change (alter f 0%nat (a :: ps)) with (f a :: ps). simpl.
    rewrite Hf. reflexivity.
  - change (alter f (S i) (a :: ps)) with (a :: alter f i ps). simpl.
    rewrite IH. reflexivity.
Qed.

Lemma total_hp_credit_kill (attackerId : string) (ps : list Player.t) :
  total_hp (Player.credit_kill attackerId ps) = total_hp ps.
Proof.
  unfold Player.credit_kill. destruct (Player.lookup_id _ _); [|reflexivity].
  apply total_hp_alter. intros p. reflexivity.
Qed.

Lemma total_hp_takeDamage (damage : Z) (attackerId : string) (now0 : Z)
    (this : nat) (ps : list Player.t) :
  (0 <= damage)%Z -> Forall tank_ok ps ->
  (total_hp ps - damage
   <= total_hp (Player.takeDamage damage attackerId now0 this ps).2
   <= total_hp ps)%Z.
Proof.
  intros Hd H. unfold Player.takeDamage.
  destruct (ps !! this) as [p|] eqn:Hp; [|simpl; lia].
  destruct (Player.isAlive p) eqn:Ha; simpl; [|lia].
  pose proof (Forall_lookup_1 _ _ _ _ H Hp) as [Hr Hi].
  destruct (bool_decide _) eqn:Hb; simpl.
  - apply bool_decide_eq_true_1 in Hb. simpl in Hb.
    rewrite total_hp_credit_kill, (total_hp_insert ps this p _ Hp). simpl. lia.
  - rewrite (total_hp_insert ps this p _ Hp). simpl. lia.
Qed.

(** X10.  The bullet loop never adds hit points, and takes at most
    [BULLET_DAMAGE] of them for each bullet it removes: a bullet that
    stays in the array has taken nothing. *)
Theorem bullet_loop_damage (deltaTime : R) (rd : Readings) (bs : list Bullet.t)
    (i : nat) (ps : list Player.t) :
  Forall tank_ok ps ->
  let r := bulletLoop deltaTime rd i bs ps in
  (length r.1 <= length bs)%nat /\
  (total_hp ps - BULLET_DAMAGE * (Z.of_nat (length bs) - Z.of_nat (length r.1))
   <= total_hp r.2 <= total_hp ps)%Z.
Proof.
  intros H. revert i. induction bs as [|bullet rest IH]; intros i; simpl.
  { split; [lia|]. simpl. lia. }
  specialize (IH (S i)).
  pose proof (Forall_bulletLoop deltaTime rd rest (S i) ps H) as Hok.
  destruct (bulletLoop deltaTime rd (S i) rest ps) as [rest1 ps1].
  destruct (Bullet.update deltaTime (bulletNow rd i) bullet) as [bullet1 keep].
  simpl in *. destruct IH as [Hl Hh].
  unfold BULLET_DAMAGE in *.
  destruct keep; simpl; [|split; lia].
  destruct (list_find (hits bullet1) ps1) as [[k q]|]; simpl; [|split; lia].
  pose proof (total_hp_takeDamage 25 (Bullet.owner bullet1)
                (dieNow rd i) k ps1 ltac:(lia) Hok) as Ht.
  destruct (Player.takeDamage _ _ _ k ps1) as [died ps2]. simpl in *.
  split; lia.
Qed.

(** Two tanks side by side, a bullet of the first inside the second:
    the bullet is removed and 25 hit points are gone. *)
Lemma bullet_loop_damage_witness :
  let a := Player.new "a" 100 100 in
  let b := Player.new "b" 200 100 in
  let bullet := Bullet.mk 200 100 35 0 "a" 1000 0 in
  let r := bulletLoop 0 (steady 1008) 0 [bullet] [a; b] in
  Forall tank_ok [a; b] /\
  (length r.1 <= 1)%nat /\
  (total_hp [a; b] - BULLET_DAMAGE * (1 - Z.of_nat (length r.1))
   <= total_hp r.2 <= total_hp [a; b])%Z.
Proof.
  intros a b bullet r.
  assert (H : Forall tank_ok [a; b]).
  { apply List.Forall_cons; [apply tank_ok_new|].
    apply List.Forall_cons; [apply tank_ok_new | apply List.Forall_nil]. }
  split; [exact H|].
  exact (bullet_loop_damage 0 (steady 1008) [bullet] 0 [a; b] H).
Defined.

(** ** Who gets the points *)

Lemma credit_kill_lookup (attackerId : string) (ps : list Player.t)
    (j : nat) (q : Player.t) :
  NoDup (ids ps) -> ps !! j = Some q ->
  Player.credit_kill attackerId ps !! j
  = Some (if decide (Player.id q = attackerId)
          then Player.add_score 100 q else q).
Proof.
  intros Hnd Hq. unfold Player.credit_kill. rewrite lookup_id_find.
  destruct (decide (Player.id q = attackerId)) as [<-|Hne].
  - rewrite (find_id_unique ps j q Hnd Hq). simpl.
    rewrite list_lookup_alter_eq, Hq. reflexivity.
  - destruct (list_find _ ps) as [[a r]|] eqn:Hf; simpl; [|exact Hq].
    apply find_id_Some in Hf as [Hr Hid].
    rewrite list_lookup_alter_ne; [exact Hq|].
    intros ->. rewrite Hq in Hr. injection Hr as <-. contradiction.
Qed.

(** X11.  A killing hit: the call returns [true], the victim is dead
    with no hit points, stays where it is and is due to respawn
    [RESPAWN_TIME] after the clock [die] reads; the tank registered
    under the attacker's id gets exactly 100 points, also when it is
    the victim itself, and no other score changes.  When the attacker
    is no longer registered, no score changes at all. *)
Theorem kill_credit (damage : Z) (attackerId : string) (now0 : Z)
    (this : nat) (ps : list Player.t) (p : Player.t) :
  NoDup (ids ps) -> ps !! this = Some p ->
  Player.isAlive p = true -> (Player.hp p <= damage)%Z ->
  let r := Player.takeDamage damage attackerId now0 this ps in
  r.1 = true /\
  ids r.2 = ids ps /\
  (exists v,
     r.2 !! this = Some v /\ Player.isAlive v = false /\
     Player.hp v = 0%Z /\ Player.respawnTime v = (now0 + RESPAWN_TIME)%Z /\
     Player.x v = Player.x p /\ Player.y v = Player.y p) /\
  (forall j q,
     ps !! j = Some q ->
     exists q',
       r.2 !! j = Some q' /\
       Player.score q'
       = (if decide (Player.id q = attackerId)
          then Player.score q + 100 else Player.score q)%Z) /\
  (attackerId ∉ ids ps -> Player.score <$> r.2 = Player.score <$> ps).
Proof.
  intros Hnd Hp Ha Hh r. subst r.
  rewrite (takeDamage_kill damage attackerId now0 this ps p Hp Ha Hh).
  set (v := Player.die now0 (Player.set_hp (Player.hp p - damage) p)).
  assert (Hids : ids (<[this := v]> ps) = ids ps)
    by (apply ids_insert with (p := p); [exact Hp | reflexivity]).
  assert (Hnd1 : NoDup (ids (<[this := v]> ps))) by (rewrite Hids; exact Hnd).
  assert (Hlt : (this < length ps)%nat) by (eapply lookup_lt_Some, Hp).
  assert (Hscores : forall j q,
            ps !! j = Some q ->
            exists q1, <[this := v]> ps !! j = Some q1 /\
                       Player.id q1 = Player.id q /\
                       Player.score q1 = Player.score q).
  { intros j q Hq. destruct (decide (j = this)) as [->|Hne].
    - rewrite Hq in Hp. injection Hp as ->. exists v.
      rewrite list_lookup_insert_eq by exact Hlt. repeat split.
    - exists q. rewrite list_lookup_insert_ne by congruence.
      repeat split. exact Hq. }
  assert (Hall : forall j q,
            ps !! j = Some q ->
            exists q',
              Player.credit_kill attackerId (<[this := v]> ps) !! j = Some q' /\
              Player.id q' = Player.id q /\
              Player.score q'
              = (if decide (Player.id q = attackerId)
                 then Player.score q + 100 else Player.score q)%Z).
  { intros j q Hq. destruct (Hscores j q Hq) as (q1 & Hq1 & Hid1 & Hs1).
    rewrite (credit_kill_lookup attackerId _ j q1 Hnd1 Hq1), Hid1.
    destruct (decide (Player.id q = attackerId)); eexists;
      (split; [reflexivity|]); simpl; split; congruence. }
  simpl. split; [reflexivity|]. split; [|split; [|split]].
  - apply list_eq. intros j. unfold ids. rewrite !list_lookup_fmap.
    destruct (ps !! j) as [q|] eqn:Hq.
    + destruct (Hall j q Hq) as (q' & -> & Hid & _). simpl. congruence.
    + destruct (lookup_credit_kill attackerId (<[this := v]> ps) j) as [n ->].
      rewrite list_lookup_insert_ne, Hq; [reflexivity|].
      intros <-. rewrite Hq in Hp. discriminate.
  - rewrite (credit_kill_lookup attackerId _ this v Hnd1)
      by (apply list_lookup_insert_eq, Hlt).
    destruct (decide _); eexists; (split; [reflexivity|]); repeat split.
  - intros j q Hq. destruct (Hall j q Hq) as (q' & H1 & _ & H2).
    exists q'. split; assumption.
  - intros Hout. apply list_eq. intros j. rewrite !list_lookup_fmap.
    destruct (ps !! j) as [q|] eqn:Hq.
    + destruct (Hall j q Hq) as (q' & -> & _ & Hs). simpl. f_equal.
      rewrite Hs. destruct (decide _) as [E|_]; [|reflexivity].
      exfalso. apply Hout. unfold ids. apply list_elem_of_fmap.
      exists q. split; [congruence | eapply list_elem_of_lookup_2, Hq].
    + destruct (lookup_credit_kill attackerId (<[this := v]> ps) j) as [n ->].
      rewrite list_lookup_insert_ne, Hq; [reflexivity|].
      intros <-. rewrite Hq in Hp. discriminate.
Qed.

(** The last hit on the second tank, by a bullet of the first. *)
Lemma kill_credit_witness :
  let a := Player.new "a" 100 100 in
  let b := Player.set_hp 25 (Player.new "b" 200 100) in
  let r := Player.takeDamage 25 "a" 1000 1 [a; b] in
  r.1 = true /\
  ids r.2 = ["a"; "b"] /\
  Player.score <$> r.2 = [100%Z; 0%Z].
Proof.
  intros a b r.
  assert (Hnd : NoDup (ids [a; b])).
  { change (NoDup ["a"; "b"]). apply NoDup_cons. split.
    - intros Hin. apply list_elem_of_singleton in Hin. discriminate.
    - apply NoDup_singleton. }
  destruct (kill_credit 25 "a" 1000 1 [a; b] b Hnd eq_refl eq_refl
              ltac:(simpl; lia)) as (H1 & H2 & _ & _ & _).
  split; [exact H1|]. split; [exact H2|]. reflexivity.
Defined.

(** ** Repairs *)

(** X12.  A repair of an alive tank with no repair in the last
    [REPAIR_COOLDOWN] is granted, also at full health: hit points go
    up by [REPAIR_AMOUNT] but not above [MAX_HEALTH], and the clock is
    recorded under the tank's id only.  The next request is refused,
    leaving tank and record as they are, while less than
    [REPAIR_COOLDOWN] has passed since, and granted from then on. *)
Theorem repair_cooldown_enforced (now1 now2 : Z) (p : Player.t)
    (lrt : gmap string Z) :
  Player.isAlive p = true -> now1 <> 0%Z ->
  (forall last, lrt !! Player.id p = Some last ->
     last = 0%Z \/ (REPAIR_COOLDOWN <= now1 - last)%Z) ->
  let r := Player.repair now1 p lrt in
  r.1.1 = true /\
  r.1.2 = Player.set_hp (Z.min MAX_HEALTH (Player.hp p + REPAIR_AMOUNT)) p /\
  r.2 !! Player.id p = Some now1 /\
  (forall key, key <> Player.id p -> r.2 !! key = lrt !! key) /\
  ((now2 - now1 < REPAIR_COOLDOWN)%Z ->
   Player.repair now2 r.1.2 r.2 = (false, r.1.2, r.2)) /\
  ((REPAIR_COOLDOWN <= now2 - now1)%Z ->
   (Player.repair now2 r.1.2 r.2).1.1 = true /\
   Player.hp (Player.repair now2 r.1.2 r.2).1.2
   = Z.min MAX_HEALTH (Z.min MAX_HEALTH (Player.hp p + REPAIR_AMOUNT)
                       + REPAIR_AMOUNT)).
Proof.
  intros Ha Hnz Hl r. subst r. rewrite (repair_granted now1 p lrt Ha Hl).
  simpl. split; [reflexivity|]. split; [reflexivity|].
  split; [apply lookup_insert_eq|].
  split; [intros key Hk; apply lookup_insert_ne; congruence|].
  set (p1 := Player.set_hp _ p).
  split.
  - intros Hc. apply repair_cooling with (last := now1); try assumption.
    apply lookup_insert_eq.
  - intros Hc. rewrite repair_granted; [split; reflexivity | exact Ha |].
    intros last Hlast. change (Player.id p1) with (Player.id p) in Hlast.
    rewrite lookup_insert_eq in Hlast. injection Hlast as <-. right. exact Hc.
Qed.

(** A tank at 95 asks twice, two seconds apart. *)
Lemma repair_cooldown_enforced_witness :
  let p := Player.set_hp 95 (Player.new "a" 100 100) in
  let r := Player.repair 1000 p ∅ in
  r.1.1 = true /\ Player.hp r.1.2 = 100%Z /\
  Player.repair 3000 r.1.2 r.2 = (false, r.1.2, r.2).
Proof.
  intros p r.
  destruct (repair_cooldown_enforced 1000 3000 p ∅ eq_refl ltac:(lia))
    as (H1 & H2 & _ & _ & H3 & _).
  { intros last Hlast. rewrite lookup_empty in Hlast. discriminate. }
  split; [exact H1|]. split; [subst r; rewrite H2; reflexivity|].
  apply H3. unfold REPAIR_COOLDOWN. lia.
Defined.

(** ** Friction and turning *)

Lemma update_alive_fields (deltaTime : R) (now0 : Z) (r1 r2 : R) (p : Player.t) :
  Player.isAlive p = true ->
  let q := Player.update deltaTime now0 r1 r2 p in
  Player.isAlive q = true /\
  Player.vx q = (Player.vx p * FRICTION)%R /\
  Player.vy q = (Player.vy p * FRICTION)%R /\
  Player.targetAngle q = Player.targetAngle p /\
  Player.angle q = (Player.angle p + heading_error p * 0.2)%R /\
  Player.hp q = Player.hp p /\ Player.score q = Player.score p.
Proof.
  intros Ha. unfold Player.update, heading_error. rewrite Ha. simpl.
  repeat split; assumption.
Qed.

(** X13.  Friction is applied once for every call of [update],
    whatever the frame time: after [n] updates an alive tank that has
    received no input keeps [FRICTION ^ n] of its velocity, stays
    alive with the hit points and score it had, and is inside the
    arena. *)
Theorem friction_per_update (deltaTimes : list R) (now0 : Z) (r1 r2 : R)
    (p : Player.t) :
  Player.isAlive p = true ->
  let q := updates deltaTimes now0 r1 r2 p in
  Player.isAlive q = true /\
  Player.vx q = (Player.vx p * FRICTION ^ length deltaTimes)%R /\
  Player.vy q = (Player.vy p * FRICTION ^ length deltaTimes)%R /\
  Player.hp q = Player.hp p /\ Player.score q = Player.score p /\
  (deltaTimes <> [] -> in_arena q).
Proof.
  unfold updates. revert p.
  induction deltaTimes as [|dt dts IH] using rev_ind; intros p Ha; simpl.
  { split; [exact Ha|]. split; [lra|]. split; [lra|].
    split; [reflexivity|]. split; [reflexivity|]. intros H. contradiction. }
  rewrite fold_left_app, length_app. simpl.
  destruct (IH p Ha) as (Ha1 & Hvx & Hvy & Hhp & Hsc & _).
  destruct (update_alive_fields dt now0 r1 r2 _ Ha1)
    as (Ha2 & Hvx2 & Hvy2 & _ & _ & Hhp2 & Hsc2).
  split; [exact Ha2|].
  replace (length dts + 1)%nat with (S (length dts)) by lia.
  split; [rewrite Hvx2, Hvx; simpl; ring|].
  split; [rewrite Hvy2, Hvy; simpl; ring|].
  split; [congruence|]. split; [congruence|].
  intros _. apply update_alive_in_arena, Ha1.
Qed.

(** Two frames of different length. *)
Lemma friction_per_update_witness :
  let p := Player.applyInput {| dx := 1; dy := 0; boost := JUndefined |}
             (Player.new "a" 100 100) in
  Player.vx (updates [0.016; 0.032]%R 1000 0 0 p)
  = (Player.vx p * FRICTION ^ 2)%R.
Proof.
  intros p.
  destruct (friction_per_update [0.016; 0.032]%R 1000 0 0 p)
    as (_ & H & _).
  - unfold p, Player.applyInput. simpl. destruct (decide _); reflexivity.
  - exact H.
Defined.

Lemma while_above_PI_turns (n : nat) :
  forall d : R, exists k : Z,
    Player.while_above_PI n d = (d + 2 * Math.PI * IZR k)%R.
Proof.
  induction n as [|n IH]; intros d; simpl.
  - exists 0%Z. simpl. lra.
  - destruct (decide (d > Math.PI)%R).
    + destruct (IH (d - 2 * Math.PI)%R) as [k ->]. exists (k - 1)%Z.
      rewrite minus_IZR. simpl. lra.
    + exists 0%Z. simpl. lra.
Qed.

Lemma while_below_minus_PI_turns (n : nat) :
  forall d : R, exists k : Z,
    Player.while_below_minus_PI n d = (d + 2 * Math.PI * IZR k)%R.
Proof.
  induction n as [|n IH]; intros d; simpl.
  - exists 0%Z. simpl. lra.
  - destruct (decide (d < - Math.PI)%R).
    + destruct (IH (d + 2 * Math.PI)%R) as [k ->]. exists (k + 1)%Z.
      rewrite plus_IZR. simpl. lra.
    + exists 0%Z. simpl. lra.
Qed.

Lemma shortestDiff_turns (d : R) :
  exists k : Z, Player.shortestDiff d = (d + 2 * Math.PI * IZR k)%R.
Proof.
  unfold Player.shortestDiff.
  destruct (while_above_PI_turns (Player.turns d) d) as [k1 H1].
  destruct (while_below_minus_PI_turns
              (Player.turns (Player.while_above_PI (Player.turns d) d))
              (Player.while_above_PI (Player.turns d) d)) as [k2 H2].
  exists (k1 + k2)%Z. rewrite H2, H1, plus_IZR. lra.
Qed.

Lemma shortestDiff_unique (d c : R) (k : Z) :
  (- Math.PI < c < Math.PI)%R -> d = (c + 2 * Math.PI * IZR k)%R ->
  Player.shortestDiff d = c.
Proof.
  intros Hc Hd. pose proof PI_pos as Hpi.
  pose proof (shortestDiff_range d) as Hr.
  destruct (shortestDiff_turns d) as [j Hj].
  assert (Hm : (- 1 < IZR (j + k) < 1)%R).
  { rewrite plus_IZR.
    assert (E : (2 * Math.PI * (IZR j + IZR k)
                 = Player.shortestDiff d - c)%R) by (rewrite Hj, Hd; lra).
    split.
    - apply Rmult_lt_reg_l with (r := (2 * Math.PI)%R); [lra|]. rewrite E. lra.
    - apply Rmult_lt_reg_l with (r := (2 * Math.PI)%R); [lra|]. rewrite E. lra. }
  destruct Hm as [Hm1 Hm2].
  apply (lt_IZR (-1)) in Hm1. apply (lt_IZR _ 1) in Hm2.
  assert (Hz : (j + k = 0)%Z) by lia.
  assert (Hjk : (IZR j = - IZR k)%R).
  { apply (f_equal IZR) in Hz. rewrite plus_IZR in Hz. simpl in Hz. lra. }
  rewrite Hj, Hd, Hjk. lra.
Qed.

Lemma heading_error_update (deltaTime : R) (now0 : Z) (r1 r2 : R)
    (p : Player.t) :
  Player.isAlive p = true ->
  heading_error (Player.update deltaTime now0 r1 r2 p)
  = (heading_error p * 0.8)%R.
Proof.
  intros Ha. pose proof PI_pos as Hpi.
  destruct (update_alive_fields deltaTime now0 r1 r2 p Ha)
    as (_ & _ & _ & Ht & Hang & _).
  unfold heading_error at 1. rewrite Ht, Hang.
  pose proof (shortestDiff_range (Player.targetAngle p - Player.angle p)) as Hr.
  destruct (shortestDiff_turns (Player.targetAngle p - Player.angle p))
    as [k Hk].
  fold (heading_error p) in Hr, Hk.
  apply shortestDiff_unique with (k := (- k)%Z); [lra|].
  rewrite opp_IZR, Hk. lra.
Qed.

(** X14.  Turning: [update] takes the heading a fifth of the way to
    the target, the shorter way round, so what is left of the way is
    multiplied by 0.8 with every call, whatever the frame time, and is
    never more than half a turn.  ([ROTATION_SPEED] is not read.) *)
Theorem heading_converges (deltaTimes : list R) (now0 : Z) (r1 r2 : R)
    (p : Player.t) :
  Player.isAlive p = true ->
  let q := updates deltaTimes now0 r1 r2 p in
  Player.targetAngle q = Player.targetAngle p /\
  heading_error q = (heading_error p * 0.8 ^ length deltaTimes)%R /\
  (- Math.PI <= heading_error p <= Math.PI)%R /\
  (exists k : Z,
     (Player.targetAngle p - Player.angle p
      = heading_error p + 2 * Math.PI * IZR k)%R).
Proof.
  intros Ha q. subst q.
  assert (H : Player.isAlive (updates deltaTimes now0 r1 r2 p) = true /\
              Player.targetAngle (updates deltaTimes now0 r1 r2 p)
              = Player.targetAngle p /\
              heading_error (updates deltaTimes now0 r1 r2 p)
              = (heading_error p * 0.8 ^ length deltaTimes)%R).
  { unfold updates.
    induction deltaTimes as [|dt dts IH] using rev_ind; simpl.
    - split; [exact Ha|]. split; [reflexivity|lra].
    - rewrite fold_left_app, length_app. simpl.
      destruct IH as (Ha1 & Ht1 & He1).
      destruct (update_alive_fields dt now0 r1 r2 _ Ha1)
        as (Ha2 & _ & _ & Ht2 & _).
      split; [exact Ha2|]. split; [congruence|].
      rewrite (heading_error_update dt now0 r1 r2 _ Ha1), He1.
      replace (length dts + 1)%nat with (S (length dts)) by lia.
      simpl. ring. }
  destruct H as (_ & Ht & He).
  split; [exact Ht|]. split; [exact He|].
  split; [apply shortestDiff_range|].
  destruct (shortestDiff_turns (Player.targetAngle p - Player.angle p))
    as [k Hk].
  exists (- k)%Z. unfold heading_error. rewrite Hk, opp_IZR. lra.
Qed.

(** A tank heading east is told to go west. *)
Lemma heading_converges_witness :
  let p := Player.applyInput {| dx := -1; dy := 0; boost := JUndefined |}
             (Player.new "a" 100 100) in
  heading_error (updates [0.016; 0.016]%R 1000 0 0 p)
  = (heading_error p * 0.8 ^ 2)%R.
Proof.
  intros p.
  destruct (heading_converges [0.016; 0.016]%R 1000 0 0 p)
    as (_ & H & _).
  - unfold p, Player.applyInput. simpl. destruct (decide _); reflexivity.
  - exact H.
Defined.

(** ** Tanks that do not touch *)

Lemma collide_apart (i j : nat) (ps : list Player.t) :
  (forall p q, ps !! i = Some p -> ps !! j = Some q -> ~ overlapping p q) ->
  collide i j ps = ps.
Proof.
  intros H. unfold collide.
  destruct (ps !! i) as [p1|] eqn:H1; [|reflexivity].
  destruct (ps !! j) as [p2|] eqn:H2; [|reflexivity].
  rewrite (collidePair_apart p1 p2 (H p1 p2 eq_refl eq_refl)).
  rewrite (list_insert_id ps i p1 H1). apply list_insert_id, H2.
Qed.

Lemma collideAll_apart (order : list (nat * nat)) (ps : list Player.t) :
  (forall i j p q,
     (i, j) ∈ order -> ps !! i = Some p -> ps !! j = Some q ->
     ~ overlapping p q) ->
  collideAll order ps = ps.
Proof.
  unfold collideAll. induction order as [|[i j] order IH]; intros H; simpl;
    [reflexivity|].
  rewrite collide_apart.
  - apply IH. intros i' j' p q Hin. apply H. right. exact Hin.
  - intros p q. apply H. left.
Qed.

Lemma tankCollisions_apart (ps : list Player.t) :
  (forall i j p q,
     (i < j)%nat -> ps !! i = Some p -> ps !! j = Some q ->
     ~ overlapping p q) ->
  tankCollisions ps = ps.
Proof.
  intros H. rewrite tankCollisions_pairs. apply collideAll_apart.
  intros i j p q Hin. apply elem_of_pairs in Hin. apply H. lia.
Qed.

Lemma collide_dead (i j k : nat) (ps : list Player.t) (p : Player.t) :
  ps !! k = Some p -> Player.isAlive p = false ->
  collide i j ps !! k = Some p.
Proof.
  intros Hk Hd. unfold collide.
  destruct (ps !! i) as [p1|] eqn:H1; [|exact Hk].
  destruct (ps !! j) as [p2|] eqn:H2; [|exact Hk].
  destruct (collidePair p1 p2) as [p1' p2'] eqn:Hc.
  assert (Hi : (i < length ps)%nat) by (eapply lookup_lt_Some, H1).
  assert (Hj : (j < length (<[i := p1']> ps))%nat)
    by (rewrite length_insert; eapply lookup_lt_Some, H2).
  destruct (decide (k = j)) as [->|Hkj].
  - rewrite list_lookup_insert_eq by exact Hj.
    rewrite H2 in Hk. injection Hk as ->.
    rewrite collidePair_dead in Hc by (right; exact Hd). congruence.
  - rewrite list_lookup_insert_ne by congruence.
    destruct (decide (k = i)) as [->|Hki].
    + rewrite list_lookup_insert_eq by exact Hi.
      rewrite H1 in Hk. injection Hk as ->.
      rewrite collidePair_dead in Hc by (left; exact Hd). congruence.
    + rewrite list_lookup_insert_ne by congruence. exact Hk.
Qed.

(** X15.  The tank-to-tank test changes nothing when no two alive
    tanks are closer than two radii, and it never touches a dead tank,
    however many alive tanks overlap it. *)
Theorem collisions_spare (ps : list Player.t) :
  ((forall i j p q,
      (i < j)%nat -> ps !! i = Some p -> ps !! j = Some q ->
      ~ overlapping p q) ->
   tankCollisions ps = ps) /\
  (forall k p,
     ps !! k = Some p -> Player.isAlive p = false ->
     tankCollisions ps !! k = Some p).
Proof.
  split; [apply tankCollisions_apart|].
  intros k p Hk Hd. rewrite tankCollisions_pairs. unfold collideAll.
  apply fold_left_preserves with (P := fun arr => arr !! k = Some p);
    [exact Hk|].
  intros arr [i j] Harr. apply collide_dead; assumption.
Qed.

(** X16.  A world at rest stays as it is: when every tank is alive,
    inside the arena, not moving and on its target heading, no two
    tanks overlap and no bullet flies, a run of [gameLoop] changes
    nothing but [lastUpdate], and broadcasts the tanks as they
    were. *)
Theorem gameLoop_idle (rd : Readings) (w : World) :
  Forall resting (players w) -> bullets w = [] ->
  (forall i j p q,
     (i < j)%nat -> players w !! i = Some p -> players w !! j = Some q ->
     ~ overlapping p q) ->
  (gameLoop rd w).2
  = {| players := players w; bullets := [];
       lastRepairTime := lastRepairTime w; lastUpdate := now rd |} /\
  s_players (gameLoop rd w).1
  = (fun p => (Player.id p, Player.toJSON p)) <$> players w /\
  s_bullets (gameLoop rd w).1 = [].
Proof.
  intros Hrest Hbs Hapart. unfold gameLoop.
  rewrite (update_phase_resting _ rd (players w) Hrest), Hbs.
  simpl bulletLoop. cbv iota beta.
  rewrite (tankCollisions_apart (players w) Hapart).
  repeat split.
Qed.

(** Two new tanks a hundred apart. *)
Lemma gameLoop_idle_witness :
  let a := Player.new "a" 100 100 in
  let b := Player.new "b" 200 100 in
  let w := {| players := [a; b]; bullets := []; lastRepairTime := ∅;
              lastUpdate := 1000 |} in
  players (gameLoop (steady 1016) w).2 = [a; b] /\
  lastUpdate (gameLoop (steady 1016) w).2 = 1016%Z.
Proof.
  intros a b w.
  destruct (gameLoop_idle (steady 1016) w) as (H & _).
  - apply List.Forall_cons;
      [apply resting_new; unfold TANK_RADIUS, ARENA_WIDTH, ARENA_HEIGHT; lra|].
    apply List.Forall_cons;
      [apply resting_new; unfold TANK_RADIUS, ARENA_WIDTH, ARENA_HEIGHT; lra|].
    apply List.Forall_nil.
  - reflexivity.
  - intros [|[|i]] [|[|j]] p q Hij Hp Hq; simpl in Hp, Hq;
      try lia; try discriminate.
    injection Hp as <-. injection Hq as <-.
    intros (_ & _ & Hd). unfold centre_distance, a, b, TANK_RADIUS in Hd.
    simpl in Hd.
    replace ((100 - 200) * (100 - 200) + (100 - 100) * (100 - 100))%R
      with (100 * 100)%R in Hd by ring.
    unfold Math.sqrt in Hd. rewrite sqrt_square in Hd by lra. lra.
  - rewrite H. split; reflexivity.
Defined.

(** ** Whom a bullet can hurt *)

Lemma takeDamage_other (damage : Z) (attackerId : string) (now0 : Z)
    (this j : nat) (ps : list Player.t) :
  j <> this ->
  exists n : Z,
    (Player.takeDamage damage attackerId now0 this ps).2 !! j
    = Player.add_score n <$> ps !! j.
Proof.
  intros Hne. unfold Player.takeDamage.
  assert (H0 : exists n : Z, ps !! j = Player.add_score n <$> ps !! j).
  { exists 0%Z. destruct (ps !! j); simpl; [rewrite add_score_0|]; reflexivity. }
  destruct (ps !! this) as [p|] eqn:Hp; [|exact H0].
  destruct (Player.isAlive p); simpl; [|exact H0].
  destruct (bool_decide _); simpl.
  - destruct (lookup_credit_kill attackerId
                (<[this := Player.die now0
                             (Player.set_hp (Player.hp p - damage) p)]> ps) j)
      as [n Hn].
    exists n. rewrite Hn, list_lookup_insert_ne by congruence. reflexivity.
  - rewrite list_lookup_insert_ne by congruence. exact H0.
Qed.

(** X17.  A tank is never hurt by its own bullets: through a bullet
    loop over bullets that are all its own, however close they are, it
    keeps its hit points and stays alive or dead where it is. *)
Theorem own_bullets_harmless (deltaTime : R) (rd : Readings)
    (bs : list Bullet.t) (i : nat) (ps : list Player.t)
    (j : nat) (p : Player.t) :
  ps !! j = Some p ->
  Forall (fun b => Bullet.owner b = Player.id p) bs ->
  exists q,
    (bulletLoop deltaTime rd i bs ps).2 !! j = Some q /\
    Player.id q = Player.id p /\ Player.hp q = Player.hp p /\
    Player.isAlive q = Player.isAlive p /\
    Player.x q = Player.x p /\ Player.y q = Player.y p.
Proof.
  intros Hp Hown. revert i.
  induction Hown as [|bullet rest Hb _ IH]; intros i; simpl.
  { exists p. repeat split. exact Hp. }
  specialize (IH (S i)).
  destruct (bulletLoop deltaTime rd (S i) rest ps) as [rest1 ps1].
  pose proof (Bullet_update_moves deltaTime (bulletNow rd i) bullet) as Hm.
  destruct (Bullet.update deltaTime (bulletNow rd i) bullet) as [bullet1 keep].
  simpl in *. destruct keep; simpl; [|exact IH].
  destruct (list_find (hits bullet1) ps1) as [[k q0]|] eqn:Hfind; [|exact IH].
  destruct IH as (q1 & Hq1 & Hid & Hrest).
  apply list_find_Some in Hfind as (Hq0 & (_ & Hne & _) & _).
  assert (Hjk : j <> k).
  { intros ->. rewrite Hq0 in Hq1. injection Hq1 as ->.
    apply Hne. rewrite Hm. simpl. congruence. }
  destruct (takeDamage_other BULLET_DAMAGE (Bullet.owner bullet1)
              (dieNow rd i) k j ps1 Hjk) as [n Hn].
  destruct (Player.takeDamage _ _ _ k ps1) as [died ps2]. simpl in *.
  exists (Player.add_score n q1). rewrite Hn, Hq1.
  split; [reflexivity|]. simpl. split; [exact Hid | exact Hrest].
Qed.

(** A tank with its own bullet on top of it. *)
Lemma own_bullets_harmless_witness :
  let a := Player.new "a" 100 100 in
  let bullet := Bullet.mk 100 100 35 0 "a" 1000 0 in
  exists q,
    (bulletLoop 0 (steady 1008) 0 [bullet] [a]).2 !! 0%nat = Some q /\
    Player.hp q = MAX_HEALTH /\ Player.isAlive q = true.
Proof.
  intros a bullet.
  destruct (own_bullets_harmless 0 (steady 1008) [bullet] 0 [a] 0 a eq_refl)
    as (q & Hq & _ & Hhp & Ha & _).
  - apply List.Forall_cons; [reflexivity | apply List.Forall_nil].
  - exists q. split; [exact Hq|]. split; [exact Hhp | exact Ha].
Defined.

(** ** What a client can reach *)

(** X18.  A [move], [shoot] or [repair] message reaches only the tank
    registered under the id of the socket it came on: every other tank
    stays as it is, no tank joins or leaves, no tank (the sender's
    included) changes place, score or between alive and dead, repair
    times recorded for other ids stay, and the only bullet that can
    appear is one owned by the sender. *)
Theorem client_messages_are_local (m : Message) (socketId : string)
    (w : World) :
  sender m = Some socketId ->
  let w' := handle m w in
  ids (players w') = ids (players w) /\
  (forall j p,
     players w !! j = Some p -> Player.id p <> socketId ->
     players w' !! j = Some p) /\
  Forall2 (fun p q =>
             Player.x q = Player.x p /\ Player.y q = Player.y p /\
             Player.score q = Player.score p /\
             Player.isAlive q = Player.isAlive p)
    (players w) (players w') /\
  (forall key, key <> socketId ->
     lastRepairTime w' !! key = lastRepairTime w !! key) /\
  (exists fired,
     bullets w' = bullets w ++ fired /\ (length fired <= 1)%nat /\
     Forall (fun b => Bullet.owner b = socketId) fired) /\
  lastUpdate w' = lastUpdate w.
Proof.
  intros Hs.
  set (same := fun p q : Player.t =>
                 Player.x q = Player.x p /\ Player.y q = Player.y p /\
                 Player.score q = Player.score p /\
                 Player.isAlive q = Player.isAlive p).
  assert (Hrefl : forall ps, Forall2 same ps ps).
  { intros ps. induction ps; constructor; [repeat split | assumption]. }
  assert (Hnone : forall w0 : World,
            ids (players w0) = ids (players w0) /\
            (forall j p, players w0 !! j = Some p -> Player.id p <> socketId ->
                         players w0 !! j = Some p) /\
            Forall2 same (players w0) (players w0) /\
            (forall key, key <> socketId ->
               lastRepairTime w0 !! key = lastRepairTime w0 !! key) /\
            (exists fired,
               bullets w0 = bullets w0 ++ fired /\ (length fired <= 1)%nat /\
               Forall (fun b => Bullet.owner b = socketId) fired) /\
            lastUpdate w0 = lastUpdate w0).
  { intros w0. split; [reflexivity|]. split; [intros j p H _; exact H|].
    split; [apply Hrefl|]. split; [reflexivity|]. split; [|reflexivity].
    exists []. rewrite app_nil_r. split; [reflexivity|].
    split; [simpl; lia | apply List.Forall_nil]. }
  assert (Hins : forall i p q,
            players w !! i = Some p -> Player.id p = socketId ->
            Player.id q = Player.id p -> same p q ->
            ids (<[i := q]> (players w)) = ids (players w) /\
            (forall j r, players w !! j = Some r -> Player.id r <> socketId ->
                         <[i := q]> (players w) !! j = Some r) /\
            Forall2 same (players w) (<[i := q]> (players w))).
  { intros i p q Hp Hk Hid Hsame.
    split; [apply ids_insert with (p := p); assumption|]. split.
    - intros j r Hr Hne. rewrite list_lookup_insert_ne; [exact Hr|].
      intros <-. rewrite Hp in Hr. injection Hr as <-. contradiction.
    - rewrite <- (list_insert_id (players w) i p Hp) at 1.
      apply Forall2_insert; [apply Hrefl | exact Hsame]. }
  destruct m as [k r1 r2|k data|k n n2 n3|k n|k|rd]; simpl in Hs;
    try discriminate; injection Hs as ->; simpl.
  - unfold on_move.
    destruct (list_find _ _) as [[i p]|] eqn:Hf; [|apply Hnone].
    apply find_id_Some in Hf as [Hp Hk].
    destruct (Hins i p (Player.applyInput data p) Hp Hk) as (H1 & H2 & H3).
    { apply applyInput_id. }
    { unfold same, Player.applyInput. destruct (negb _); [repeat split|].
      destruct (decide _); repeat split. }
    simpl. split; [exact H1|]. split; [exact H2|]. split; [exact H3|].
    split; [reflexivity|]. split; [|reflexivity].
    exists []. rewrite app_nil_r. split; [reflexivity|].
    split; [simpl; lia | apply List.Forall_nil].
  - unfold on_shoot.
    destruct (list_find _ _) as [[i p]|] eqn:Hf; [|apply Hnone].
    apply find_id_Some in Hf as [Hp Hk].
    destruct (Hins i p (Player.shoot n n2 p).2 Hp Hk) as (H1 & H2 & H3).
    { apply shoot_id. }
    { unfold same, Player.shoot. destruct (negb _); [repeat split|].
      destruct (bool_decide _); repeat split. }
    destruct (Player.shoot n n2 p) as [[bulletData|] p1] eqn:Hsh; simpl in *.
    + split; [exact H1|]. split; [exact H2|]. split; [exact H3|].
      split; [reflexivity|]. split; [|reflexivity].
      exists [Bullet.new bulletData n3]. split; [reflexivity|].
      split; [simpl; lia|].
      apply List.Forall_cons; [|apply List.Forall_nil].
      unfold Player.shoot in Hsh. destruct (negb _); [discriminate|].
      destruct (bool_decide _); [discriminate|].
      injection Hsh as <- _. simpl. exact Hk.
    + split; [exact H1|]. split; [exact H2|]. split; [exact H3|].
      split; [reflexivity|]. split; [|reflexivity].
      exists []. rewrite app_nil_r. split; [reflexivity|].
      split; [simpl; lia | apply List.Forall_nil].
  - unfold on_repair.
    destruct (list_find _ _) as [[i p]|] eqn:Hf; [|apply Hnone].
    apply find_id_Some in Hf as [Hp Hk].
    destruct (Hins i p (Player.repair n p (lastRepairTime w)).1.2 Hp Hk)
      as (H1 & H2 & H3).
    { apply repair_id. }
    { unfold same, Player.repair. destruct (negb _); [repeat split|].
      match goal with |- context [if ?c then _ else _] => destruct c end;
        repeat split. }
    assert (Hl : forall key, key <> socketId ->
              (Player.repair n p (lastRepairTime w)).2 !! key
              = lastRepairTime w !! key).
    { intros key Hne. unfold Player.repair. destruct (negb _); [reflexivity|].
      match goal with |- context [if ?c then _ else _] => destruct c end;
        [reflexivity|].
      simpl. apply lookup_insert_ne. congruence. }
    destruct (Player.repair n p (lastRepairTime w)) as [[ok p1] lrt].
    simpl in *.
    split; [exact H1|]. split; [exact H2|]. split; [exact H3|].
    split; [exact Hl|]. split; [|reflexivity].
    exists []. rewrite app_nil_r. split; [reflexivity|].
    split; [simpl; lia | apply List.Forall_nil].
Qed.

(** A shot of the first of two tanks. *)
Lemma client_messages_are_local_witness :
  let a := Player.new "a" 100 100 in
  let b := Player.new "b" 300 100 in
  let w := {| players := [a; b]; bullets := []; lastRepairTime := ∅;
              lastUpdate := 1000 |} in
  let w' := handle (MsgShoot "a" 2000 2000 2000) w in
  ids (players w') = ["a"; "b"] /\
  players w' !! 1%nat = Some b /\
  lastUpdate w' = 1000%Z.
Proof.
  intros a b w w'.
  destruct (client_messages_are_local (MsgShoot "a" 2000 2000 2000) "a" w
              eq_refl) as (H1 & H2 & _ & _ & _ & H3).
  split; [exact H1|]. split; [|exact H3].
  apply (H2 1%nat b eq_refl). discriminate.
Defined.

(** ** Two tanks on one spot *)

(** X19.  Two alive tanks with the same centre: the angle between
    them is [atan2(0, 0) = 0], so the first is moved [TANK_RADIUS] to
    the east and the second [TANK_RADIUS] to the west, ending exactly
    two radii apart, and the first loses 3 of its x velocity, which
    the second gains. *)
Theorem collide_coincident (p1 p2 : Player.t) :
  Player.isAlive p1 = true -> Player.isAlive p2 = true ->
  Player.x p1 = Player.x p2 -> Player.y p1 = Player.y p2 ->
  let q1 := (collidePair p1 p2).1 in
  let q2 := (collidePair p1 p2).2 in
  Player.x q1 = (Player.x p1 + TANK_RADIUS)%R /\ Player.y q1 = Player.y p1 /\
  Player.x q2 = (Player.x p2 - TANK_RADIUS)%R /\ Player.y q2 = Player.y p2 /\
  Player.vx q1 = (Player.vx p1 - 3)%R /\ Player.vy q1 = Player.vy p1 /\
  Player.vx q2 = (Player.vx p2 + 3)%R /\ Player.vy q2 = Player.vy p2 /\
  centre_distance q1 q2 = (2 * TANK_RADIUS)%R.
Proof.
  intros H1 H2 Hx Hy q1 q2. subst q1 q2.
  unfold collidePair, centre_distance. rewrite H1, H2, Hx, Hy. simpl.
  replace (Player.x p2 - Player.x p2)%R with 0%R by ring.
  replace (Player.y p2 - Player.y p2)%R with 0%R by ring.
  replace (0 * 0 + 0 * 0)%R with 0%R by ring.
  unfold Math.sqrt, Math.atan2, Math.cos, Math.sin, TANK_RADIUS.
  rewrite sqrt_0.
  destruct (decide (0 < 15 * 2)%R) as [_|Hn]; [|lra].
  destruct (decide (0 < 0)%R) as [Hn|_]; [lra|].
  destruct (decide (0 <= 0)%R) as [_|Hn]; [|lra].
  simpl. rewrite cos_0, sin_0.
  repeat (split; [lra|]).
  replace ((Player.x p2 + 1 * ((15 * 2 - 0) / 2)
            - (Player.x p2 - 1 * ((15 * 2 - 0) / 2)))
           * (Player.x p2 + 1 * ((15 * 2 - 0) / 2)
              - (Player.x p2 - 1 * ((15 * 2 - 0) / 2)))
           + (Player.y p2 + 0 * ((15 * 2 - 0) / 2)
              - (Player.y p2 - 0 * ((15 * 2 - 0) / 2)))
             * (Player.y p2 + 0 * ((15 * 2 - 0) / 2)
                - (Player.y p2 - 0 * ((15 * 2 - 0) / 2))))%R
    with (30 * 30)%R by field.
  rewrite sqrt_square by lra. lra.
Qed.

(** Two new tanks on the same spot. *)
Lemma collide_coincident_witness :
  let p1 := Player.new "a" 300 300 in
  let p2 := Player.new "b" 300 300 in
  Player.x (collidePair p1 p2).1 = (300 + TANK_RADIUS)%R /\
  Player.x (collidePair p1 p2).2 = (300 - TANK_RADIUS)%R.
Proof.
  intros p1 p2.
  destruct (collide_coincident p1 p2 eq_refl eq_refl eq_refl eq_refl)
    as (H1 & _ & H2 & _).
  split; [exact H1 | exact H2].
Defined.
